(** * rclone-golib: progress decoding, transfer store, retry and error classes

    A shallow embedding of the core of the Go package [rclonelib]:
    - [Manager] (the transfer store) with its operations;
    - [parseRcloneOutput], its [bufio.Scanner] split function, the
      [statsRegex] matcher and [parseSize];
    - the argument vector built by [Executor.Execute];
    - [Executor.ExecuteWithRetry];
    - [ClassifyError].

    Go values are modelled as follows.  A [string] and a [[]byte] are
    sequences of bytes: Rocq's [string] for the former, [list ascii] for
    the latter.  [int] and [int64] are [Z].  [float64] is the IEEE-754
    binary64 format of [SpecFloat] (precision 53, emax 1024), computed with
    round-to-nearest-even as the hardware does.  A map is a [gmap], a
    slice a [list].  [time.Now()] is an explicit argument. *)

From Stdlib Require Import ZArith List String Ascii Bool Lia DecimalString.
From Stdlib Require Import Floats.SpecFloat.
From stdpp Require Import gmap strings list fin_maps.

Import ListNotations.
Local Open Scope string_scope.
Local Open Scope Z_scope.

(* ===================================================================== *)
(** * float64 *)
(* ===================================================================== *)

Module Float64.

Definition prec : Z := 53.
Definition emax : Z := 1024.

Definition float64 : Type := spec_float.

Definition mul (x y : float64) : float64 := SFmul prec emax x y.
Definition leb (x y : float64) : bool := SFleb x y.

(** [float64(n)] for an integer [n]: the nearest binary64. *)
Definition of_int (n : Z) : float64 := binary_normalize prec emax n 0 false.

(** The binary64 nearest to the ratio [m / d] of two positive integers
    (ties to even); the quotient is rounded once, with its sticky bit. *)
Definition of_ratio (m d : positive) : float64 :=
  let '(q, e, l) := SFdiv_core_binary prec emax (Zpos m) 0 (Zpos d) 0 in
  binary_round_aux prec emax false q e l.

Definition is_inf (x : float64) : bool :=
  match x with S754_infinity _ => true | _ => false end.

Definition min_int64 : Z := - 2 ^ 63.
Definition max_int64 : Z := 2 ^ 63 - 1.

(** The integer part of a finite float, rounded toward zero. *)
Definition trunc (x : float64) : Z :=
  match x with
  | S754_finite s m e =>
      let a := match e with
               | Zneg p => Z.shiftr (Zpos m) (Zpos p)
               | _ => Z.shiftl (Zpos m) e
               end in
      if s then - a else a
  | _ => 0
  end.

(** [int64(x)]: truncation toward zero.  For NaN, the infinities and
    values outside the int64 range Go leaves the result to the
    implementation; amd64 yields the smallest int64. *)
Definition to_int64 (x : float64) : Z :=
  match x with
  | S754_zero _ => 0
  | S754_finite _ _ _ =>
      let t := trunc x in
      if (min_int64 <=? t) && (t <=? max_int64) then t else min_int64
  | _ => min_int64
  end.

(** [math.Min]. *)
Definition min (x y : float64) : float64 :=
  match x, y with
  | S754_infinity true, _ | _, S754_infinity true => S754_infinity true
  | S754_nan, _ | _, S754_nan => S754_nan
  | S754_zero sx, S754_zero sy => S754_zero (sx || sy)
  | _, _ => if SFltb x y then x else y
  end.

End Float64.

(* ===================================================================== *)
(** * The Go string functions the package calls *)
(* ===================================================================== *)

Module Strings.

Definition byte_in (lo hi : nat) (c : ascii) : bool :=
  (lo <=? nat_of_ascii c)%nat && (nat_of_ascii c <=? hi)%nat.

Definition is_upper (c : ascii) : bool := byte_in 65 90 c.
Definition is_lower (c : ascii) : bool := byte_in 97 122 c.
Definition is_digit (c : ascii) : bool := byte_in 48 57 c.

Definition upper_byte (c : ascii) : ascii :=
  if is_lower c then ascii_of_nat (nat_of_ascii c - 32) else c.
Definition lower_byte (c : ascii) : ascii :=
  if is_upper c then ascii_of_nat (nat_of_ascii c + 32) else c.

Fixpoint map_bytes (f : ascii -> ascii) (s : string) : string :=
  match s with
  | EmptyString => EmptyString
  | String c s' => String (f c) (map_bytes f s')
  end.

(** [strings.ToUpper] and [strings.ToLower] on ASCII text; other bytes
    are kept. *)
Definition ToUpper (s : string) : string := map_bytes upper_byte s.
Definition ToLower (s : string) : string := map_bytes lower_byte s.

(** The ASCII white space of [strings.TrimSpace]: tab, line feed,
    vertical tab, form feed, carriage return, space. *)
Definition is_space (c : ascii) : bool :=
  byte_in 9 13 c || (nat_of_ascii c =? 32)%nat.

Fixpoint trim_left (s : string) : string :=
  match s with
  | String c s' => if is_space c then trim_left s' else s
  | EmptyString => EmptyString
  end.

Fixpoint trim_right (s : string) : string :=
  match s with
  | String c s' =>
      match trim_right s' with
      | EmptyString => if is_space c then EmptyString else String c EmptyString
      | r => String c r
      end
  | EmptyString => EmptyString
  end.

Definition TrimSpace (s : string) : string := trim_right (trim_left s).

Definition HasSuffix (s suffix : string) : bool :=
  (String.length suffix <=? String.length s)%nat &&
  String.eqb (substring (String.length s - String.length suffix)
                        (String.length suffix) s) suffix.

Definition TrimSuffix (s suffix : string) : string :=
  if HasSuffix s suffix
  then substring 0 (String.length s - String.length suffix) s
  else s.

(** [strings.Contains]: [substr] occurs in [s]. *)
Fixpoint Contains (s substr : string) : bool :=
  String.prefix substr s ||
  match s with
  | String _ s' => Contains s' substr
  | EmptyString => false
  end.

End Strings.

(* ===================================================================== *)
(** * strconv.ParseFloat on plain decimal text *)
(* ===================================================================== *)

Module Strconv.
Import Float64 Strings.

Record decimal := {
  mant : Z;          (* the digits read, as an integer *)
  frac : nat;        (* how many of them follow the point *)
  sawdigits : bool;
  sawdot : bool
}.

Definition digit_val (c : ascii) : Z := Z.of_nat (nat_of_ascii c) - 48.

(** Reads digits with at most one point; [None] on any other byte or on
    a second point. *)
Fixpoint readDecimal (s : string) (d : decimal) : option decimal :=
  match s with
  | EmptyString => Some d
  | String c s' =>
      if is_digit c then
        readDecimal s' {| mant := 10 * mant d + digit_val c;
                          frac := if sawdot d then S (frac d) else frac d;
                          sawdigits := true;
                          sawdot := sawdot d |}
      else if Ascii.eqb c "." then
        if sawdot d then None
        else readDecimal s' {| mant := mant d; frac := frac d;
                               sawdigits := sawdigits d; sawdot := true |}
      else None
  end.

(** [strconv.ParseFloat(s, 64)] for the texts that [statsRegex] lets
    through, [[0-9.]+]: decimal digits with an optional point, no sign
    and no exponent.  The result is the binary64 nearest to the decimal
    value; [None] stands for a non-nil error (a syntax error, or a range
    error when the value rounds to infinity).  Texts with a sign, an
    exponent or a hexadecimal mantissa, which Go also accepts, are
    outside this model and read as errors. *)
Definition ParseFloat (s : string) : option float64 :=
  match readDecimal s {| mant := 0; frac := 0; sawdigits := false; sawdot := false |} with
  | None => None
  | Some d =>
      if negb (sawdigits d) then None
      else match mant d with
           | Zpos m =>
               let v := of_ratio m (Z.to_pos (10 ^ Z.of_nat (frac d))) in
               if is_inf v then None else Some v
           | _ => Some (S754_zero false)
           end
  end.

End Strconv.

(* ===================================================================== *)
(** * parseSize (rclone.go) *)
(* ===================================================================== *)

Module Size.
Import Float64 Strings Strconv.

Definition multiplier_of (unit : string) : Z :=
  if String.eqb unit "K" then 1024
  else if String.eqb unit "M" then 1024 * 1024
  else if String.eqb unit "G" then 1024 * 1024 * 1024
  else if String.eqb unit "T" then 1024 * 1024 * 1024 * 1024
  else if String.eqb unit "P" then 1024 * 1024 * 1024 * 1024 * 1024
  else 1.

Definition normalize_unit (unit : string) : string :=
  let unit := ToUpper (TrimSpace unit) in
  let unit := TrimSuffix unit "B" in
  let unit := TrimSuffix unit "I" in
  unit.

Definition parseSize (value unit : string) : Z :=
  match ParseFloat value with
  | None => 0
  | Some val =>
      let unit := normalize_unit unit in
      let multiplier := multiplier_of unit in
      to_int64 (mul val (of_int multiplier))
  end.

(** The unit strings of the size contract with their binary order. *)
Definition unit_table : list (string * Z) :=
  [("B", 0); ("K", 1); ("KB", 1); ("KiB", 1); ("M", 2); ("MB", 2);
   ("MiB", 2); ("G", 3); ("GB", 3); ("GiB", 3)].

(** Every spelling of [s] that differs from it in letter case only. *)
Fixpoint case_variants (s : string) : list string :=
  match s with
  | EmptyString => [EmptyString]
  | String c s' =>
      flat_map (fun r =>
                  if is_upper c || is_lower c
                  then [String (lower_byte c) r; String (upper_byte c) r]
                  else [String c r])
               (case_variants s')
  end.

End Size.

(* ===================================================================== *)
(** * Go error values *)
(* ===================================================================== *)

Module Errors.

(** The taxonomy of errors.go. *)
Inductive ErrorType :=
| ErrorTypeNetwork
| ErrorTypeTimeout
| ErrorTypeAuth
| ErrorTypeNotFound
| ErrorTypeFileSystem
| ErrorTypeInvalidInput
| ErrorTypeInsufficientSpace
| ErrorTypeUnknown.

Definition ErrorType_string (t : ErrorType) : string :=
  match t with
  | ErrorTypeNetwork => "network"
  | ErrorTypeTimeout => "timeout"
  | ErrorTypeAuth => "auth"
  | ErrorTypeNotFound => "not_found"
  | ErrorTypeFileSystem => "filesystem"
  | ErrorTypeInvalidInput => "invalid_input"
  | ErrorTypeInsufficientSpace => "insufficient_space"
  | ErrorTypeUnknown => "unknown"
  end.

(** A non-nil [error].  [Plain] is any error that is no
    [*ValidationError] and unwraps to nothing (errors.New, an
    [*exec.ExitError], context.Canceled); [Validation] is a
    [*ValidationError]; [Wrap] is what [fmt.Errorf] builds around one
    [%w] operand; [Classified] is a [*ClassifiedError].  A nil error is
    [None] of [option error]. *)
Inductive error :=
| Plain (msg : string)
| Validation (Field Message : string)
| Wrap (msg : string) (inner : error)
| Classified (Type_ : ErrorType) (Err : error) (Retryable Temporary : bool).

(** [err.Error()]. *)
Fixpoint err_Error (e : error) : string :=
  match e with
  | Plain msg => msg
  | Validation f m => f ++ ": " ++ m
  | Wrap msg _ => msg
  | Classified t inner _ _ => "[" ++ ErrorType_string t ++ "] " ++ err_Error inner
  end.

(** [err.Unwrap()], where the type has the method. *)
Definition Unwrap (e : error) : option error :=
  match e with
  | Wrap _ inner => Some inner
  | Classified _ inner _ _ => Some inner
  | _ => None
  end.

(** [errors.As(err, &valErr)] with [valErr] a [*ValidationError]: the
    first validation error on the unwrap chain. *)
Fixpoint As_ValidationError (e : error) : bool :=
  match e with
  | Validation _ _ => true
  | Plain _ => false
  | Wrap _ inner => As_ValidationError inner
  | Classified _ inner _ _ => As_ValidationError inner
  end.

(** Decimal text of a Go [int], as [%d] prints it. *)
Definition itoa (n : Z) : string := NilEmpty.string_of_int (Z.to_int n).

(** What a failed run of the subprocess returns. *)
Definition boom : error := Plain "exit status 1".

End Errors.

(* ===================================================================== *)
(** * The transfer store (Manager) *)
(* ===================================================================== *)

Module Store.
Import Float64 Errors.

Inductive Status :=
| StatusPending
| StatusInProgress
| StatusCompleted
| StatusFailed.

(** A [time.Time]: [None] is the zero value, [Some ns] an instant read
    from the clock. *)
Definition Time : Type := option Z.

(** The field [Status] is [Status_] here, its name being taken by the
    type. *)
Record Transfer := {
  ID : string;
  Source : string;
  Destination : string;
  Status_ : Status;
  Progress : float64;
  BytesTotal : Z;
  BytesCopied : Z;
  StartTime : Time;
  EndTime : Time;
  Error : option error
}.

(** The manager without its lock: every operation below runs with the
    lock held, so it is one atomic step on this state.  [transfers]
    maps an id to the record its pointer designates; [Add] is the only
    place that stores a pointer, always a fresh one, so two ids never
    share a record. *)
Record Manager := {
  transfers : gmap string Transfer;
  order : list string
}.

Definition NewManager : Manager :=
  {| transfers := ∅; order := [] |}.

Definition zero_float : float64 := S754_zero false.

Definition new_transfer (id source destination : string) : Transfer :=
  {| ID := id; Source := source; Destination := destination;
     Status_ := StatusPending; Progress := zero_float;
     BytesTotal := 0; BytesCopied := 0;
     StartTime := None; EndTime := None; Error := None |}.

Definition Add (m : Manager) (id source destination : string) : Manager * Transfer :=
  let t := new_transfer id source destination in
  ({| transfers := <[id := t]> (transfers m);
      order := order m ++ [id] |}, t).

Definition Start (m : Manager) (id : string) (now : Z) : Manager :=
  match transfers m !! id with
  | Some t =>
      {| transfers :=
           <[id := {| ID := ID t; Source := Source t; Destination := Destination t;
                      Status_ := StatusInProgress; Progress := Progress t;
                      BytesTotal := BytesTotal t; BytesCopied := BytesCopied t;
                      StartTime := Some now; EndTime := EndTime t;
                      Error := Error t |}]> (transfers m);
         order := order m |}
  | None => m
  end.

Definition UpdateProgress (m : Manager) (id : string) (progress : float64)
    (bytesCopied bytesTotal : Z) : Manager :=
  match transfers m !! id with
  | Some t =>
      {| transfers :=
           <[id := {| ID := ID t; Source := Source t; Destination := Destination t;
                      Status_ := Status_ t; Progress := progress;
                      BytesTotal := bytesTotal; BytesCopied := bytesCopied;
                      StartTime := StartTime t; EndTime := EndTime t;
                      Error := Error t |}]> (transfers m);
         order := order m |}
  | None => m
  end.

Definition Complete (m : Manager) (id : string) (now : Z) : Manager :=
  match transfers m !! id with
  | Some t =>
      {| transfers :=
           <[id := {| ID := ID t; Source := Source t; Destination := Destination t;
                      Status_ := StatusCompleted; Progress := of_int 100;
                      BytesTotal := BytesTotal t; BytesCopied := BytesCopied t;
                      StartTime := StartTime t; EndTime := Some now;
                      Error := Error t |}]> (transfers m);
         order := order m |}
  | None => m
  end.

Definition Fail (m : Manager) (id : string) (now : Z) (err : option error) : Manager :=
  match transfers m !! id with
  | Some t =>
      {| transfers :=
           <[id := {| ID := ID t; Source := Source t; Destination := Destination t;
                      Status_ := StatusFailed; Progress := Progress t;
                      BytesTotal := BytesTotal t; BytesCopied := BytesCopied t;
                      StartTime := StartTime t; EndTime := Some now;
                      Error := err |}]> (transfers m);
         order := order m |}
  | None => m
  end.

(** [Get]: the pair [(t, exists)] as an option. *)
Definition Get (m : Manager) (id : string) : option Transfer :=
  transfers m !! id.

Definition GetAll (m : Manager) : list Transfer :=
  omap (fun id => transfers m !! id) (order m).

Record Counts := {
  pending : nat; inProgress : nat; completed : nat; failed : nat
}.

Definition count_one (t : Transfer) (c : Counts) : Counts :=
  match Status_ t with
  | StatusPending =>
      {| pending := S (pending c); inProgress := inProgress c;
         completed := completed c; failed := failed c |}
  | StatusInProgress =>
      {| pending := pending c; inProgress := S (inProgress c);
         completed := completed c; failed := failed c |}
  | StatusCompleted =>
      {| pending := pending c; inProgress := inProgress c;
         completed := S (completed c); failed := failed c |}
  | StatusFailed =>
      {| pending := pending c; inProgress := inProgress c;
         completed := completed c; failed := S (failed c) |}
  end.

(** [Stats]: one pass over the map, each record counted under its
    status. *)
Definition Stats (m : Manager) : Counts :=
  map_fold (fun _ t c => count_one t c)
           {| pending := 0; inProgress := 0; completed := 0; failed := 0 |}
           (transfers m).

(** The mutating operations as data, to speak about sequences of calls. *)
Inductive op :=
| OpAdd (id source destination : string)
| OpStart (id : string) (now : Z)
| OpUpdateProgress (id : string) (progress : float64) (bytesCopied bytesTotal : Z)
| OpComplete (id : string) (now : Z)
| OpFail (id : string) (now : Z) (err : option error).

Definition apply_op (m : Manager) (o : op) : Manager :=
  match o with
  | OpAdd id s d => fst (Add m id s d)
  | OpStart id now => Start m id now
  | OpUpdateProgress id p c t => UpdateProgress m id p c t
  | OpComplete id now => Complete m id now
  | OpFail id now err => Fail m id now err
  end.

Definition apply_ops (m : Manager) (os : list op) : Manager :=
  fold_left apply_op os m.

Definition terminal (s : Status) : bool :=
  match s with
  | StatusCompleted | StatusFailed => true
  | _ => false
  end.

(** The calls that cannot take the record of [id] out of a terminal
    status: all but [Add] and [Start] on [id] itself. *)
Definition spares (id : string) (o : op) : bool :=
  match o with
  | OpAdd i _ _ | OpStart i _ => negb (String.eqb i id)
  | _ => true
  end.

(** The stores a program can build: [NewManager] and calls on it. *)
Definition reachable (m : Manager) : Prop :=
  exists os, m = apply_ops NewManager os.

Definition total (c : Counts) : nat :=
  (pending c + inProgress c + completed c + failed c)%nat.

Definition Stats_of (ts : gmap string Transfer) : Counts :=
  Stats {| transfers := ts; order := [] |}.

(** Every record sits under its own id, and every id of the order list
    has a record. *)
Definition store_inv (m : Manager) : Prop :=
  (forall k t, transfers m !! k = Some t -> ID t = k) /\
  (forall k, k ∈ order m -> is_Some (transfers m !! k)).

(** Three small stores for the examples. *)
Definition completed_a : Manager :=
  Complete (fst (Add NewManager "a" "src" "dst")) "a" 1.

Definition added_a : Manager :=
  Start (fst (Add NewManager "a" "src" "dst")) "a" 1.

Definition started_t1 : Manager :=
  Start (fst (Add NewManager "t1" "src" "dst")) "t1" 1.

End Store.

(* ===================================================================== *)
(** * bufio.Scanner with the split function of parseRcloneOutput *)
(* ===================================================================== *)

Module Scanner.

Definition CR : ascii := ascii_of_nat 13.
Definition LF : ascii := ascii_of_nat 10.

Definition is_delim (c : ascii) : bool := Ascii.eqb c CR || Ascii.eqb c LF.

Definition len (data : list ascii) : Z := Z.of_nat (length data).

(** [data[i]]; only read below under the bounds the code checks. *)
Definition at_ (data : list ascii) (i : Z) : ascii :=
  nth (Z.to_nat i) data Ascii.zero.

(** [strings.IndexAny(string(data), "\r\n")]: the index of the first
    carriage return or line feed, [-1] when there is none. *)
Fixpoint IndexAny_CRLF (data : list ascii) : Z :=
  match data with
  | [] => -1
  | c :: data' =>
      if is_delim c then 0
      else let i := IndexAny_CRLF data' in
           if i <? 0 then -1 else i + 1
  end.

(** The split function handed to [scanner.Split]: the pair of
    [advance] and [token], where [None] is the nil token.  Its error
    result is always nil. *)
Definition split (data : list ascii) (atEOF : bool) : Z * option (list ascii) :=
  if atEOF && (len data =? 0) then (0, None)
  else
    let i := IndexAny_CRLF data in
    if 0 <=? i then
      let token := firstn (Z.to_nat i) data in
      let advance := i + 1 in
      let advance :=
        if (advance <? len data) && Ascii.eqb (at_ data i) CR
           && Ascii.eqb (at_ data advance) LF
        then advance + 1 else advance in
      (advance, Some token)
    else if atEOF then (len data, Some data)
    else (0, None).

(** [scanner.Buffer(buf, 1024*1024)]. *)
Definition maxTokenSize : Z := 1024 * 1024.

(** The scanner between two calls of [Scan].  [buffered] holds the bytes
    read and not yet consumed ([s.buf[s.start:s.end]]); [reads] is what
    the successive calls of [Read] on the pipe will return, end of file
    after the last one; [atEOF] says that a read has reported the end
    ([s.err != nil]); [stopped] that [Scan] has returned false.  A
    [Read] fills free buffer space only, so in a run of the program
    [buffered] never holds more than [maxTokenSize] bytes.  A read that
    returns no byte and no error is tried again; Go gives up after 100
    such reads in a row, which a pipe does not produce, and the model
    tries again without a bound. *)
Record Scanner := {
  buffered : list ascii;
  reads : list (list ascii);
  atEOF : bool;
  stopped : bool
}.

Definition NewScanner (r : list (list ascii)) : Scanner :=
  {| buffered := []; reads := r; atEOF := false; stopped := false |}.

(** The head of the loop of [Scan]: with bytes buffered, or at the end
    of the input, ask the split function and consume what it advances
    over. *)
Definition offer (data : list ascii) (eof : bool) : option (list ascii) * list ascii :=
  if negb (len data =? 0) || eof then
    let '(advance, token) := split data eof in
    (token, skipn (Z.to_nat advance) data)
  else (None, data).

Definition halted : Scanner :=
  {| buffered := []; reads := []; atEOF := true; stopped := true |}.

(** The loop of [Scan] while no read has failed: offer the buffered
    bytes; without a token give up when the buffer is full at its
    largest size (ErrTooLong), else read once more and loop; when the
    read reports the end of the input, offer once more with [atEOF]. *)
Fixpoint scan_reading (data : list ascii) (r : list (list ascii))
    : option (list ascii) * Scanner :=
  let '(token, data) := offer data false in
  match token with
  | Some t => (Some t, {| buffered := data; reads := r; atEOF := false; stopped := false |})
  | None =>
      if maxTokenSize <=? len data then (None, halted)
      else match r with
           | chunk :: r' => scan_reading (data ++ chunk)%list r'
           | [] =>
               let '(token, data) := offer data true in
               match token with
               | Some t => (Some t, {| buffered := data; reads := []; atEOF := true; stopped := false |})
               | None => (None, halted)
               end
           end
  end.

(** [scanner.Scan()]: the token, or [None] for false. *)
Definition Scan (s : Scanner) : option (list ascii) * Scanner :=
  if stopped s then (None, s)
  else if atEOF s then
    let '(token, data) := offer (buffered s) true in
    match token with
    | Some t => (Some t, {| buffered := data; reads := reads s; atEOF := true; stopped := false |})
    | None => (None, halted)
    end
  else scan_reading (buffered s) (reads s).

(** Bytes still to be scanned: every token consumes at least one. *)
Definition remaining (s : Scanner) : nat :=
  length (buffered s) + length (concat (reads s)).

(** The tokens of [for scanner.Scan() { ... scanner.Bytes() ... }], with
    [fuel] bounding the number of calls of [Scan]. *)
Fixpoint scan_all (fuel : nat) (s : Scanner) : option (list (list ascii)) :=
  match fuel with
  | O => None
  | S fuel' =>
      match Scan s with
      | (None, _) => Some []
      | (Some t, s') =>
          match scan_all fuel' s' with
          | Some ts => Some (t :: ts)
          | None => None
          end
      end
  end.

Definition tokens (r : list (list ascii)) : option (list (list ascii)) :=
  scan_all (S (remaining (NewScanner r))) (NewScanner r).

(** ** The tokenization contract

    The logical lines of a byte stream, in the words of the contract: a
    carriage return, a line feed, or a carriage return with the line feed
    that follows it ends a line; bytes left after the last terminator
    form a last line.  [cur] holds the bytes of the line being read. *)
Fixpoint logical_lines_from (cur data : list ascii) : list (list ascii) :=
  match data with
  | [] => match cur with [] => [] | _ => [cur] end
  | c :: rest =>
      if Ascii.eqb c CR then
        match rest with
        | c' :: rest' =>
            if Ascii.eqb c' LF then cur :: logical_lines_from [] rest'
            else cur :: logical_lines_from [] rest
        | [] => [cur]
        end
      else if Ascii.eqb c LF then cur :: logical_lines_from [] rest
      else logical_lines_from (cur ++ [c])%list rest
  end.

Definition logical_lines (data : list ascii) : list (list ascii) :=
  logical_lines_from [] data.

(** What follows the terminator [d]: the line feed of a pair goes with
    its carriage return. *)
Definition drop_pair (d : ascii) (rest : list ascii) : list ascii :=
  match rest with
  | c :: rest' => if Ascii.eqb d CR && Ascii.eqb c LF then rest' else rest
  | [] => []
  end.

Definition no_delim (data : list ascii) : bool :=
  forallb (fun c => negb (is_delim c)) data.

Definition ends_with_CR (data : list ascii) : bool :=
  Ascii.eqb (List.last data Ascii.zero) CR.

Definition starts_with_LF (data : list ascii) : bool :=
  match data with
  | c :: _ => Ascii.eqb c LF
  | [] => false
  end.

(** Some read ends right after a carriage return whose line feed only
    comes with a later read; [data] is what was read before [r]. *)
Fixpoint pair_split (data : list ascii) (r : list (list ascii)) : bool :=
  match r with
  | [] => false
  | chunk :: r' =>
      (ends_with_CR data && starts_with_LF (concat r))
      || pair_split (data ++ chunk)%list r'
  end.

(** Every line fits the buffer of the scanner. *)
Definition short_lines (data : list ascii) : bool :=
  forallb (fun l => len l <? maxTokenSize) (logical_lines data).

(** The bytes a scanner has still to deliver. *)
Definition stream (s : Scanner) : list ascii :=
  (buffered s ++ concat (reads s))%list.

(** A scanner that has not stopped and whose later reads split no pair. *)
Definition ready (s : Scanner) : Prop :=
  stopped s = false /\
  (atEOF s = true -> reads s = []) /\
  pair_split (buffered s) (reads s) = false.

End Scanner.

(* ===================================================================== *)
(** * The regular expression of parseRcloneOutput *)
(* ===================================================================== *)

Module Regexp.
Import Strings.

Inductive quant := One | Opt | Star | Plus.

(** The fragment of RE2 syntax that [statsRegex] uses: a sequence of
    byte classes, each taken once or under a greedy [?], [*] or [+], and
    the parentheses of numbered capture groups. *)
Inductive node :=
| Class (p : ascii -> bool) (q : quant)
| Open (n : nat)
| Close (n : nat).

Definition regexp := list node.

(** Start and end offset of each group; group 0 is the whole match. *)
Definition captures := list (nat * nat).

Definition set_start (n pos : nat) (c : captures) : captures :=
  <[n := (pos, pos)]> c.
Definition set_end (n pos : nat) (c : captures) : captures :=
  <[n := (fst (nth n c (0, 0)%nat), pos)]> c.

(** Greedy repetition: as many bytes of the class as possible, then one
    fewer, and so on, until the rest of the expression matches. *)
Fixpoint star (p : ascii -> bool) (k : string -> nat -> option captures)
    (s : string) (pos : nat) : option captures :=
  match s with
  | String c s' =>
      if p c then
        match star p k s' (S pos) with
        | Some r => Some r
        | None => k s pos
        end
      else k s pos
  | EmptyString => k s pos
  end.

(** A backtracking match of [re] at the head of [s], which is the text
    from offset [pos] on: the first match in the order of preference of
    the operators, as Go's leftmost-first semantics has it. *)
Fixpoint run (re : regexp) (s : string) (pos : nat) (c : captures) : option captures :=
  match re with
  | [] => Some (set_end 0 pos c)
  | Open n :: re' => run re' s pos (set_start n pos c)
  | Close n :: re' => run re' s pos (set_end n pos c)
  | Class p One :: re' =>
      match s with
      | String a s' => if p a then run re' s' (S pos) c else None
      | EmptyString => None
      end
  | Class p Opt :: re' =>
      match s with
      | String a s' =>
          if p a then
            match run re' s' (S pos) c with
            | Some r => Some r
            | None => run re' s pos c
            end
          else run re' s pos c
      | EmptyString => run re' s pos c
      end
  | Class p Star :: re' => star p (fun s' pos' => run re' s' pos' c) s pos
  | Class p Plus :: re' =>
      match s with
      | String a s' =>
          if p a then star p (fun s' pos' => run re' s' pos' c) s' (S pos) else None
      | EmptyString => None
      end
  end.

Definition ngroups (re : regexp) : nat :=
  length (List.filter (fun n => match n with Open _ => true | _ => false end) re).

(** The leftmost match: try every start offset in turn. *)
Fixpoint find_from (re : regexp) (s : string) (pos : nat) : option captures :=
  match run re s pos (set_start 0 pos (repeat (0, 0)%nat (S (ngroups re)))) with
  | Some r => Some r
  | None =>
      match s with
      | String _ s' => find_from re s' (S pos)
      | EmptyString => None
      end
  end.

(** [re.FindStringSubmatch(s)]: the text of the match and of each
    group, the nil slice when there is no match. *)
Definition FindStringSubmatch (re : regexp) (s : string) : list string :=
  match find_from re s 0 with
  | Some c => map (fun '(b, e) => substring b (e - b) s) c
  | None => []
  end.

Definition lit (a : ascii) : node := Class (Ascii.eqb a) One.

Fixpoint literal (s : string) : regexp :=
  match s with
  | EmptyString => []
  | String a s' => lit a :: literal s'
  end.

Definition one_of (set : string) (c : ascii) : bool :=
  existsb (Ascii.eqb c) (list_ascii_of_string set).

(** [\s] of RE2: tab, line feed, form feed, carriage return, space. *)
Definition perl_space (c : ascii) : bool :=
  let n := nat_of_ascii c in
  ((n =? 9) || (n =? 10) || (n =? 12) || (n =? 13) || (n =? 32))%nat.

Definition digit_or_dot (c : ascii) : bool := is_digit c || Ascii.eqb c ".".

Definition size_group (n : nat) : regexp :=
  [Open n; Class digit_or_dot Plus; Close n].
Definition unit_group (n : nat) : regexp :=
  [Open n; Class (one_of "kKMGTP") One; Class (Ascii.eqb "i") Opt;
   Class (one_of "Bb") Opt; Close n].

(** [Transferred:\s+([0-9.]+)\s*([kKMGTP]i?[Bb]?)\s*/\s*([0-9.]+)\s*([kKMGTP]i?[Bb]?),\s*([0-9]+)%] *)
Definition statsRegex : regexp :=
  (literal "Transferred:" ++ [Class perl_space Plus]
   ++ size_group 1 ++ [Class perl_space Star]
   ++ unit_group 2 ++ [Class perl_space Star; lit "/"; Class perl_space Star]
   ++ size_group 3 ++ [Class perl_space Star]
   ++ unit_group 4 ++ [lit ","; Class perl_space Star]
   ++ [Open 5; Class is_digit Plus; Close 5; lit "%"])%list.

End Regexp.

(* ===================================================================== *)
(** * parseRcloneOutput *)
(* ===================================================================== *)

Module Decoder.
Import Float64 Strings Strconv Size Store Scanner Regexp.

(** The body of the loop over the scanned lines. *)
Definition handle_line (line transferID : string) (mgr : Manager) : Manager :=
  if String.eqb line EmptyString then mgr
  else
    let matches := FindStringSubmatch statsRegex line in
    if (6 <=? length matches)%nat then
      match ParseFloat (nth 5 matches EmptyString) with
      | Some percentage =>
          let copied := parseSize (nth 1 matches EmptyString) (nth 2 matches EmptyString) in
          let total := parseSize (nth 3 matches EmptyString) (nth 4 matches EmptyString) in
          UpdateProgress mgr transferID percentage copied total
      | None => mgr
      end
    else mgr.

(** [for scanner.Scan() { line := scanner.Text(); ... }]; [None] only
    when [fuel] calls of [Scan] did not reach the end of the input. *)
Fixpoint scan_loop (fuel : nat) (s : Scanner) (transferID : string) (mgr : Manager)
    : option Manager :=
  match fuel with
  | O => None
  | S fuel' =>
      match Scan s with
      | (None, _) => Some mgr
      | (Some token, s') =>
          scan_loop fuel' s' transferID
                    (handle_line (string_of_list_ascii token) transferID mgr)
      end
  end.

(** [parseRcloneOutput(reader, transferID, mgr)], the reader given by
    what its reads return; the result is the store after the call. *)
Definition parseRcloneOutput (reader : list (list ascii)) (transferID : string)
    (mgr : Manager) : option Manager :=
  scan_loop (S (remaining (NewScanner reader))) (NewScanner reader) transferID mgr.

(** The line of the end-to-end scenario, and the bytes that carry it:
    the line with a carriage return behind it. *)
Definition progress_text : string :=
  "Transferred:   512.0 MiB / 1.0 GiB, 50%, 10.0 MiB/s, ETA 30s".

Definition progress_line : list ascii :=
  (list_ascii_of_string progress_text ++ [CR])%list.

End Decoder.

(* ===================================================================== *)
(** * The argument vector of Executor.Execute (rclone.go) *)
(* ===================================================================== *)

Module Driver.

(** [RcloneCommand] is a string type; these are its constants. *)
Definition RcloneCommand : Type := string.
Definition RcloneCopy : RcloneCommand := "copy".
Definition RcloneCopyTo : RcloneCommand := "copyto".
Definition RcloneMove : RcloneCommand := "move".
Definition RcloneMoveTo : RcloneCommand := "moveto".
Definition RcloneSync : RcloneCommand := "sync".

(** [RcloneOptions] without its [Context], which the argument vector does
    not depend on. *)
Record RcloneOptions := {
  Command : RcloneCommand;
  Source : string;
  Destination : string;
  Flags : list string;
  StatsInterval : string;
  DryRun : bool
}.

(** The slice [args] that [Execute] hands to [exec.CommandContext], built
    by the same appends. *)
Definition Execute_args (opts : RcloneOptions) : list string :=
  let args := [Command opts; "-v"] in
  let statsInterval := StatsInterval opts in
  let statsInterval := if String.eqb statsInterval EmptyString then "500ms" else statsInterval in
  let args := (args ++ ["--stats"; statsInterval])%list in
  let args := if DryRun opts then (args ++ ["--dry-run"])%list else args in
  let args := (args ++ Flags opts)%list in
  let args := (args ++ [Source opts; Destination opts])%list in
  args.

End Driver.

(* ===================================================================== *)
(** * ExecuteWithRetry (retry.go) *)
(* ===================================================================== *)

Module Retry.
Import Float64 Errors.

(** A [time.Duration]: nanoseconds. *)
Definition Duration : Type := Z.
Definition Second : Duration := 1000000000.

Record RetryConfig := {
  MaxAttempts : Z;
  InitialDelay : Duration;
  MaxDelay : Duration;
  Multiplier : float64
}.

Definition DefaultRetryConfig : RetryConfig :=
  {| MaxAttempts := 3;
     InitialDelay := 2 * Second;
     MaxDelay := 30 * Second;
     Multiplier := of_int 2 |}.

(** The four guards at the head of [ExecuteWithRetry]. *)
Definition validate (retryCfg : RetryConfig) : RetryConfig :=
  let retryCfg :=
    if MaxAttempts retryCfg <=? 0
    then {| MaxAttempts := 1; InitialDelay := InitialDelay retryCfg;
            MaxDelay := MaxDelay retryCfg; Multiplier := Multiplier retryCfg |}
    else retryCfg in
  let retryCfg :=
    if InitialDelay retryCfg <=? 0
    then {| MaxAttempts := MaxAttempts retryCfg; InitialDelay := 2 * Second;
            MaxDelay := MaxDelay retryCfg; Multiplier := Multiplier retryCfg |}
    else retryCfg in
  let retryCfg :=
    if MaxDelay retryCfg <=? 0
    then {| MaxAttempts := MaxAttempts retryCfg; InitialDelay := InitialDelay retryCfg;
            MaxDelay := 30 * Second; Multiplier := Multiplier retryCfg |}
    else retryCfg in
  let retryCfg :=
    if leb (Multiplier retryCfg) (S754_zero false)
    then {| MaxAttempts := MaxAttempts retryCfg; InitialDelay := InitialDelay retryCfg;
            MaxDelay := MaxDelay retryCfg; Multiplier := of_int 2 |}
    else retryCfg in
  retryCfg.

(** [fmt.Errorf(format + ": %w", n, err)] for the two formats of the
    file: the text is the formatted message, the wrapped error [err]. *)
Definition Errorf_attempts (what : string) (n : Z) (err : error) : error :=
  Wrap (what ++ " " ++ itoa n ++ " attempts: " ++ err_Error err) err.

(** [fmt.Errorf] with the same formats and a nil [%w] operand. *)
Definition Errorf_attempts_nil (what : string) (n : Z) : error :=
  Plain (what ++ " " ++ itoa n ++ " attempts: %!w(<nil>)").

Definition Errorf_opt (what : string) (n : Z) (lastErr : option error) : error :=
  match lastErr with
  | Some e => Errorf_attempts what n e
  | None => Errorf_attempts_nil what n
  end.

Definition next_delay (delay : Duration) (retryCfg : RetryConfig) : Duration :=
  to_int64 (min (mul (of_int delay) (Multiplier retryCfg))
                (of_int (MaxDelay retryCfg))).

Section World.

(** What the function runs against: the state [W] of the store, the
    subprocess and the clock; one call of [e.Execute(transferID, opts)];
    whether [ctx.Done()] is closed; [ctx.Err()]; and the [select] between
    [ctx.Done()] and [time.After(delay)], true when the cancellation wins. *)
Context {W : Type}.
Variable Execute : W -> option error * W.
Variable ctx_done : W -> bool.
Variable ctx_err : W -> option error.
Variable wait : Duration -> W -> bool * W.

(** The [for] loop: [left] iterations remain, [attempt] is the counter;
    with no iteration left the function leaves the loop by its condition
    and returns the last statement's error. *)
Fixpoint attempts (left : nat) (attempt : Z) (retryCfg : RetryConfig)
    (delay : Duration) (lastErr : option error) (w : W) : option error * W :=
  match left with
  | O => (Some (Errorf_opt "failed after" (MaxAttempts retryCfg) lastErr), w)
  | S left' =>
      if ctx_done w then
        match lastErr with
        | Some e => (Some (Errorf_attempts "context cancelled after" (attempt - 1) e), w)
        | None => (ctx_err w, w)
        end
      else
        let '(err, w) := Execute w in
        match err with
        | None => (None, w)
        | Some e =>
            let lastErr := Some e in
            if attempt =? MaxAttempts retryCfg then
              (Some (Errorf_opt "failed after" (MaxAttempts retryCfg) lastErr), w)
            else
              let '(cancelled, w) := wait delay w in
              if cancelled then
                (Some (Errorf_attempts "context cancelled after" attempt e), w)
              else
                attempts left' (attempt + 1) retryCfg
                         (next_delay delay retryCfg) lastErr w
        end
  end.

Definition ExecuteWithRetry (retryCfg : RetryConfig) (w : W) : option error * W :=
  let retryCfg := validate retryCfg in
  let lastErr : option error := None in
  let delay := InitialDelay retryCfg in
  attempts (Z.to_nat (MaxAttempts retryCfg)) 1 retryCfg delay lastErr w.

End World.

End Retry.

(* ===================================================================== *)
(** * ClassifyError (errors.go) *)
(* ===================================================================== *)

Module Classify.
Import Strings Errors.

Record ClassifiedError := {
  Type_ : ErrorType;
  Err : error;
  Retryable : bool;
  Temporary : bool
}.

Definition ClassifyError (err : option error) : option ClassifiedError :=
  match err with
  | None => None
  | Some err =>
      let errStr := ToLower (err_Error err) in
      if As_ValidationError err then
        Some {| Type_ := ErrorTypeInvalidInput; Err := err;
                Retryable := false; Temporary := false |}
      else if Contains errStr "network" ||
              Contains errStr "connection" ||
              Contains errStr "dial" ||
              Contains errStr "no route to host" ||
              Contains errStr "host is down" then
        Some {| Type_ := ErrorTypeNetwork; Err := err;
                Retryable := true; Temporary := true |}
      else if Contains errStr "timeout" ||
              Contains errStr "deadline exceeded" ||
              Contains errStr "i/o timeout" then
        Some {| Type_ := ErrorTypeTimeout; Err := err;
                Retryable := true; Temporary := true |}
      else if Contains errStr "auth" ||
              Contains errStr "unauthorized" ||
              Contains errStr "forbidden" ||
              Contains errStr "permission denied" ||
              Contains errStr "access denied" then
        Some {| Type_ := ErrorTypeAuth; Err := err;
                Retryable := false; Temporary := false |}
      else if Contains errStr "not found" ||
              Contains errStr "no such file" ||
              Contains errStr "does not exist" ||
              Contains errStr "404" then
        Some {| Type_ := ErrorTypeNotFound; Err := err;
                Retryable := false; Temporary := false |}
      else if Contains errStr "no space left" ||
              Contains errStr "insufficient space" ||
              Contains errStr "disk full" ||
              Contains errStr "quota exceeded" then
        Some {| Type_ := ErrorTypeInsufficientSpace; Err := err;
                Retryable := false; Temporary := false |}
      else if Contains errStr "filesystem" ||
              Contains errStr "i/o error" ||
              Contains errStr "read-only" then
        Some {| Type_ := ErrorTypeFileSystem; Err := err;
                Retryable := false; Temporary := false |}
      else
        Some {| Type_ := ErrorTypeUnknown; Err := err;
                Retryable := true; Temporary := false |}
  end.

(** The keyword sets of the rules, in the order the rules are tried. *)
Definition network_keywords : list string :=
  ["network"; "connection"; "dial"; "no route to host"; "host is down"].
Definition timeout_keywords : list string :=
  ["timeout"; "deadline exceeded"; "i/o timeout"].
Definition auth_keywords : list string :=
  ["auth"; "unauthorized"; "forbidden"; "permission denied"; "access denied"].
Definition notfound_keywords : list string :=
  ["not found"; "no such file"; "does not exist"; "404"].
Definition space_keywords : list string :=
  ["no space left"; "insufficient space"; "disk full"; "quota exceeded"].
Definition filesystem_keywords : list string :=
  ["filesystem"; "i/o error"; "read-only"].


End Classify.

(* ===================================================================== *)
(** * What a line carries, and what the decoder may change *)
(* ===================================================================== *)

Module Lines.
Import Float64 Strings Strconv Size Store Scanner Regexp Decoder.

(** The tokens that [parseRcloneOutput] looks at: it skips the empty
    ones. *)
Definition nonempty (t : list ascii) : bool :=
  match t with [] => false | _ => true end.

Definition keep_nonempty (ts : list (list ascii)) : list (list ascii) :=
  List.filter nonempty ts.

(** The progress tuple that the loop body reads from a line, if any:
    percentage, bytes copied, bytes in total. *)
Definition progress_of (line : string) : option (float64 * Z * Z) :=
  if String.eqb line EmptyString then None
  else
    let matches := FindStringSubmatch statsRegex line in
    if (6 <=? length matches)%nat then
      match ParseFloat (nth 5 matches EmptyString) with
      | Some percentage =>
          Some (percentage,
                parseSize (nth 1 matches EmptyString) (nth 2 matches EmptyString),
                parseSize (nth 3 matches EmptyString) (nth 4 matches EmptyString))
      | None => None
      end
    else None.

(** The loop of [parseRcloneOutput] over tokens already cut. *)
Definition handle_tokens (ts : list (list ascii)) (transferID : string)
    (mgr : Manager) : Manager :=
  fold_left (fun m t => handle_line (string_of_list_ascii t) transferID m) ts mgr.

(** Two records that differ in their progress fields at most. *)
Definition same_but_progress (t t' : Transfer) : Prop :=
  ID t' = ID t /\ Source t' = Source t /\ Destination t' = Destination t /\
  Status_ t' = Status_ t /\ StartTime t' = StartTime t /\
  EndTime t' = EndTime t /\ Error t' = Error t.

(** Two stores that differ in the progress fields of the record of [id]
    at most. *)
Definition progress_only (id : string) (m m' : Manager) : Prop :=
  order m' = order m /\
  (forall id', id' <> id -> Get m' id' = Get m id') /\
  match Get m id with
  | None => Get m' id = None
  | Some t => exists t', Get m' id = Some t' /\ same_but_progress t t'
  end.

End Lines.

(* ===================================================================== *)
(** * Duration and FormattedBytes (manager.go) *)
(* ===================================================================== *)

Module Timing.
Import Store.

(** The range of a [time.Duration], an int64 of nanoseconds. *)
Definition minDuration : Z := - 2 ^ 63.
Definition maxDuration : Z := 2 ^ 63 - 1.

(** [t.Sub(u)] for two instants: their difference, or the largest or
    smallest duration when the difference does not fit. *)
Definition Sub (t u : Z) : Z :=
  let d := t - u in
  if d <? minDuration then minDuration
  else if maxDuration <? d then maxDuration
  else d.

(** [t.Duration()], with the reading of the clock that [time.Since]
    takes. *)
Definition Duration (t : Transfer) (now : Z) : Z :=
  match StartTime t with
  | None => 0
  | Some start =>
      match EndTime t with
      | None => Sub now start
      | Some end_ => Sub end_ start
      end
  end.

(** The id that a call of the store works on. *)
Definition target (o : op) : string :=
  match o with
  | OpAdd id _ _ | OpStart id _ | OpUpdateProgress id _ _ _
  | OpComplete id _ | OpFail id _ _ => id
  end.

Definition is_Add (o : op) : bool :=
  match o with OpAdd _ _ _ => true | _ => false end.

End Timing.

Module Format.
Import Float64 Errors.

(** An int64 product, wrapped as the machine does. *)
Definition wrap64 (z : Z) : Z := (z + 2 ^ 63) mod 2 ^ 64 - 2 ^ 63.

Definition unit : Z := 1024.

(** The loop [for n := bytes / unit; n >= unit; n /= unit] with the
    [div] and [exp] it leaves; [None] when [fuel] rounds are not
    enough. *)
Fixpoint scale (fuel : nat) (n div exp : Z) : option (Z * Z) :=
  if unit <=? n then
    match fuel with
    | O => None
    | S fuel' => scale fuel' (Z.quot n unit) (wrap64 (div * unit)) (exp + 1)
    end
  else Some (div, exp).

(** ["KMGTPE"[exp]]; [None] is the index out of range. *)
Definition unit_letter (exp : Z) : option ascii :=
  if (0 <=? exp) && (exp <? 6)
  then Some (nth (Z.to_nat exp) (list_ascii_of_string "KMGTPE") Ascii.zero)
  else None.

Definition fdiv (x y : float64) : float64 := SFdiv prec emax x y.

Section Sprintf.

(** [fmt.Sprintf("%.1f", x)], the one formatting of the function that is
    left to the library. *)
Variable Sprintf_1f : float64 -> string.

(** [FormattedBytes(bytes)]; [None] would be a panic, or a loop that
    needs more than the 64 rounds given here. *)
Definition FormattedBytes (bytes : Z) : option string :=
  if bytes <? unit then Some (itoa bytes ++ " B")
  else
    match scale 64 (Z.quot bytes unit) unit 0 with
    | None => None
    | Some (div, exp) =>
        match unit_letter exp with
        | None => None
        | Some c =>
            Some (Sprintf_1f (fdiv (of_int bytes) (of_int div))
                  ++ " " ++ String c "B")
        end
    end.

End Sprintf.

End Format.

(* ===================================================================== *)
(** * The queries on errors (errors.go) *)
(* ===================================================================== *)

Module Queries.
Import Strings Errors Classify.

(** [errors.As(err, &classified)] with [classified] a
    [*ClassifiedError]: the first one on the unwrap chain. *)
Fixpoint As_ClassifiedError (e : error) : option ClassifiedError :=
  match e with
  | Classified t inner r tm =>
      Some {| Type_ := t; Err := inner; Retryable := r; Temporary := tm |}
  | Wrap _ inner => As_ClassifiedError inner
  | Plain _ => None
  | Validation _ _ => None
  end.

(** The three queries.  Each reads a field through the pointer that
    ClassifyError returns; [None] is the dereference of a nil pointer. *)
Definition IsRetryable (err : option error) : option bool :=
  match err with
  | None => Some false
  | Some e =>
      match As_ClassifiedError e with
      | Some classified => Some (Retryable classified)
      | None => option_map Retryable (ClassifyError (Some e))
      end
  end.

Definition IsTemporary (err : option error) : option bool :=
  match err with
  | None => Some false
  | Some e =>
      match As_ClassifiedError e with
      | Some classified => Some (Temporary classified)
      | None => option_map Temporary (ClassifyError (Some e))
      end
  end.

Definition GetErrorType (err : option error) : option ErrorType :=
  match err with
  | None => Some ErrorTypeUnknown
  | Some e =>
      match As_ClassifiedError e with
      | Some classified => Some (Type_ classified)
      | None => option_map Type_ (ClassifyError (Some e))
      end
  end.

(** A [*ClassifiedError] as an [error] value. *)
Definition to_error (c : ClassifiedError) : error :=
  Classified (Type_ c) (Err c) (Retryable c) (Temporary c).



(** The text that the Error method of a classified error puts before
    the text of the error it holds. *)
Definition tag (t : ErrorType) : string := "[" ++ ErrorType_string t ++ "] ".

Definition all_keywords : list string :=
  network_keywords ++ timeout_keywords ++ auth_keywords ++
  notfound_keywords ++ space_keywords ++ filesystem_keywords.

Definition all_types : list ErrorType :=
  [ErrorTypeNetwork; ErrorTypeTimeout; ErrorTypeAuth; ErrorTypeNotFound;
   ErrorTypeFileSystem; ErrorTypeInvalidInput; ErrorTypeInsufficientSpace;
   ErrorTypeUnknown].

(** No end of [p] is a start of [k] that [k] goes beyond: an occurrence
    of [k] in [p ++ s] lies in [p] or in [s]. *)
Fixpoint no_cross (p k : string) : bool :=
  match p with
  | EmptyString => true
  | String _ p' =>
      negb (String.prefix p k && (String.length p <? String.length k)%nat)
      && no_cross p' k
  end.

(** What the callers of the classifier read from its result. *)
Definition summary (c : option ClassifiedError) : option (ErrorType * bool * bool) :=
  option_map (fun c => (Type_ c, Retryable c, Temporary c)) c.

End Queries.

(* ===================================================================== *)
(** * The delays of the retry loop (retry.go) *)
(* ===================================================================== *)

Module Backoff.
Import Float64 Errors Retry.

(** The delays of [n] waits in a row, the first of them [delay]: each
    wait that ends by its timer replaces [delay] by [next_delay]. *)
Fixpoint schedule (retryCfg : RetryConfig) (n : nat) (delay : Duration)
    : list Duration :=
  match n with
  | O => []
  | S n' => delay :: schedule retryCfg n' (next_delay delay retryCfg)
  end.

End Backoff.

(* ===================================================================== *)
(** * Flags and the options builder (options.go) *)
(* ===================================================================== *)

From Stdlib Require DecimalPos DecimalZ.

Module Options.
Import Strings Errors Driver.

(** [rune(x)]: an [int] cut to 32 bits, signed. *)
Definition wrap32 (z : Z) : Z := (z + 2 ^ 31) mod 2 ^ 32 - 2 ^ 31.

(** [byte(x)]. *)
Definition byte (z : Z) : ascii := ascii_of_nat (Z.to_nat (z mod 256)).

(** [string(r)] for a rune [r]: its UTF-8 encoding, and that of U+FFFD
    for what is no code point. *)
Definition string_of_rune (r : Z) : string :=
  if (r <? 0) || (1114111 <? r) || ((55296 <=? r) && (r <=? 57343)) then
    String (byte 239) (String (byte 191) (String (byte 189) EmptyString))
  else if r <? 128 then
    String (byte r) EmptyString
  else if r <? 2048 then
    String (byte (Z.lor 192 (Z.shiftr r 6)))
      (String (byte (Z.lor 128 (Z.land r 63))) EmptyString)
  else if r <? 65536 then
    String (byte (Z.lor 224 (Z.shiftr r 12)))
      (String (byte (Z.lor 128 (Z.land (Z.shiftr r 6) 63)))
         (String (byte (Z.lor 128 (Z.land r 63))) EmptyString))
  else
    String (byte (Z.lor 240 (Z.shiftr r 18)))
      (String (byte (Z.lor 128 (Z.land (Z.shiftr r 12) 63)))
         (String (byte (Z.lor 128 (Z.land (Z.shiftr r 6) 63)))
            (String (byte (Z.lor 128 (Z.land r 63))) EmptyString))).

(** The loop [for i > 0] of [formatInt]; [None] when [fuel] rounds are
    not enough. *)
Fixpoint formatInt_loop (fuel : nat) (i : Z) (result : list ascii)
    : option (list ascii) :=
  if 0 <? i then
    match fuel with
    | O => None
    | S fuel' =>
        formatInt_loop fuel' (Z.quot i 10) (byte (Z.rem i 10 + 48) :: result)
    end
  else Some result.

Definition formatInt (i : Z) : option string :=
  if i <? 10 then Some (string_of_rune (wrap32 (i + 48)))
  else option_map string_of_list_ascii (formatInt_loop 64 i []).

Record CommonFlags := {
  Transfers : Z;
  Checkers : Z;
  Bandwidth : Z;
  IgnoreChecksum : bool;
  NoTraverse : bool;
  Progress : bool;
  Verbose : bool;
  Exclude : list string;
  Include : list string;
  MinAge : string;
  MaxAge : string
}.

Definition nonempty (s : string) : bool := negb (String.eqb s EmptyString).

(** [f.ToFlags()], by the same appends in the same order. *)
Definition ToFlags (f : CommonFlags) : option (list string) :=
  let flags : list string := [] in
  match (if 0 <? Transfers f
         then option_map (fun n => flags ++ ["--transfers"; n])%list
                         (formatInt (Transfers f))
         else Some flags) with
  | None => None
  | Some flags =>
  match (if 0 <? Checkers f
         then option_map (fun n => flags ++ ["--checkers"; n])%list
                         (formatInt (Checkers f))
         else Some flags) with
  | None => None
  | Some flags =>
  match (if 0 <? Bandwidth f
         then option_map (fun n => flags ++ ["--bwlimit"; (n ++ "k")%string])%list
                         (formatInt (Bandwidth f))
         else Some flags) with
  | None => None
  | Some flags =>
      let flags := if IgnoreChecksum f then (flags ++ ["--ignore-checksum"])%list else flags in
      let flags := if NoTraverse f then (flags ++ ["--no-traverse"])%list else flags in
      let flags := if Progress f then (flags ++ ["-P"])%list else flags in
      let flags := if Verbose f then (flags ++ ["-v"])%list else flags in
      let flags :=
        fold_left (fun flags pattern => flags ++ ["--exclude"; pattern])%list
                  (Exclude f) flags in
      let flags :=
        fold_left (fun flags pattern => flags ++ ["--include"; pattern])%list
                  (Include f) flags in
      let flags := if nonempty (MinAge f) then (flags ++ ["--min-age"; MinAge f])%list else flags in
      let flags := if nonempty (MaxAge f) then (flags ++ ["--max-age"; MaxAge f])%list else flags in
      Some flags
  end end end.

(** The builder holds one [RcloneOptions]; each method changes it in
    place and returns the builder, so a chain of calls is a chain of
    changes of the one value. *)
Definition NewTransferOptions (source destination : string) : RcloneOptions :=
  {| Command := RcloneCopy; Source := source; Destination := destination;
     Flags := []; StatsInterval := "500ms"; DryRun := false |}.

Definition WithCommand (t : RcloneOptions) (cmd : RcloneCommand) : RcloneOptions :=
  {| Command := cmd; Source := Source t; Destination := Destination t;
     Flags := Flags t; StatsInterval := StatsInterval t; DryRun := DryRun t |}.

Definition WithFlags (t : RcloneOptions) (flags : list string) : RcloneOptions :=
  {| Command := Command t; Source := Source t; Destination := Destination t;
     Flags := (Flags t ++ flags)%list; StatsInterval := StatsInterval t;
     DryRun := DryRun t |}.

Definition WithCommonFlags (t : RcloneOptions) (common : CommonFlags)
    : option RcloneOptions :=
  option_map (WithFlags t) (ToFlags common).

Definition WithDryRun (t : RcloneOptions) : RcloneOptions :=
  {| Command := Command t; Source := Source t; Destination := Destination t;
     Flags := Flags t; StatsInterval := StatsInterval t; DryRun := true |}.

Definition Build (t : RcloneOptions) : RcloneOptions := t.

(** A call on the builder. *)
Inductive call :=
| CallCommand (cmd : RcloneCommand)
| CallFlags (flags : list string)
| CallCommonFlags (common : CommonFlags)
| CallStatsInterval (interval : Z)
| CallDryRun.

Section DurationString.

(** [interval.String()] of package time. *)
Variable Duration_String : Z -> string.

Definition WithStatsInterval (t : RcloneOptions) (interval : Z) : RcloneOptions :=
  {| Command := Command t; Source := Source t; Destination := Destination t;
     Flags := Flags t; StatsInterval := Duration_String interval;
     DryRun := DryRun t |}.

Definition apply_call (t : option RcloneOptions) (c : call) : option RcloneOptions :=
  match t with
  | None => None
  | Some t =>
      match c with
      | CallCommand cmd => Some (WithCommand t cmd)
      | CallFlags flags => Some (WithFlags t flags)
      | CallCommonFlags common => WithCommonFlags t common
      | CallStatsInterval interval => Some (WithStatsInterval t interval)
      | CallDryRun => Some (WithDryRun t)
      end
  end.

Definition chain (source destination : string) (cs : list call)
    : option RcloneOptions :=
  option_map Build (fold_left apply_call cs (Some (NewTransferOptions source destination))).

(** What a chain of calls leaves: the command and the interval of the
    last call that sets one, whether a dry run was asked for, and the
    flags of the calls in their order. *)
Fixpoint last_command (cs : list call) (cmd : RcloneCommand) : RcloneCommand :=
  match cs with
  | [] => cmd
  | CallCommand cmd' :: cs' => last_command cs' cmd'
  | _ :: cs' => last_command cs' cmd
  end.

Fixpoint last_interval (cs : list call) (s : string) : string :=
  match cs with
  | [] => s
  | CallStatsInterval interval :: cs' => last_interval cs' (Duration_String interval)
  | _ :: cs' => last_interval cs' s
  end.

Definition asks_dry_run (cs : list call) : bool :=
  existsb (fun c => match c with CallDryRun => true | _ => false end) cs.

Definition pairs (name : string) (values : list string) : list string :=
  flat_map (fun v => [name; v]) values.

Definition common_flags (f : CommonFlags) : list string :=
  ((if 0 <? Transfers f then ["--transfers"; itoa (Transfers f)] else []) ++
   (if 0 <? Checkers f then ["--checkers"; itoa (Checkers f)] else []) ++
   (if 0 <? Bandwidth f then ["--bwlimit"; (itoa (Bandwidth f) ++ "k")%string] else []) ++
   (if IgnoreChecksum f then ["--ignore-checksum"] else []) ++
   (if NoTraverse f then ["--no-traverse"] else []) ++
   (if Progress f then ["-P"] else []) ++
   (if Verbose f then ["-v"] else []) ++
   pairs "--exclude" (Exclude f) ++
   pairs "--include" (Include f) ++
   (if nonempty (MinAge f) then ["--min-age"; MinAge f] else []) ++
   (if nonempty (MaxAge f) then ["--max-age"; MaxAge f] else []))%list.

Definition flags_of (c : call) : list string :=
  match c with
  | CallFlags flags => flags
  | CallCommonFlags common => common_flags common
  | _ => []
  end.

(** The fields of a [CommonFlags] are Go [int]s. *)
Definition is_int (z : Z) : bool := (- 2 ^ 63 <=? z) && (z <? 2 ^ 63).

Definition ints_in_range (c : call) : bool :=
  match c with
  | CallCommonFlags f =>
      is_int (Transfers f) && is_int (Checkers f) && is_int (Bandwidth f)
  | _ => true
  end.

End DurationString.

(** The decimal numerals of the library, for comparing [formatInt] with
    [itoa]: the numeral with the digit [k] put before [rest], and the
    digits of [i] from the lowest. *)
Definition digit (k : Z) (rest : Decimal.uint) : Decimal.uint :=
  match k with
  | 0 => Decimal.D0 rest
  | 1 => Decimal.D1 rest
  | 2 => Decimal.D2 rest
  | 3 => Decimal.D3 rest
  | 4 => Decimal.D4 rest
  | 5 => Decimal.D5 rest
  | 6 => Decimal.D6 rest
  | 7 => Decimal.D7 rest
  | 8 => Decimal.D8 rest
  | _ => Decimal.D9 rest
  end.

Fixpoint little (fuel : nat) (i : Z) : Decimal.uint :=
  if 0 <? i then
    match fuel with
    | O => Decimal.Nil
    | S fuel' => digit (i mod 10) (little fuel' (i / 10))
    end
  else Decimal.Nil.

End Options.

(* ===================================================================== *)
(** * Remote paths (utils.go) *)
(* ===================================================================== *)

Module Paths.
Import Strings.

Definition colon : ascii := ":"%char.

(** The text before the first byte [sep] of [s] and the text after it,
    when [s] has one. *)
Fixpoint cut (s : string) (sep : ascii) : option (string * string) :=
  match s with
  | EmptyString => None
  | String c s' =>
      if Ascii.eqb c sep then Some (EmptyString, s')
      else match cut s' sep with
           | Some (before, after) => Some (String c before, after)
           | None => None
           end
  end.

(** [strings.SplitN(s, sep, 2)] for a separator of one byte. *)
Definition SplitN2 (s : string) (sep : ascii) : list string :=
  match cut s sep with
  | Some (before, after) => [before; after]
  | None => [s]
  end.

Definition IsRemotePath (path : string) : bool := Contains path ":".

Definition SplitRemotePath (remotePath : string) : string * string :=
  let parts := SplitN2 remotePath colon in
  match parts with
  | [remote; path] => (remote, path)
  | _ => (EmptyString, remotePath)
  end.

Definition JoinRemotePath (remote path : string) : string :=
  if String.eqb remote EmptyString then path
  else remote ++ ":" ++ path.

End Paths.

(* ===================================================================== *)
(** * Validation and the disk check (validation.go, disk_unix.go) *)
(* ===================================================================== *)

Module Validation.
Import Float64 Strings Errors Format.

(** [&ValidationError{Field: field, Message: message}] as an [error]. *)
Definition ValidationError (field message : string) : error :=
  Validation field message.

Section System.

(** The operating system under the functions: [os.Stat(path)], which
    gives whether the path is a directory, or an error; [os.IsNotExist];
    [filepath.Dir] and [filepath.Abs]; the run of [rclone lsf] on a
    remote under a deadline, with its error and whether the deadline
    passed; [syscall.Statfs], which gives the fields Bavail (a uint64)
    and Bsize (an int64). *)
Variable Stat : string -> bool + error.
Variable IsNotExist : error -> bool.
Variable Dir : string -> string.
Variable Abs : string -> string + error.
Variable run_lsf : string -> Z -> option error * bool.
Variable Statfs : string -> (Z * Z) + error.
Variable Sprintf_1f : float64 -> string.

Definition ValidateSourcePath (path : string) : option error :=
  if String.eqb path EmptyString then
    Some (ValidationError "source" "source path cannot be empty")
  else if Contains path ":" then None
  else
    match Stat path with
    | inr err =>
        if IsNotExist err then
          Some (ValidationError "source" ("path does not exist: " ++ path))
        else
          Some (ValidationError "source" ("cannot access path: " ++ err_Error err))
    | inl _ => None
    end.

Definition ValidateDestinationPath (path : string) : option error :=
  if String.eqb path EmptyString then
    Some (ValidationError "destination" "destination path cannot be empty")
  else if Contains path ":" then None
  else
    let dir := Dir path in
    if negb (String.eqb dir EmptyString) && negb (String.eqb dir ".") then
      match Stat dir with
      | inr err =>
          if IsNotExist err then
            Some (ValidationError "destination"
                    ("parent directory does not exist: " ++ dir))
          else
            Some (ValidationError "destination"
                    ("cannot access parent directory: " ++ err_Error err))
      | inl _ => None
      end
    else None.

Definition ValidateRemote (remoteName : string) (timeout : Z) : option error :=
  if String.eqb remoteName EmptyString then
    Some (ValidationError "remote" "remote name cannot be empty")
  else
    let remoteName := TrimSuffix remoteName ":" in
    let timeout := if timeout =? 0 then 10 * 1000000000 else timeout in
    match run_lsf (remoteName ++ ":") timeout with
    | (Some err, deadline_exceeded) =>
        if deadline_exceeded then
          Some (ValidationError "remote" ("timeout validating remote: " ++ remoteName))
        else
          Some (ValidationError "remote"
                  ("remote not accessible: " ++ remoteName
                   ++ " (" ++ err_Error err ++ ")"))
    | (None, _) => None
    end.

(** [int64(x)] of a uint64. *)
Definition int64_of_uint64 (x : Z) : Z := wrap64 x.

Definition getAvailableDiskSpace (path : string) : Z + error :=
  match Statfs path with
  | inr err => inr (Wrap ("failed to get filesystem stats: " ++ err_Error err) err)
  | inl (Bavail, Bsize) => inl (wrap64 (int64_of_uint64 Bavail * Bsize))
  end.

(** The error of [CheckDiskSpace] for too little space; [None] stands
    for a panic in [FormattedBytes]. *)
Definition insufficient (requiredBytes available : Z) : option error :=
  match FormattedBytes Sprintf_1f requiredBytes,
        FormattedBytes Sprintf_1f available with
  | Some need, Some have =>
      Some (Plain ("insufficient disk space: need " ++ need ++ ", have " ++ have))
  | _, _ => None
  end.

(** [CheckDiskSpace(path, requiredBytes)]: the outer [None] is a panic,
    [Some None] the nil error. *)
Definition CheckDiskSpace (path : string) (requiredBytes : Z)
    : option (option error) :=
  if Contains path ":" then Some None
  else
    match Abs path with
    | inr err => Some (Some (Wrap ("failed to get absolute path: " ++ err_Error err) err))
    | inl absPath =>
        let located :=
          match Stat absPath with
          | inr err =>
              if IsNotExist err then inl (Dir absPath)
              else inr (Wrap ("failed to stat path: " ++ err_Error err) err)
          | inl isDir => if negb isDir then inl (Dir absPath) else inl absPath
          end in
        match located with
        | inr err => Some (Some err)
        | inl absPath =>
            match getAvailableDiskSpace absPath with
            | inr err =>
                Some (Some (Wrap ("failed to get disk space: " ++ err_Error err) err))
            | inl available =>
                if available <? requiredBytes
                then option_map Some (insufficient requiredBytes available)
                else Some None
            end
        end
    end.

End System.

(** Text made of the bytes of a class, text with none of them, and
    text without one byte; the class of the number verbs is digits,
    point and sign. *)
Definition numeric_byte (c : ascii) : bool :=
  is_digit c || Ascii.eqb c "." || Ascii.eqb c "-".

Fixpoint all_bytes (p : ascii -> bool) (s : string) : bool :=
  match s with
  | EmptyString => true
  | String c s' => p c && all_bytes p s'
  end.

Definition made_of (p : ascii -> bool) (s : string) : bool :=
  negb (String.eqb s EmptyString) && all_bytes p s.

Definition free_of (p : ascii -> bool) (k : string) : bool :=
  negb (String.eqb k EmptyString) && all_bytes (fun a => negb (p a)) k.

Definition without (c : ascii) (s : string) : bool :=
  all_bytes (fun a => negb (Ascii.eqb a c)) s.


(** The keywords of the classifier but the one made of digits. *)
Definition word_keywords : list string :=
  List.filter (free_of is_digit) Queries.all_keywords.

End Validation.
(* ===================================================================== *)
(** * Listings of rclone (utils.go) *)
(* ===================================================================== *)

Module Listing.
Import Strings Errors.

Definition LF : ascii := ascii_of_nat 10.

(** [strings.Split(s, "\n")]: the texts between the line feeds; one
    text, the empty one, for the empty [s]. *)
Fixpoint Split (s : string) : list string :=
  match s with
  | EmptyString => [EmptyString]
  | String c s' =>
      if Ascii.eqb c LF then EmptyString :: Split s'
      else match Split s' with
           | line :: lines => String c line :: lines
           | [] => [String c EmptyString]
           end
  end.

Definition nonempty (s : string) : bool := negb (String.eqb s EmptyString).

Section Rclone.

(** The run of rclone with the arguments given: its standard output, or
    the error of [cmd.Output].  [strings.TrimSpace] of the library,
    which knows the white space of Unicode, is left to it. *)
Variable Output : list string -> string + error.
Variable TrimSpace : string -> string.

Definition ListFiles (path : string) (recursive : bool) : list string + error :=
  let args := ["lsf"; path] in
  let args := if negb recursive then (args ++ ["--max-depth"; "1"])%list else args in
  match Output args with
  | inr err => inr (Wrap ("failed to list files: " ++ err_Error err) err)
  | inl output =>
      let lines := Split (TrimSpace output) in
      let files :=
        fold_left (fun files line =>
                     if nonempty line then (files ++ [TrimSpace line])%list else files)
                  lines [] in
      inl files
  end.

Definition ListRemotes : list string + error :=
  match Output ["listremotes"] with
  | inr err => inr (Wrap ("failed to list remotes: " ++ err_Error err) err)
  | inl output =>
      let lines := Split (TrimSpace output) in
      let remotes :=
        fold_left (fun remotes line =>
                     if nonempty line then
                       let remote := TrimSpace line in
                       let remote := TrimSuffix remote ":" in
                       (remotes ++ [remote])%list
                     else remotes)
                  lines [] in
      inl remotes
  end.


(** [CheckDuplicates]; a Go map read at a key it does not hold gives
    [false]. *)
Definition CheckDuplicates (destination : string) (filenames : list string)
    : gmap string bool + error :=
  if (length filenames =? 0)%nat then inl ∅
  else
    match ListFiles destination false with
    | inr err => inr (Wrap ("failed to list destination: " ++ err_Error err) err)
    | inl existingFiles =>
        let existing : gmap string bool :=
          fold_left (fun existing file => <[file := true]> existing)
                    existingFiles ∅ in
        let duplicates : gmap string bool :=
          fold_left (fun duplicates filename =>
                       if default false (existing !! filename)
                       then <[filename := true]> duplicates
                       else duplicates)
                    filenames ∅ in
        inl duplicates
    end.

End Rclone.

End Listing.

(* ===================================================================== *)
(** * The terminal view (ui.go) *)
(* ===================================================================== *)

Module UI.
Import Strings Errors Store Format.

(** The messages that [Update] tells apart; a key message by the name
    that [msg.String()] gives the key. *)
Inductive Msg :=
| KeyMsg (key : string)
| WindowSizeMsg (Width Height : Z)
| tickMsg
| doneMsg
| otherMsg.

(** The commands that [Update] returns: [tea.Quit], the tick of 100 ms,
    the sequence of one tick of two seconds that sends [doneMsg], alone
    or in a batch. *)
Inductive Command :=
| Quit
| tickCmd
| doneAfterTwoSeconds.

Inductive Cmd :=
| One (c : Command)
| Batch (cmds : list Command).

(** The model without its pointer to the manager, which the functions
    below take beside it; of a progress bar only the width is kept. *)
Record Model := {
  progress : gmap string Z;
  width : Z;
  height : Z;
  done : bool
}.

Definition NewModel : Model :=
  {| progress := ∅; width := 80; height := 24; done := false |}.

(** The width given to a bar: [m.width - 20], an [int]. *)
Definition bar_width (m : Model) : Z := wrap64 (width m - 20).

Definition Update (manager : Manager) (m : Model) (msg : Msg)
    : Model * option Cmd :=
  match msg with
  | KeyMsg key =>
      if String.eqb key "q" || String.eqb key "ctrl+c" then (m, Some (One Quit))
      else (m, None)
  | WindowSizeMsg Width Height =>
      let m := {| progress := progress m; width := Width; height := Height;
                  done := done m |} in
      let m := {| progress := (fun _ => bar_width m) <$> progress m;
                  width := width m; height := height m; done := done m |} in
      (m, None)
  | tickMsg =>
      let c := Stats manager in
      if (pending c =? 0)%nat && (inProgress c =? 0)%nat && negb (done m) then
        ({| progress := progress m; width := width m; height := height m;
            done := true |},
         Some (One doneAfterTwoSeconds))
      else
        let cmds : list Command := [] in
        let bars :=
          fold_left
            (fun bars t =>
               match Status_ t with
               | StatusInProgress =>
                   match bars !! ID t with
                   | Some _ => bars
                   | None => <[ID t := bar_width m]> bars
                   end
               | _ => bars
               end)
            (GetAll manager) (progress m) in
        let cmds := (cmds ++ [tickCmd])%list in
        ({| progress := bars; width := width m; height := height m;
            done := done m |},
         Some (Batch cmds))
  | doneMsg => (m, Some (One Quit))
  | otherMsg => (m, None)
  end.

(** A session: the messages in the order they come, each with the store
    as it is when the message is handled. *)
Definition run (steps : list (Manager * Msg)) (m : Model) : Model :=
  fold_left (fun m step => fst (Update (fst step) m (snd step))) steps m.

(** Every bar has the width that the window gives the bars. *)
Definition bars_fit (m : Model) : Prop :=
  forall id w, progress m !! id = Some w -> w = bar_width m.

(** The transfer of id [id] was seen in progress at a tick of the
    session. *)
Definition seen_in_progress (steps : list (Manager * Msg)) (id : string) : Prop :=
  exists manager t,
    In (manager, tickMsg) steps /\ In t (GetAll manager) /\
    ID t = id /\ Status_ t = StatusInProgress.



Section Rendering.

(** The four styles that [View] renders with, each as the function from
    the text to the styled text, and [renderTransfer]. *)
Variable titleStyle statsStyle completedStyle pendingStyle : string -> string.
Variable renderTransfer : Model -> Transfer -> string.






End Rendering.

Section StatusLine.

(** [filepath.Base]. *)
Variable Base : string -> string.





End StatusLine.

End UI.

(* ===================================================================== *)
(** * Properties of the transfer store *)
(* ===================================================================== *)

Section StoreFacts.
Import Float64 Errors Store.

Lemma Get_Add m id s d id' :
  Get (fst (Add m id s d)) id' =
  if decide (id = id') then Some (new_transfer id s d) else Get m id'.
Proof. unfold Get, Add; simpl. apply lookup_insert. Qed.

Lemma Get_Start_ne m id now id' :
  id <> id' -> Get (Start m id now) id' = Get m id'.
Proof.
  intros Hne. unfold Get, Start.
  destruct (transfers m !! id); simpl; [by rewrite lookup_insert_ne|done].
Qed.

Lemma Get_UpdateProgress_ne m id p c t id' :
  id <> id' -> Get (UpdateProgress m id p c t) id' = Get m id'.
Proof.
  intros Hne. unfold Get, UpdateProgress.
  destruct (transfers m !! id); simpl; [by rewrite lookup_insert_ne|done].
Qed.

Lemma Get_Complete_ne m id now id' :
  id <> id' -> Get (Complete m id now) id' = Get m id'.
Proof.
  intros Hne. unfold Get, Complete.
  destruct (transfers m !! id); simpl; [by rewrite lookup_insert_ne|done].
Qed.

Lemma Get_Fail_ne m id now e id' :
  id <> id' -> Get (Fail m id now e) id' = Get m id'.
Proof.
  intros Hne. unfold Get, Fail.
  destruct (transfers m !! id); simpl; [by rewrite lookup_insert_ne|done].
Qed.

(** One sparing call keeps a terminal record terminal. *)
Lemma spares_step m id t o :
  Get m id = Some t -> terminal (Status_ t) = true -> spares id o = true ->
  exists t', Get (apply_op m o) id = Some t' /\ terminal (Status_ t') = true.
Proof.
  intros Hget Hterm Hsp. unfold Get in Hget.
  destruct o as [i s d|i now|i p c tot|i now|i now e];
    cbn [apply_op spares] in *.
  - apply negb_true_iff, String.eqb_neq in Hsp.
    exists t. rewrite Get_Add. by rewrite decide_False.
  - apply negb_true_iff, String.eqb_neq in Hsp.
    exists t. by rewrite Get_Start_ne.
  - destruct (decide (i = id)) as [->|Hne].
    + unfold Get, UpdateProgress. rewrite Hget; simpl.
      rewrite lookup_insert_eq. eexists; split; [done|]. done.
    + exists t. by rewrite Get_UpdateProgress_ne.
  - destruct (decide (i = id)) as [->|Hne].
    + unfold Get, Complete. rewrite Hget; simpl.
      rewrite lookup_insert_eq. eexists; split; [done|]. done.
    + exists t. by rewrite Get_Complete_ne.
  - destruct (decide (i = id)) as [->|Hne].
    + unfold Get, Fail. rewrite Hget; simpl.
      rewrite lookup_insert_eq. eexists; split; [done|]. done.
    + exists t. by rewrite Get_Fail_ne.
Qed.

Lemma spares_run os : forall m id t,
  Get m id = Some t -> terminal (Status_ t) = true ->
  forallb (spares id) os = true ->
  exists t', Get (apply_ops m os) id = Some t' /\ terminal (Status_ t') = true.
Proof.
  induction os as [|o os IH]; intros m id t Hget Hterm Hall; simpl in *.
  - eauto.
  - apply andb_true_iff in Hall as [Ho Hos].
    destruct (spares_step m id t o Hget Hterm Ho) as (t1 & Hget1 & Hterm1).
    exact (IH _ _ _ Hget1 Hterm1 Hos).
Qed.

(** C3, as stated, fails: a completed record is moved to InProgress by
    [Start] and replaced by a Pending record by [Add]. *)
Lemma terminal_left_by_Start_and_Add :
  let m := Complete (fst (Add NewManager "a" "src" "dst")) "a" 1 in
  Status_ <$> Get m "a" = Some StatusCompleted /\
  Status_ <$> Get (apply_op m (OpStart "a" 2)) "a" = Some StatusInProgress /\
  Status_ <$> Get (apply_op m (OpAdd "a" "src" "dst")) "a" = Some StatusPending.
Proof. vm_compute. auto. Qed.

(** C3, amended: once the record of [id] is Completed or Failed, no
    sequence of store calls made of UpdateProgress, Complete and Fail on
    any id, and of Add and Start on other ids, moves its status out of
    {Completed, Failed}; Start on [id] sets it to InProgress and Add on
    [id] replaces the record by a Pending one. *)
Theorem terminal_absorbing_but_Start_Add m id t :
  Get m id = Some t -> terminal (Status_ t) = true ->
  (forall os, forallb (spares id) os = true ->
     exists t', Get (apply_ops m os) id = Some t' /\ terminal (Status_ t') = true) /\
  (forall now, Status_ <$> Get (Start m id now) id = Some StatusInProgress) /\
  (forall s d, Status_ <$> Get (fst (Add m id s d)) id = Some StatusPending).
Proof.
  intros Hget Hterm. split; [|split].
  - intros os Hos. by eapply spares_run.
  - intros now. unfold Get in *. unfold Start. rewrite Hget; simpl.
    by rewrite lookup_insert_eq.
  - intros s d. rewrite Get_Add. by rewrite decide_True.
Qed.

Lemma terminal_absorbing_but_Start_Add_witness :
  exists t,
    Get completed_a "a" = Some t /\ terminal (Status_ t) = true /\
    ((forall os, forallb (spares "a") os = true ->
        exists t', Get (apply_ops completed_a os) "a" = Some t'
                   /\ terminal (Status_ t') = true) /\
     (forall now, Status_ <$> Get (Start completed_a "a" now) "a" = Some StatusInProgress) /\
     (forall s d, Status_ <$> Get (fst (Add completed_a "a" s d)) "a" = Some StatusPending)).
Proof.
  eexists. split; [vm_compute; reflexivity|]. split; [reflexivity|].
  eapply (terminal_absorbing_but_Start_Add completed_a "a");
    [vm_compute; reflexivity|reflexivity].
Defined.

(** C9: UpdateProgress on an unknown id changes nothing; on a known id it
    sets Progress, BytesCopied and BytesTotal of that record, whatever
    its status, and leaves its other fields, the other records and the
    order alone. *)
Theorem UpdateProgress_frame m id p c tot :
  (Get m id = None -> UpdateProgress m id p c tot = m) /\
  (forall t, Get m id = Some t ->
     let m' := UpdateProgress m id p c tot in
     (exists t', Get m' id = Some t' /\
        Progress t' = p /\ BytesCopied t' = c /\ BytesTotal t' = tot /\
        ID t' = ID t /\ Source t' = Source t /\ Destination t' = Destination t /\
        Status_ t' = Status_ t /\ StartTime t' = StartTime t /\
        EndTime t' = EndTime t /\ Error t' = Error t) /\
     (forall id', id' <> id -> Get m' id' = Get m id') /\
     order m' = order m /\ dom (transfers m') = dom (transfers m)).
Proof.
  split.
  - unfold Get, UpdateProgress. by intros ->.
  - intros t Hget m'. subst m'. split; [|split; [|split]].
    + unfold Get in *. unfold UpdateProgress. rewrite Hget; simpl.
      rewrite lookup_insert_eq. eexists; split; [done|]. by repeat split.
    + intros id' Hne. by apply Get_UpdateProgress_ne.
    + unfold UpdateProgress. unfold Get in Hget. by rewrite Hget.
    + unfold UpdateProgress. unfold Get in Hget. rewrite Hget; simpl.
      apply dom_insert_lookup_L. by rewrite Hget.
Qed.

Lemma UpdateProgress_frame_witness :
  UpdateProgress completed_a "b" (of_int 7) 1 2 = completed_a /\
  (exists t', Get (UpdateProgress completed_a "a" (of_int 7) 1 2) "a" = Some t' /\
     Progress t' = of_int 7 /\ BytesCopied t' = 1 /\ BytesTotal t' = 2 /\
     Status_ t' = StatusCompleted).
Proof.
  destruct (UpdateProgress_frame completed_a "b" (of_int 7) 1 2) as [Hnone _].
  destruct (UpdateProgress_frame completed_a "a" (of_int 7) 1 2) as [_ Hsome].
  split.
  - apply Hnone. vm_compute. reflexivity.
  - destruct (Hsome _ ltac:(vm_compute; reflexivity))
      as ((t' & Hg & Hp & Hc & Ht & _ & _ & _ & Hs & _) & _).
    exists t'. repeat split; assumption.
Defined.

(** ** Stores built by the operations *)

(** An operation that rewrites the record found under [i], keeping its
    ID, keeps the invariant. *)
Local Ltac rewrites_record Hid Hord i :=
  match goal with
  | |- store_inv (match ?ts !! i with _ => _ end) =>
      let r := fresh "r" in
      let Hr := fresh "Hr" in
      destruct (ts !! i) as [r|] eqn:Hr; [|by split];
      split; simpl;
      [ intros k t; rewrite lookup_insert; case_decide; [|by auto];
        intros [= <-]; subst; simpl; by eapply Hid
      | intros k Hk; rewrite lookup_insert; case_decide; [by eauto|by auto] ]
  end.

Lemma store_inv_step m o : store_inv m -> store_inv (apply_op m o).
Proof.
  intros [Hid Hord].
  destruct o as [i s d|i now|i p c tot|i now|i now e]; cbn [apply_op].
  - unfold Add; simpl. split; simpl.
    + intros k t. rewrite lookup_insert. case_decide; [|by auto].
      intros [= <-]. by subst.
    + intros k [Hk|Hk%list_elem_of_singleton]%elem_of_app.
      * rewrite lookup_insert. case_decide; [by eauto|by auto].
      * subst. rewrite lookup_insert_eq. by eauto.
  - unfold Start. rewrites_record Hid Hord i.
  - unfold UpdateProgress. rewrites_record Hid Hord i.
  - unfold Complete. rewrites_record Hid Hord i.
  - unfold Fail. rewrites_record Hid Hord i.
Qed.

Lemma reachable_inv m : reachable m -> store_inv m.
Proof.
  intros [os ->]. induction os as [|o os IH] using rev_ind.
  - split; simpl.
    + intros k t. by rewrite lookup_empty.
    + intros k Hk. by apply elem_of_nil in Hk.
  - unfold apply_ops. rewrite fold_left_app. simpl. by apply store_inv_step.
Qed.

Lemma count_one_comm t1 t2 c :
  count_one t1 (count_one t2 c) = count_one t2 (count_one t1 c).
Proof. unfold count_one. by destruct (Status_ t1), (Status_ t2). Qed.

Lemma total_count_one t c : total (count_one t c) = S (total c).
Proof. unfold count_one, total. destruct (Status_ t); simpl; lia. Qed.

Lemma Stats_of_insert ts id t :
  Stats_of (<[id := t]> ts) = count_one t (Stats_of (delete id ts)).
Proof.
  unfold Stats_of, Stats; simpl.
  rewrite <- (insert_delete_eq ts id t).
  rewrite map_fold_insert_L; [done| |by apply lookup_delete_eq].
  intros. apply count_one_comm.
Qed.

Lemma total_Stats_of ts : total (Stats_of ts) = size ts.
Proof.
  induction ts as [|k t ts Hk IH] using map_ind.
  - unfold Stats_of, Stats; simpl. by rewrite map_fold_empty.
  - rewrite Stats_of_insert, total_count_one.
    rewrite delete_id by done. rewrite IH.
    by rewrite map_size_insert_None.
Qed.

(** The records that GetAll returns for [id]: one for each time [id]
    occurs in the order list. *)
Lemma GetAll_records_of (ts : gmap string Transfer) id t (l : list string) :
  ts !! id = Some t ->
  (forall k r, ts !! k = Some r -> ID r = k) ->
  (forall k, k ∈ l -> is_Some (ts !! k)) ->
  List.filter (fun r => String.eqb (ID r) id) (omap (fun k => ts !! k) l)
  = repeat t (count_occ string_dec l id).
Proof.
  intros Ht Hid. induction l as [|k l IH]; intros Hl; [done|].
  destruct (Hl k ltac:(left)) as [r Hr].
  cbn [omap list_omap count_occ]. rewrite Hr. cbn [List.filter].
  rewrite (Hid _ _ Hr).
  specialize (IH (fun k' Hk' => Hl k' ltac:(by right))).
  destruct (string_dec k id) as [->|Hne].
  - rewrite String.eqb_refl. cbn [repeat]. rewrite IH.
    f_equal. congruence.
  - apply String.eqb_neq in Hne. by rewrite Hne.
Qed.

(** C10: Add with an id that is already in the store puts a fresh Pending
    record with zero progress in place of the old one and appends the id
    to the order list once more; for an id added once before, GetAll then
    returns its record twice, and Stats counts it once. *)
Theorem Add_existing_id m id s d old :
  reachable m ->
  Get m id = Some old ->
  count_occ string_dec (order m) id = 1%nat ->
  let m' := fst (Add m id s d) in
  let t := snd (Add m id s d) in
  Get m' id = Some t /\
  t = new_transfer id s d /\
  Status_ t = StatusPending /\ Progress t = S754_zero false /\
  BytesCopied t = 0 /\ BytesTotal t = 0 /\
  order m' = (order m ++ [id])%list /\
  List.filter (fun r => String.eqb (ID r) id) (GetAll m') = [t; t] /\
  Stats m' = count_one t (Stats_of (delete id (transfers m))) /\
  total (Stats m') = size (transfers m).
Proof.
  intros Hreach Hold Hcount m' t. subst m' t.
  pose proof (store_inv_step m (OpAdd id s d) (reachable_inv m Hreach)) as [Hid Hord].
  cbn [apply_op] in Hid, Hord.
  assert (Hnew : transfers (fst (Add m id s d)) !! id = Some (new_transfer id s d))
    by (simpl; apply lookup_insert_eq).
  repeat split; try done.
  - unfold GetAll.
    rewrite (GetAll_records_of _ id _ _ Hnew Hid Hord).
    simpl order. rewrite count_occ_app, Hcount. simpl.
    by destruct (string_dec id id).
  - apply (Stats_of_insert (transfers m) id (new_transfer id s d)).
  - change (Stats (fst (Add m id s d)))
      with (Stats_of (<[id := new_transfer id s d]> (transfers m))).
    rewrite total_Stats_of. unfold Get in Hold.
    apply map_size_insert_Some. by rewrite Hold.
Qed.

Lemma added_a_reachable : reachable added_a.
Proof. exists [OpAdd "a" "src" "dst"; OpStart "a" 1]. reflexivity. Qed.

Lemma Add_existing_id_witness :
  List.filter (fun r => String.eqb (ID r) "a")
              (GetAll (fst (Add added_a "a" "src2" "dst2")))
  = [new_transfer "a" "src2" "dst2"; new_transfer "a" "src2" "dst2"] /\
  total (Stats (fst (Add added_a "a" "src2" "dst2"))) = 1%nat.
Proof.
  destruct (Add_existing_id added_a "a" "src2" "dst2"
              (Build_Transfer "a" "src" "dst" StatusInProgress (S754_zero false)
                              0 0 (Some 1) None None)
              added_a_reachable ltac:(vm_compute; reflexivity) ltac:(reflexivity))
    as (_ & _ & _ & _ & _ & _ & _ & Hall & _ & Htot).
  split; [exact Hall | exact Htot].
Defined.

End StoreFacts.

(* ===================================================================== *)
(** * Properties of parseSize *)
(* ===================================================================== *)

Section SizeFacts.
Import Float64 Strings Strconv Size.

Lemma ParseFloat_1_5 : ParseFloat "1.5" = Some (S754_finite false 6755399441055744 (-52)).
Proof. vm_compute. reflexivity. Qed.

(** The bare unit is read as the unit B, whatever the number. *)
Lemma parseSize_bare value : parseSize value EmptyString = parseSize value "B".
Proof. unfold parseSize. destruct (ParseFloat value); reflexivity. Qed.

(** C4, as stated, fails at the byte-level unit: the result is a whole
    number of bytes, 1, and not 1.5 * 1024^0. *)
Lemma parseSize_B_is_not_one_and_a_half :
  parseSize "1.5" "B" = 1 /\ 2 * parseSize "1.5" "B" <> 3 * 1024 ^ 0.
Proof. vm_compute. split; [reflexivity | discriminate]. Qed.

(** C4, amended: for "1.5" and each listed unit in any letter case the
    result is 1.5 * 1024^n rounded down to a whole number of bytes, which
    is exactly 1.5 * 1024^n for the K, M and G forms and 1 for B; the
    empty unit gives what B gives. *)
Theorem parseSize_one_and_a_half base n u :
  In (base, n) unit_table ->
  In u (case_variants base) ->
  parseSize "1.5" u = (3 * 1024 ^ n) / 2 /\
  (1 <= n -> 2 * parseSize "1.5" u = 3 * 1024 ^ n) /\
  (n = 0 -> parseSize "1.5" u = 1) /\
  parseSize "1.5" EmptyString = parseSize "1.5" "B".
Proof.
  intros Hb Hu. split; [|split; [|split]]; [ | | |apply parseSize_bare].
  all: cbn [unit_table In] in Hb;
    repeat (destruct Hb as [Hb|Hb]; [injection Hb as <- <-|]); try contradiction.
  all: vm_compute in Hu;
    repeat (destruct Hu as [Hu|Hu]; [subst u|]); try contradiction.
  all: try (vm_compute; reflexivity).
  all: intros Hn; try (vm_compute; reflexivity); try discriminate Hn.
  all: exfalso; apply Hn; reflexivity.
Qed.

Lemma parseSize_one_and_a_half_witness :
  parseSize "1.5" "mIb" = (3 * 1024 ^ 2) / 2 /\ parseSize "1.5" "mIb" = 1572864.
Proof.
  destruct (parseSize_one_and_a_half "MiB" 2 "mIb") as (H & _).
  - cbn [unit_table In]. auto 10.
  - vm_compute. auto 10.
  - split; [exact H|]. rewrite H. reflexivity.
Defined.

End SizeFacts.

(* ===================================================================== *)
(** * The argument vector *)
(* ===================================================================== *)

Section DriverFacts.
Import Driver.

(** C8: the arguments are the verb, [-v], [--stats] and the interval
    ("500ms" when none is set), [--dry-run] exactly when DryRun is set,
    the extra flags in their order, then source and destination. *)
Theorem Execute_args_order opts :
  Execute_args opts =
  ([Command opts; "-v"; "--stats";
    if String.eqb (StatsInterval opts) EmptyString then "500ms" else StatsInterval opts]
   ++ (if DryRun opts then ["--dry-run"] else [])
   ++ Flags opts
   ++ [Source opts; Destination opts])%list.
Proof.
  unfold Execute_args. destruct (DryRun opts); cbn [app];
    rewrite <- ?app_assoc; reflexivity.
Qed.

End DriverFacts.

(* ===================================================================== *)
(** * Properties of ClassifyError *)
(* ===================================================================== *)

Section ClassifyFacts.
Import Strings Errors Classify.



End ClassifyFacts.

(* ===================================================================== *)
(** * Properties of ExecuteWithRetry *)
(* ===================================================================== *)

Section RetryFacts.
Import Float64 Errors Retry.

(** What [validate] leaves in each field. *)
Lemma validate_fields cfg :
  MaxAttempts (validate cfg) = (if MaxAttempts cfg <=? 0 then 1 else MaxAttempts cfg) /\
  InitialDelay (validate cfg) = (if InitialDelay cfg <=? 0 then 2 * Second else InitialDelay cfg) /\
  MaxDelay (validate cfg) = (if MaxDelay cfg <=? 0 then 30 * Second else MaxDelay cfg) /\
  Multiplier (validate cfg) =
    (if leb (Multiplier cfg) (S754_zero false) then of_int 2 else Multiplier cfg).
Proof.
  destruct cfg as [a i d x]. unfold validate.
  cbn [MaxAttempts InitialDelay MaxDelay Multiplier].
  destruct (a <=? 0); cbn [MaxAttempts InitialDelay MaxDelay Multiplier];
    destruct (i <=? 0); cbn [MaxAttempts InitialDelay MaxDelay Multiplier];
    destruct (d <=? 0); cbn [MaxAttempts InitialDelay MaxDelay Multiplier];
    destruct (leb x (S754_zero false)); auto.
Qed.

Lemma validate_MaxAttempts_pos cfg : 1 <= MaxAttempts (validate cfg).
Proof.
  destruct (validate_fields cfg) as (-> & _).
  destruct (Z.leb_spec (MaxAttempts cfg) 0); lia.
Qed.

Section Run.
Context {W : Type}.
Variable Execute : W -> option error * W.
Variable ctx_done : W -> bool.
Variable ctx_err : W -> option error.
Variable wait : Duration -> W -> bool * W.

(** A count of the calls of [Execute], kept in the state by [Execute]
    itself and left alone by the waits. *)
Variable calls : W -> nat.
Hypothesis Execute_counts : forall w, calls (snd (Execute w)) = S (calls w).
Hypothesis wait_keeps : forall d w, calls (snd (wait d w)) = calls w.

Hypothesis always_fails : forall w, fst (Execute w) <> None.
Hypothesis never_cancelled : forall w, ctx_done w = false.
Hypothesis timer_fires : forall d w, fst (wait d w) = false.

Lemma attempts_exhaust cfg : forall left attempt delay lastErr w,
  attempt + Z.of_nat left = MaxAttempts cfg ->
  exists w_last e_last,
    Execute w_last = (Some e_last,
                      snd (attempts Execute ctx_done ctx_err wait
                                    (S left) attempt cfg delay lastErr w)) /\
    fst (attempts Execute ctx_done ctx_err wait (S left) attempt cfg delay lastErr w)
      = Some (Errorf_attempts "failed after" (MaxAttempts cfg) e_last) /\
    calls (snd (attempts Execute ctx_done ctx_err wait
                         (S left) attempt cfg delay lastErr w))
      = (calls w + S left)%nat.
Proof.
  induction left as [|left IH]; intros attempt delay lastErr w Hsum.
  - cbn [attempts]. rewrite never_cancelled.
    pose proof (always_fails w) as Hf. pose proof (Execute_counts w) as Hc.
    destruct (Execute w) as [[e|] w'] eqn:HE; [|done]. cbn [fst snd] in *.
    replace (attempt =? MaxAttempts cfg) with true by (symmetry; apply Z.eqb_eq; lia).
    exists w, e. cbn [fst snd Errorf_opt]. repeat split; [done|lia].
  - remember (S left) as n eqn:Hn. cbn [attempts]. rewrite never_cancelled.
    pose proof (always_fails w) as Hf. pose proof (Execute_counts w) as Hc.
    destruct (Execute w) as [[e|] w'] eqn:HE; [|done]. cbn [fst snd] in *.
    replace (attempt =? MaxAttempts cfg) with false by (symmetry; apply Z.eqb_neq; lia).
    pose proof (timer_fires delay w') as Ht. pose proof (wait_keeps delay w') as Hk.
    destruct (wait delay w') as [cancelled w''] eqn:Hw. cbn [fst snd] in *. subst cancelled.
    subst n.
    destruct (IH (attempt + 1) (next_delay delay cfg) (Some e) w'' ltac:(lia))
      as (wl & el & Hl & Hr & Hcalls).
    exists wl, el. repeat split; [done|done|]. rewrite Hcalls. lia.
Qed.

(** C5: with MaxAttempts = N >= 1, an attempt that fails every time and no
    cancellation, the attempt is run exactly N times and the error
    returned reads "failed after N attempts: ..." and wraps the error of
    the last run. *)
Theorem ExecuteWithRetry_exhausts cfg w :
  1 <= MaxAttempts cfg ->
  let N := MaxAttempts cfg in
  let r := ExecuteWithRetry Execute ctx_done ctx_err wait cfg w in
  exists w_last e_last err,
    Execute w_last = (Some e_last, snd r) /\
    fst r = Some err /\
    err_Error err = "failed after " ++ itoa N ++ " attempts: " ++ err_Error e_last /\
    Unwrap err = Some e_last /\
    Z.of_nat (calls (snd r)) = Z.of_nat (calls w) + N.
Proof.
  intros HN N r. subst N r. unfold ExecuteWithRetry.
  destruct (validate_fields cfg) as (HM & _).
  replace (MaxAttempts cfg <=? 0) with false in HM by (symmetry; apply Z.leb_gt; lia).
  rewrite HM.
  destruct (Z.to_nat (MaxAttempts cfg)) as [|left] eqn:Hleft; [lia|].
  destruct (attempts_exhaust (validate cfg) left 1 (InitialDelay (validate cfg)) None w
              ltac:(lia)) as (wl & el & Hl & Hr & Hcalls).
  exists wl, el, (Errorf_attempts "failed after" (MaxAttempts cfg) el).
  rewrite HM in Hr.
  split; [exact Hl|]. split; [exact Hr|]. split; [reflexivity|].
  split; [reflexivity|]. rewrite Hcalls. lia.
Qed.

End Run.

Lemma ExecuteWithRetry_exhausts_witness :
  let Execute := fun w : nat => (Some boom, S w) in
  let cfg := {| MaxAttempts := 3; InitialDelay := 10000000;
                MaxDelay := 100000000; Multiplier := of_int 2 |} in
  let r := ExecuteWithRetry Execute (fun _ => false) (fun _ => None)
                            (fun _ w => (false, w)) cfg 0%nat in
  exists w_last e_last err,
    Execute w_last = (Some e_last, snd r) /\
    fst r = Some err /\
    err_Error err = "failed after " ++ itoa 3 ++ " attempts: " ++ err_Error e_last /\
    Unwrap err = Some e_last /\
    Z.of_nat (snd r) = Z.of_nat 0 + 3.
Proof.
  exact (ExecuteWithRetry_exhausts (W := nat)
           (fun w => (Some boom, S w)) (fun _ => false)
           (fun _ => None) (fun _ w => (false, w)) (fun w => w)
           (fun w => eq_refl) (fun d w => eq_refl)
           (fun w => ltac:(discriminate)) (fun w => eq_refl) (fun d w => eq_refl)
           {| MaxAttempts := 3; InitialDelay := 10000000;
              MaxDelay := 100000000; Multiplier := of_int 2 |} 0%nat
           ltac:(cbn; lia)).
Defined.




End RetryFacts.

(* ===================================================================== *)
(** * The scanner against the tokenization contract *)
(* ===================================================================== *)

Section ScannerFacts.
Import Scanner.
Local Open Scope list_scope.

Lemma len_app (a b : list ascii) : len (a ++ b) = len a + len b.
Proof. unfold len. rewrite length_app. lia. Qed.

Lemma len_cons c (a : list ascii) : len (c :: a) = len a + 1.
Proof. unfold len. cbn [length]. lia. Qed.

Lemma len_nonneg (a : list ascii) : 0 <= len a.
Proof. unfold len. lia. Qed.

(** ** The first terminator *)

Lemma IndexAny_CRLF_none data :
  no_delim data = true -> IndexAny_CRLF data = -1.
Proof.
  induction data as [|c data IH]; cbn [no_delim forallb IndexAny_CRLF]; [done|].
  intros [Hc Hd]%andb_true_iff. apply negb_true_iff in Hc. rewrite Hc.
  unfold no_delim in IH. rewrite (IH Hd). reflexivity.
Qed.

Lemma IndexAny_CRLF_at l d rest :
  no_delim l = true -> is_delim d = true ->
  IndexAny_CRLF (l ++ d :: rest) = len l.
Proof.
  intros Hl Hd. induction l as [|c l IH]; cbn [app IndexAny_CRLF].
  - by rewrite Hd.
  - cbn [no_delim forallb] in Hl. apply andb_true_iff in Hl as [Hc Hl].
    apply negb_true_iff in Hc. rewrite Hc, (IH Hl), len_cons.
    pose proof (len_nonneg l).
    destruct (Z.ltb_spec (len l) 0); [lia|reflexivity].
Qed.

(** A buffer either has no terminator, or splits at its first one. *)
Lemma first_delim data :
  no_delim data = true \/
  exists l d rest, data = l ++ d :: rest /\ no_delim l = true /\ is_delim d = true.
Proof.
  induction data as [|c data IH]; [by left|].
  destruct (is_delim c) eqn:Hc.
  - right. exists [], c, data. by repeat split.
  - destruct IH as [Hn|(l & d & rest & -> & Hl & Hd)].
    + left. cbn [no_delim forallb]. by rewrite Hc.
    + right. exists (c :: l), d, rest. repeat split; [|done].
      cbn [no_delim forallb]. by rewrite Hc.
Qed.

(** ** What the split function returns *)

Lemma split_at_delim l d rest eof :
  no_delim l = true -> is_delim d = true ->
  split (l ++ d :: rest) eof =
  (len l + 1 + (len rest - len (drop_pair d rest)), Some l).
Proof.
  intros Hl Hd. unfold split.
  assert (Hlen : len (l ++ d :: rest) = len l + 1 + len rest)
    by (rewrite len_app, len_cons; lia).
  pose proof (len_nonneg l). pose proof (len_nonneg rest).
  replace (len (l ++ d :: rest) =? 0) with false by (symmetry; apply Z.eqb_neq; lia).
  rewrite andb_false_r, (IndexAny_CRLF_at _ _ _ Hl Hd).
  replace (0 <=? len l) with true by (symmetry; apply Z.leb_le; lia).
  assert (Htok : firstn (Z.to_nat (len l)) (l ++ d :: rest) = l).
  { unfold len. rewrite Nat2Z.id, firstn_app, Nat.sub_diag, firstn_all. cbn.
    apply app_nil_r. }
  rewrite Htok.
  assert (Hd_at : at_ (l ++ d :: rest) (len l) = d).
  { unfold at_, len. rewrite Nat2Z.id, app_nth2, Nat.sub_diag; [done|lia]. }
  rewrite Hd_at, Hlen.
  destruct rest as [|c rest'].
  - replace (len l + 1 <? len l + 1 + len []) with false
      by (symmetry; apply Z.ltb_ge; unfold len; cbn; lia).
    cbn [andb drop_pair]. f_equal. unfold len; cbn; lia.
  - replace (len l + 1 <? len l + 1 + len (c :: rest')) with true
      by (symmetry; apply Z.ltb_lt; rewrite len_cons; pose proof (len_nonneg rest'); lia).
    assert (Hc_at : at_ (l ++ d :: c :: rest') (len l + 1) = c).
    { unfold at_, len. rewrite Z2Nat.inj_add, Nat2Z.id by lia.
      rewrite app_nth2 by lia.
      replace (length l + Z.to_nat 1 - length l)%nat with 1%nat by lia. done. }
    rewrite Hc_at. cbn [andb drop_pair].
    destruct (Ascii.eqb d CR && Ascii.eqb c LF); f_equal; rewrite len_cons; lia.
Qed.

Lemma split_no_delim data eof :
  no_delim data = true ->
  split data eof =
  if eof then (if len data =? 0 then (0, None) else (len data, Some data))
  else (0, None).
Proof.
  intros Hn. unfold split. rewrite (IndexAny_CRLF_none _ Hn).
  destruct eof; cbn [andb]; [|reflexivity].
  destruct (len data =? 0); reflexivity.
Qed.

Lemma length_drop_pair d rest : (length (drop_pair d rest) <= length rest)%nat.
Proof.
  destruct rest as [|c rest]; cbn [drop_pair]; [done|].
  destruct (Ascii.eqb d CR && Ascii.eqb c LF); cbn [length]; lia.
Qed.

Lemma skipn_to_drop_pair l d rest :
  skipn (Z.to_nat (len l + 1 + (len rest - len (drop_pair d rest)))) (l ++ d :: rest)
  = drop_pair d rest.
Proof.
  pose proof (length_drop_pair d rest) as Hle. unfold len.
  replace (Z.to_nat (Z.of_nat (length l) + 1
                     + (Z.of_nat (length rest) - Z.of_nat (length (drop_pair d rest)))))
    with ((1 + (length rest - length (drop_pair d rest))) + length l)%nat by lia.
  rewrite <- skipn_skipn, drop_app_length. cbn [skipn Nat.add].
  destruct rest as [|c rest]; cbn [drop_pair] in *; [done|].
  destruct (Ascii.eqb d CR && Ascii.eqb c LF); cbn [length] in *.
  - replace (S (length rest) - length rest)%nat with 1%nat by lia. done.
  - by rewrite Nat.sub_diag.
Qed.

(** The head of the loop of [Scan] on a buffer with a terminator: the
    bytes before it are the token, and a line feed right behind a carriage
    return goes too when it is in the buffer. *)
Lemma offer_at_delim l d rest eof :
  no_delim l = true -> is_delim d = true ->
  offer (l ++ d :: rest) eof = (Some l, drop_pair d rest).
Proof.
  intros Hl Hd. unfold offer.
  replace (len (l ++ d :: rest) =? 0) with false.
  2:{ symmetry. apply Z.eqb_neq. rewrite len_app, len_cons.
      pose proof (len_nonneg l). pose proof (len_nonneg rest). lia. }
  cbn [negb orb]. rewrite (split_at_delim _ _ _ _ Hl Hd).
  by rewrite skipn_to_drop_pair.
Qed.

Lemma offer_no_delim data :
  no_delim data = true -> offer data false = (None, data).
Proof.
  intros Hn. unfold offer. rewrite orb_false_r.
  destruct (len data =? 0); cbn [negb]; [done|].
  by rewrite (split_no_delim _ _ Hn).
Qed.

Lemma offer_no_delim_eof data :
  no_delim data = true ->
  offer data true = match data with [] => (None, []) | _ => (Some data, []) end.
Proof.
  intros Hn. unfold offer. rewrite orb_true_r, (split_no_delim _ _ Hn).
  destruct data as [|c data]; [done|].
  replace (len (c :: data) =? 0) with false
    by (symmetry; apply Z.eqb_neq; rewrite len_cons; pose proof (len_nonneg data); lia).
  unfold len. by rewrite Nat2Z.id, skipn_all.
Qed.

(** ** The logical lines of a buffer cut at its first terminator *)

Lemma is_delim_false c :
  is_delim c = false -> Ascii.eqb c CR = false /\ Ascii.eqb c LF = false.
Proof. unfold is_delim. by intros ?%orb_false_iff. Qed.

Lemma logical_lines_from_no_delim l : forall cur x,
  no_delim l = true ->
  logical_lines_from cur (l ++ x) = logical_lines_from (cur ++ l) x.
Proof.
  induction l as [|c l IH]; intros cur x Hl.
  - by rewrite app_nil_r.
  - cbn [no_delim forallb] in Hl. apply andb_true_iff in Hl as [Hc Hl].
    apply negb_true_iff, is_delim_false in Hc as [Hcr Hlf].
    cbn [app logical_lines_from]. rewrite Hcr, Hlf, (IH _ _ Hl).
    by rewrite <- app_assoc.
Qed.

Lemma logical_lines_from_delim cur d x :
  is_delim d = true ->
  logical_lines_from cur (d :: x) = cur :: logical_lines_from [] (drop_pair d x).
Proof.
  intros Hd. unfold is_delim in Hd. cbn [logical_lines_from].
  destruct (Ascii.eqb d CR) eqn:Hcr.
  - destruct x as [|c x]; [done|]. cbn [drop_pair]. rewrite Hcr. cbn [andb].
    by destruct (Ascii.eqb c LF).
  - cbn [orb] in Hd. rewrite Hd. destruct x; [done|].
    cbn [drop_pair]. by rewrite Hcr.
Qed.

Lemma logical_lines_at_delim l d x :
  no_delim l = true -> is_delim d = true ->
  logical_lines (l ++ d :: x) = l :: logical_lines (drop_pair d x).
Proof.
  intros Hl Hd. unfold logical_lines.
  by rewrite (logical_lines_from_no_delim _ _ _ Hl), (logical_lines_from_delim _ _ _ Hd).
Qed.

Lemma logical_lines_no_delim data :
  no_delim data = true ->
  logical_lines data = match data with [] => [] | _ => [data] end.
Proof.
  intros Hn. unfold logical_lines.
  pose proof (logical_lines_from_no_delim data [] [] Hn) as H.
  rewrite app_nil_r in H. rewrite H. by destruct data.
Qed.

(** The line being read only grows. *)
Lemma logical_lines_from_head x : forall cur,
  match logical_lines_from cur x with
  | [] => cur = [] /\ x = []
  | l :: _ => (length cur <= length l)%nat
  end.
Proof.
  induction x as [|c x IH]; intros cur; cbn [logical_lines_from].
  - by destruct cur.
  - destruct (Ascii.eqb c CR).
    + destruct x as [|c' x]; [done|]. by destruct (Ascii.eqb c' LF).
    + destruct (Ascii.eqb c LF); [done|].
      specialize (IH (cur ++ [c])).
      destruct (logical_lines_from (cur ++ [c]) x).
      * destruct IH as [IH _]. by destruct cur.
      * rewrite length_app in IH. lia.
Qed.

(** Bytes without a terminator that wait in the buffer are the head of
    the first line, so short lines keep the buffer below its limit. *)
Lemma buffered_short data x :
  no_delim data = true -> short_lines (data ++ x) = true ->
  (maxTokenSize <=? len data) = false.
Proof.
  intros Hn Hs. apply Z.leb_gt. unfold short_lines, logical_lines in Hs.
  rewrite (logical_lines_from_no_delim _ _ _ Hn) in Hs. cbn [app] in Hs.
  pose proof (logical_lines_from_head x data) as Hh.
  destruct (logical_lines_from data x) as [|l ls].
  - destruct Hh as [-> _]. done.
  - cbn [forallb] in Hs. apply andb_true_iff in Hs as [Hl%Z.ltb_lt _].
    unfold len in *. lia.
Qed.

(** ** Reads that split no pair *)

Lemma ends_with_CR_snoc l d : ends_with_CR (l ++ [d]) = Ascii.eqb d CR.
Proof. unfold ends_with_CR. by rewrite last_last. Qed.

Lemma ends_with_CR_app pre suf :
  ends_with_CR suf = true -> ends_with_CR (pre ++ suf) = true.
Proof.
  destruct suf as [|c suf] using rev_ind; [done|].
  rewrite app_assoc, !ends_with_CR_snoc. done.
Qed.

Lemma pair_split_suffix r : forall pre suf,
  pair_split (pre ++ suf) r = false -> pair_split suf r = false.
Proof.
  induction r as [|chunk r IH]; intros pre suf; cbn [pair_split]; [done|].
  intros [H1 H2]%orb_false_iff. apply orb_false_iff. split.
  - destruct (ends_with_CR suf) eqn:He; [|done].
    by rewrite (ends_with_CR_app pre _ He) in H1.
  - apply (IH pre). by rewrite app_assoc.
Qed.

Lemma drop_pair_suffix d rest : exists pre, rest = pre ++ drop_pair d rest.
Proof.
  destruct rest as [|c rest]; cbn [drop_pair]; [by exists []|].
  destruct (Ascii.eqb d CR && Ascii.eqb c LF); [by exists [c]|by exists []].
Qed.

(** With the rest of the input behind it, a terminator takes the same
    bytes as in the buffer, unless it is a carriage return at the end of
    the buffer and the input goes on with a line feed. *)
Lemma drop_pair_app d rest x :
  (rest = [] -> Ascii.eqb d CR && starts_with_LF x = false) ->
  drop_pair d (rest ++ x) = drop_pair d rest ++ x.
Proof.
  destruct rest as [|c rest]; cbn [app drop_pair].
  - intros H. specialize (H eq_refl). destruct x as [|c x]; [done|].
    cbn [drop_pair starts_with_LF] in *. by rewrite H.
  - intros _. by destruct (Ascii.eqb d CR && Ascii.eqb c LF).
Qed.

Lemma pair_split_at_end l d r :
  pair_split (l ++ [d]) r = false ->
  Ascii.eqb d CR && starts_with_LF (concat r) = false.
Proof.
  destruct r as [|chunk r]; cbn [pair_split].
  - intros _. cbn. apply andb_false_r.
  - intros [H _]%orb_false_iff. by rewrite ends_with_CR_snoc in H.
Qed.

(** ** One call of Scan *)

Lemma scan_reading_unfold data r :
  scan_reading data r =
  let '(token, data) := offer data false in
  match token with
  | Some t => (Some t, {| buffered := data; reads := r; atEOF := false; stopped := false |})
  | None =>
      if maxTokenSize <=? len data then (None, halted)
      else match r with
           | chunk :: r' => scan_reading (data ++ chunk) r'
           | [] =>
               let '(token, data) := offer data true in
               match token with
               | Some t => (Some t, {| buffered := data; reads := []; atEOF := true; stopped := false |})
               | None => (None, halted)
               end
           end
  end.
Proof. destruct r; reflexivity. Qed.

Lemma scan_reading_correct r : forall data,
  pair_split data r = false ->
  short_lines (data ++ concat r) = true ->
  match logical_lines (data ++ concat r) with
  | [] => fst (scan_reading data r) = None
  | l :: ls =>
      exists s', scan_reading data r = (Some l, s') /\ ready s' /\
                 logical_lines (stream s') = ls /\
                 (remaining s' < length data + length (concat r))%nat
  end.
Proof.
  induction r as [|chunk r IH]; intros data Hps Hshort.
  - (* the next read reports the end of the input *)
    cbn [concat] in *. rewrite app_nil_r in *.
    destruct (first_delim data) as [Hn|(l & d & rest & -> & Hl & Hd)].
    + rewrite scan_reading_unfold, (offer_no_delim _ Hn).
      rewrite (buffered_short data [] Hn) by (by rewrite app_nil_r).
      rewrite (offer_no_delim_eof _ Hn).
      rewrite (logical_lines_no_delim _ Hn).
      destruct data as [|c data]; [done|].
      eexists. split; [done|]. repeat split; cbn; lia.
    + rewrite (logical_lines_at_delim _ _ _ Hl Hd).
      rewrite scan_reading_unfold, (offer_at_delim _ _ _ _ Hl Hd).
      eexists. split; [done|]. split; [by repeat split|]. split.
      * unfold stream. cbn. by rewrite app_nil_r.
      * unfold remaining. cbn [buffered reads concat length].
        pose proof (length_drop_pair d rest). rewrite length_app. cbn [length]. lia.
  - cbn [pair_split] in Hps. apply orb_false_iff in Hps as [Hhere Hlater].
    destruct (first_delim data) as [Hn|(l & d & rest & -> & Hl & Hd)].
    + (* nothing to return yet: read [chunk] *)
      rewrite scan_reading_unfold, (offer_no_delim _ Hn).
      rewrite (buffered_short data _ Hn Hshort).
      cbn [concat] in *. rewrite app_assoc in *.
      specialize (IH _ Hlater Hshort).
      destruct (logical_lines ((data ++ chunk) ++ concat r)) as [|l0 ls]; [done|].
      destruct IH as (s' & HS & Hr & Hls & Hrem).
      exists s'. split; [done|]. split; [done|]. split; [done|].
      rewrite !length_app in *. lia.
    + rewrite <- app_assoc. cbn [app].
      rewrite (logical_lines_at_delim _ _ _ Hl Hd).
      rewrite scan_reading_unfold, (offer_at_delim _ _ _ _ Hl Hd).
      assert (Hsafe : pair_split (l ++ d :: rest) (chunk :: r) = false)
        by (cbn [pair_split]; by rewrite Hhere, Hlater).
      destruct (drop_pair_suffix d rest) as [pre Hpre].
      eexists. split; [done|]. split; [|split].
      * repeat split; cbn [stopped atEOF buffered reads]; [done|].
        apply (pair_split_suffix _ (l ++ d :: pre)).
        rewrite <- app_assoc. cbn [app]. by rewrite <- Hpre.
      * unfold stream. cbn [buffered reads]. f_equal.
        symmetry. apply drop_pair_app. intros ->.
        apply (pair_split_at_end l d (chunk :: r) Hsafe).
      * unfold remaining. cbn [buffered reads].
        pose proof (length_drop_pair d rest). rewrite length_app. cbn [length]. lia.
Qed.

Lemma Scan_correct s :
  ready s -> short_lines (stream s) = true ->
  match logical_lines (stream s) with
  | [] => fst (Scan s) = None
  | l :: ls =>
      exists s', Scan s = (Some l, s') /\ ready s' /\
                 logical_lines (stream s') = ls /\
                 (remaining s' < remaining s)%nat
  end.
Proof.
  intros (Hstop & Heof & Hps) Hshort. unfold Scan. rewrite Hstop.
  destruct (atEOF s) eqn:Hat.
  - unfold stream, remaining in *. rewrite (Heof eq_refl) in *.
    cbn [concat] in *. rewrite app_nil_r in *.
    destruct (first_delim (buffered s)) as [Hn|(l & d & rest & Hb & Hl & Hd)].
    + rewrite (offer_no_delim_eof _ Hn).
      rewrite (logical_lines_no_delim _ Hn).
      destruct (buffered s) as [|c data]; [done|].
      eexists. split; [done|]. repeat split; cbn; lia.
    + rewrite Hb, (logical_lines_at_delim _ _ _ Hl Hd), (offer_at_delim _ _ _ _ Hl Hd).
      eexists. split; [done|]. split; [by repeat split|]. split.
      * cbn. by rewrite app_nil_r.
      * cbn [buffered reads concat length].
        pose proof (length_drop_pair d rest). rewrite length_app. cbn [length]. lia.
  - apply (scan_reading_correct _ _ Hps Hshort).
Qed.

(** ** All the tokens *)

Lemma short_lines_tail data l ls :
  logical_lines data = l :: ls -> short_lines data = true ->
  forallb (fun l => len l <? maxTokenSize) ls = true.
Proof.
  unfold short_lines. intros ->. cbn [forallb]. by intros [_ ?]%andb_true_iff.
Qed.

(** When no read splits a pair and every line fits the buffer, the tokens
    are the logical lines of the bytes still to deliver. *)
Lemma scan_all_correct fuel : forall s,
  ready s -> short_lines (stream s) = true -> (remaining s < fuel)%nat ->
  scan_all fuel s = Some (logical_lines (stream s)).
Proof.
  induction fuel as [|fuel IH]; intros s Hr Hshort Hfuel; [lia|].
  cbn [scan_all]. pose proof (Scan_correct s Hr Hshort) as HS.
  destruct (logical_lines (stream s)) as [|l ls] eqn:Hls.
  - destruct (Scan s) as [[t|] s']; [done|done].
  - destruct HS as (s' & -> & Hr' & Hls' & Hrem).
    rewrite (IH s' Hr'); [by rewrite Hls'| |lia].
    unfold short_lines. rewrite Hls'. by eapply short_lines_tail.
Qed.

(** ** Scan always comes to an end *)

Lemma offer_advances data eof t data' :
  offer data eof = (Some t, data') -> (length data' < length data)%nat.
Proof.
  destruct (first_delim data) as [Hn|(l & d & rest & -> & Hl & Hd)].
  - destruct eof.
    + rewrite (offer_no_delim_eof _ Hn). destruct data; [done|].
      intros [= _ <-]. cbn. lia.
    + by rewrite (offer_no_delim _ Hn).
  - rewrite (offer_at_delim _ _ _ _ Hl Hd). intros [= _ <-].
    pose proof (length_drop_pair d rest). rewrite length_app. cbn [length]. lia.
Qed.

Lemma offer_keeps data eof data' :
  offer data eof = (None, data') -> data' = data.
Proof.
  destruct (first_delim data) as [Hn|(l & d & rest & -> & Hl & Hd)].
  - destruct eof.
    + rewrite (offer_no_delim_eof _ Hn). destruct data; [|done]. by intros [= <-].
    + rewrite (offer_no_delim _ Hn). by intros [= <-].
  - by rewrite (offer_at_delim _ _ _ _ Hl Hd).
Qed.

Lemma scan_reading_advances r : forall data t s',
  scan_reading data r = (Some t, s') ->
  (remaining s' < length data + length (concat r))%nat.
Proof.
  induction r as [|chunk r IH]; intros data t s'; rewrite scan_reading_unfold.
  - destruct (offer data false) as [[t0|] data0] eqn:Ho.
    + intros [= _ <-]. apply offer_advances in Ho. unfold remaining. cbn. lia.
    + apply offer_keeps in Ho as ->.
      destruct (maxTokenSize <=? len data); [done|].
      destruct (offer data true) as [[t1|] data1] eqn:Ho1; [|done].
      intros [= _ <-]. apply offer_advances in Ho1. unfold remaining. cbn. lia.
  - destruct (offer data false) as [[t0|] data0] eqn:Ho.
    + intros [= _ <-]. apply offer_advances in Ho. unfold remaining.
      cbn [buffered reads]. lia.
    + apply offer_keeps in Ho as ->.
      destruct (maxTokenSize <=? len data); [done|].
      intros H%IH. cbn [concat]. rewrite !length_app in *. lia.
Qed.

Lemma Scan_advances s t s' :
  Scan s = (Some t, s') -> (remaining s' < remaining s)%nat.
Proof.
  unfold Scan. destruct (stopped s); [done|]. destruct (atEOF s).
  - destruct (offer (buffered s) true) as [[t0|] data0] eqn:Ho; [|done].
    intros [= _ <-]. apply offer_advances in Ho. unfold remaining.
    cbn [buffered reads]. lia.
  - apply scan_reading_advances.
Qed.

(** The fuel of [tokens] and of [parseRcloneOutput] is enough: the loop
    over [Scan] ends for every input and every way of reading it. *)
Lemma scan_all_total fuel : forall s,
  (remaining s < fuel)%nat -> exists ts, scan_all fuel s = Some ts.
Proof.
  induction fuel as [|fuel IH]; intros s Hfuel; [lia|].
  cbn [scan_all]. destruct (Scan s) as [[t|] s'] eqn:HS; [|by eauto].
  apply Scan_advances in HS.
  destruct (IH s' ltac:(lia)) as [ts ->]. by eauto.
Qed.

Lemma tokens_total r : exists ts, tokens r = Some ts.
Proof. apply scan_all_total. lia. Qed.

(** ** Where the tokens are not the logical lines *)

Lemma no_delim_repeat c n : is_delim c = false -> no_delim (repeat c n) = true.
Proof.
  intros Hc. induction n as [|n IH]; [done|].
  cbn [repeat no_delim forallb]. rewrite Hc. exact IH.
Qed.

(** A line that fills the buffer stops the scanner: nothing is returned
    for it, nor for what follows. *)
Lemma tokens_long_line long rest :
  no_delim long = true -> maxTokenSize <= len long ->
  tokens [long; rest] = Some [].
Proof.
  intros Hn Hlen. unfold tokens. cbn [scan_all].
  unfold Scan, NewScanner. cbn [stopped atEOF buffered reads].
  rewrite scan_reading_unfold, (offer_no_delim [] eq_refl).
  replace (maxTokenSize <=? len []) with false by (vm_compute; reflexivity).
  rewrite app_nil_l, scan_reading_unfold, (offer_no_delim _ Hn).
  by replace (maxTokenSize <=? len long) with true by (symmetry; by apply Z.leb_le).
Qed.

(** C1, as stated, fails at two streams.  A line of 1 MiB, the size
    given to [scanner.Buffer], stops the scanner: there is no token for
    it nor for the line behind it.  And the pair "\r\n" of the stream
    "a\r\n", cut by a read that ends after the carriage return, gives the
    token "a" and an empty token, where the stream has one line. *)
Lemma tokens_stop_or_split :
  let a := ascii_of_nat 97 in
  let b := ascii_of_nat 98 in
  let long := repeat a (Z.to_nat maxTokenSize) in
  (tokens [long; [LF; b]] = Some [] /\
   logical_lines (concat [long; [LF; b]]) = [long; [b]]) /\
  (tokens [[a; CR]; [LF]] = Some [[a]; []] /\
   logical_lines (concat [[a; CR]; [LF]]) = [[a]]).
Proof.
  intros a b long.
  assert (Hn : no_delim long = true) by (by apply no_delim_repeat).
  assert (Hlen : len long = maxTokenSize).
  { unfold long, len. rewrite repeat_length. by apply Z2Nat.id. }
  clearbody long. split; split.
  - apply tokens_long_line; [done|lia].
  - cbn [concat]. rewrite app_nil_r.
    by rewrite (logical_lines_at_delim long LF [b] Hn eq_refl).
  - vm_compute. reflexivity.
  - vm_compute. reflexivity.
Qed.

(** C1, amended: for every way of reading a stream in which no read ends
    between a carriage return and the line feed that follows it, every
    line of the stream being shorter than the 1 MiB buffer, the tokens
    are the logical lines, one for each, with "\r", "\n" and "\r\n" each
    one terminator, no token for the inside of a pair, and the bytes
    after the last terminator as the last token. *)
Theorem tokens_are_logical_lines r :
  pair_split [] r = false -> short_lines (concat r) = true ->
  tokens r = Some (logical_lines (concat r)).
Proof.
  intros Hps Hshort. unfold tokens.
  rewrite scan_all_correct; [done|by repeat split|done|lia].
Qed.

Lemma tokens_are_logical_lines_witness :
  let a := ascii_of_nat 97 in
  let b := ascii_of_nat 98 in
  let c := ascii_of_nat 99 in
  tokens [[a; CR; LF; b]; [b; LF]; [LF; CR; c; CR]; []; [a; LF; c]]
  = Some (logical_lines [a; CR; LF; b; b; LF; LF; CR; c; CR; a; LF; c]) /\
  logical_lines [a; CR; LF; b; b; LF; LF; CR; c; CR; a; LF; c]
  = [[a]; [b; b]; []; []; [c]; [a]; [c]].
Proof.
  intros a b c. split.
  - exact (tokens_are_logical_lines
             [[a; CR; LF; b]; [b; LF]; [LF; CR; c; CR]; []; [a; LF; c]]
             ltac:(vm_compute; reflexivity) ltac:(vm_compute; reflexivity)).
  - vm_compute. reflexivity.
Defined.

End ScannerFacts.

(* ===================================================================== *)
(** * The decoder on the progress line *)
(* ===================================================================== *)

Section DecoderFacts.
Import Float64 Strings Strconv Size Store Scanner Regexp Decoder.
Local Open Scope list_scope.

Lemma scan_loop_fold fuel : forall s id m,
  scan_loop fuel s id m =
  (fun ts => fold_left (fun m t => handle_line (string_of_list_ascii t) id m) ts m)
    <$> scan_all fuel s.
Proof.
  induction fuel as [|fuel IH]; intros s id m; [done|].
  cbn [scan_loop scan_all]. destruct (Scan s) as [[t|] s']; [|done].
  rewrite IH. by destruct (scan_all fuel s').
Qed.

(** The decoder returns, whatever it is fed. *)
Lemma parseRcloneOutput_total reader id m :
  exists m', parseRcloneOutput reader id m = Some m'.
Proof.
  unfold parseRcloneOutput. rewrite scan_loop_fold.
  destruct (scan_all_total (S (remaining (NewScanner reader))) (NewScanner reader)
              ltac:(lia)) as [ts ->].
  by eauto.
Qed.

Lemma pair_split_no_LF r : forall data,
  forallb (fun c => negb (Ascii.eqb c LF)) (concat r) = true ->
  pair_split data r = false.
Proof.
  induction r as [|chunk r IH]; intros data Hno; [done|].
  cbn [pair_split]. apply orb_false_iff. split.
  - destruct (concat (chunk :: r)) as [|c x]; cbn [starts_with_LF]; [apply andb_false_r|].
    cbn [forallb] in Hno. apply andb_true_iff in Hno as [Hc%negb_true_iff _].
    rewrite Hc. apply andb_false_r.
  - apply IH. cbn [concat] in Hno. rewrite forallb_app in Hno.
    by apply andb_true_iff in Hno as [_ ?].
Qed.

Lemma progress_matches :
  FindStringSubmatch statsRegex progress_text =
  ["Transferred:   512.0 MiB / 1.0 GiB, 50%"; "512.0"; "MiB"; "1.0"; "GiB"; "50"]%string.
Proof. vm_compute. reflexivity. Qed.

Lemma handle_progress_text id m :
  handle_line progress_text id m =
  UpdateProgress m id (of_int 50) (512 * 1024 * 1024) (1024 ^ 3).
Proof.
  unfold handle_line. rewrite progress_matches.
  replace (String.eqb progress_text EmptyString) with false by (vm_compute; reflexivity).
  cbn [length Nat.leb nth].
  replace (ParseFloat "50") with (Some (of_int 50)) by (vm_compute; reflexivity).
  replace (parseSize "512.0" "MiB") with (512 * 1024 * 1024) by (vm_compute; reflexivity).
  replace (parseSize "1.0" "GiB") with (1024 ^ 3) by (vm_compute; reflexivity).
  reflexivity.
Qed.

(** C2: fed the line "Transferred:   512.0 MiB / 1.0 GiB, 50%, 10.0 MiB/s,
    ETA 30s" with a carriage return behind it, in whatever pieces the
    reads deliver it, for an id the store knows, the decoder returns and
    leaves the record with progress 50, 512 * 1024 * 1024 bytes copied and
    1024^3 bytes in total; its status is as before. *)
Theorem decoder_end_to_end m t chunks :
  Get m "t1" = Some t ->
  concat chunks = progress_line ->
  exists m' t',
    parseRcloneOutput chunks "t1" m = Some m' /\
    Get m' "t1" = Some t' /\
    Progress t' = of_int 50 /\
    BytesCopied t' = 536870912 /\
    BytesTotal t' = 1073741824 /\
    Status_ t' = Status_ t.
Proof.
  intros Hget Hline.
  assert (Htok : scan_all (S (remaining (NewScanner chunks))) (NewScanner chunks)
                 = Some [list_ascii_of_string progress_text]).
  { rewrite scan_all_correct.
    - unfold stream. cbn [buffered reads NewScanner app]. rewrite Hline.
      vm_compute. reflexivity.
    - repeat split; [done|]. apply pair_split_no_LF.
      cbn [reads NewScanner]. rewrite Hline. vm_compute. reflexivity.
    - unfold stream. cbn [buffered reads NewScanner app]. rewrite Hline.
      vm_compute. reflexivity.
    - lia. }
  unfold parseRcloneOutput. rewrite scan_loop_fold, Htok. cbn [fmap option_fmap option_map fold_left].
  rewrite string_of_list_ascii_of_string, handle_progress_text.
  unfold Get in *. unfold UpdateProgress. rewrite Hget.
  eexists _, _. split; [reflexivity|]. cbn [transfers].
  rewrite lookup_insert_eq. split; [reflexivity|]. by repeat split.
Qed.

Lemma decoder_end_to_end_witness :
  exists m' t',
    parseRcloneOutput
      [list_ascii_of_string "Transferred:   512.0 MiB / 1";
       list_ascii_of_string ".0 GiB, 50%, 10.0 MiB/s, ETA 30s"; [CR]]
      "t1" started_t1 = Some m' /\
    Get m' "t1" = Some t' /\
    Progress t' = of_int 50 /\
    BytesCopied t' = 536870912 /\
    BytesTotal t' = 1073741824 /\
    Status_ t' = StatusInProgress.
Proof.
  exact (decoder_end_to_end started_t1
           (Build_Transfer "t1" "src" "dst" StatusInProgress (S754_zero false)
                           0 0 (Some 1) None None)
           [list_ascii_of_string "Transferred:   512.0 MiB / 1";
            list_ascii_of_string ".0 GiB, 50%, 10.0 MiB/s, ETA 30s"; [CR]]
           ltac:(vm_compute; reflexivity) ltac:(vm_compute; reflexivity)).
Defined.

End DecoderFacts.

(* ===================================================================== *)
(** * The decoder on any stream *)
(* ===================================================================== *)

Section DecoderAnyStream.
Import Float64 Strings Strconv Size Store Scanner Regexp Decoder Lines.
Local Open Scope list_scope.

(** ** Tokens hold no terminator *)

Lemma offer_token_no_delim data eof t data' :
  offer data eof = (Some t, data') -> no_delim t = true.
Proof.
  destruct (first_delim data) as [Hn|(l & d & rest & -> & Hl & Hd)].
  - destruct eof.
    + rewrite (offer_no_delim_eof _ Hn). destruct data; [done|]. by intros [= <- _].
    + by rewrite (offer_no_delim _ Hn).
  - rewrite (offer_at_delim _ _ _ _ Hl Hd). by intros [= <- _].
Qed.

Lemma scan_reading_token_no_delim r : forall data t s',
  scan_reading data r = (Some t, s') -> no_delim t = true.
Proof.
  induction r as [|chunk r IH]; intros data t s'; rewrite scan_reading_unfold.
  - destruct (offer data false) as [[t0|] data0] eqn:Ho.
    + intros [= <- _]. by eapply offer_token_no_delim.
    + destruct (maxTokenSize <=? len data0); [done|].
      destruct (offer data0 true) as [[t1|] data1] eqn:Ho1; [|done].
      intros [= <- _]. by eapply offer_token_no_delim.
  - destruct (offer data false) as [[t0|] data0] eqn:Ho.
    + intros [= <- _]. by eapply offer_token_no_delim.
    + destruct (maxTokenSize <=? len data0); [done|]. apply IH.
Qed.

Lemma Scan_token_no_delim s t s' :
  Scan s = (Some t, s') -> no_delim t = true.
Proof.
  unfold Scan. destruct (stopped s); [done|]. destruct (atEOF s).
  - destruct (offer (buffered s) true) as [[t0|] data0] eqn:Ho; [|done].
    intros [= <- _]. by eapply offer_token_no_delim.
  - apply scan_reading_token_no_delim.
Qed.

Lemma scan_all_no_delim fuel : forall s ts,
  scan_all fuel s = Some ts -> Forall (fun t => no_delim t = true) ts.
Proof.
  induction fuel as [|fuel IH]; intros s ts; [done|]. cbn [scan_all].
  destruct (Scan s) as [[t|] s'] eqn:HS.
  - destruct (scan_all fuel s') as [ts'|] eqn:Hall; [|done].
    intros [= <-]. constructor; [by eapply Scan_token_no_delim|by eapply IH].
  - intros [= <-]. constructor.
Qed.

(** X1: However the reads cut the stream, [Scan] comes to an end and no
    token holds a carriage return or a line feed. *)
Theorem tokens_hold_no_terminator r :
  exists ts, tokens r = Some ts /\
             Forall (fun t => forallb (fun c => negb (is_delim c)) t = true) ts.
Proof.
  destruct (tokens_total r) as [ts Hts]. exists ts. split; [done|].
  by apply (scan_all_no_delim _ _ _ Hts).
Qed.

(** ** The tokens when reads may split a pair *)

Lemma drop_pair_LF x : drop_pair LF x = x.
Proof. by destruct x. Qed.

(** What the scanner still has to deliver after a terminator is what the
    contract leaves, but for the line feed of a pair cut by a read, which
    is still to come and will make an empty line. *)
Lemma lines_after_delim d rest x :
  logical_lines (drop_pair d rest ++ x) = logical_lines (drop_pair d (rest ++ x)) \/
  logical_lines (drop_pair d rest ++ x) = [] :: logical_lines (drop_pair d (rest ++ x)).
Proof.
  destruct rest as [|c rest].
  - cbn [drop_pair app]. destruct x as [|c x]; [by left|].
    cbn [drop_pair]. destruct (Ascii.eqb d CR && Ascii.eqb c LF) eqn:E; [|by left].
    right. apply andb_true_iff in E as [_ ->%Ascii.eqb_eq].
    change (LF :: x) with ([] ++ LF :: x).
    rewrite (logical_lines_at_delim [] LF x eq_refl eq_refl).
    by rewrite drop_pair_LF.
  - left. by rewrite drop_pair_app.
Qed.

(** A scanner in the loop of the decoder: it has not stopped, and after
    the end of the input there is nothing left to read. *)
Local Abbreviation running s :=
  (stopped s = false /\ (atEOF s = true -> reads s = [])).

Lemma scan_reading_lines r : forall data,
  short_lines (data ++ concat r) = true ->
  match logical_lines (data ++ concat r) with
  | [] => fst (scan_reading data r) = None
  | l :: ls =>
      exists s', scan_reading data r = (Some l, s') /\ running s' /\
                 (logical_lines (stream s') = ls \/
                  logical_lines (stream s') = [] :: ls) /\
                 (remaining s' < length data + length (concat r))%nat
  end.
Proof.
  induction r as [|chunk r IH]; intros data Hshort.
  - cbn [concat] in *. rewrite app_nil_r in *.
    destruct (first_delim data) as [Hn|(l & d & rest & -> & Hl & Hd)].
    + rewrite scan_reading_unfold, (offer_no_delim _ Hn).
      rewrite (buffered_short data [] Hn) by (by rewrite app_nil_r).
      rewrite (offer_no_delim_eof _ Hn), (logical_lines_no_delim _ Hn).
      destruct data as [|c data]; [done|].
      eexists. split; [done|]. split; [done|]. split; [by left|]. cbn. lia.
    + rewrite (logical_lines_at_delim _ _ _ Hl Hd).
      rewrite scan_reading_unfold, (offer_at_delim _ _ _ _ Hl Hd).
      eexists. split; [done|]. split; [done|]. split.
      * left. unfold stream. cbn. by rewrite app_nil_r.
      * unfold remaining. cbn [buffered reads concat length].
        pose proof (length_drop_pair d rest). rewrite length_app. cbn [length]. lia.
  - destruct (first_delim data) as [Hn|(l & d & rest & -> & Hl & Hd)].
    + rewrite scan_reading_unfold, (offer_no_delim _ Hn).
      rewrite (buffered_short data _ Hn Hshort).
      cbn [concat] in *. rewrite app_assoc in *.
      specialize (IH _ Hshort).
      destruct (logical_lines ((data ++ chunk) ++ concat r)) as [|l0 ls]; [done|].
      destruct IH as (s' & HS & Hr & Hls & Hrem).
      exists s'. split; [done|]. split; [done|]. split; [done|].
      rewrite !length_app in *. lia.
    + rewrite <- app_assoc. cbn [app].
      rewrite (logical_lines_at_delim _ _ _ Hl Hd).
      rewrite scan_reading_unfold, (offer_at_delim _ _ _ _ Hl Hd).
      eexists. split; [done|]. split; [done|]. split.
      * unfold stream. cbn [buffered reads]. apply lines_after_delim.
      * unfold remaining. cbn [buffered reads].
        pose proof (length_drop_pair d rest). rewrite length_app. cbn [length]. lia.
Qed.

Lemma Scan_lines s :
  running s -> short_lines (stream s) = true ->
  match logical_lines (stream s) with
  | [] => fst (Scan s) = None
  | l :: ls =>
      exists s', Scan s = (Some l, s') /\ running s' /\
                 (logical_lines (stream s') = ls \/
                  logical_lines (stream s') = [] :: ls) /\
                 (remaining s' < remaining s)%nat
  end.
Proof.
  intros (Hstop & Heof) Hshort. unfold Scan. rewrite Hstop.
  destruct (atEOF s) eqn:Hat.
  - unfold stream, remaining in *. rewrite (Heof eq_refl) in *.
    cbn [concat] in *. rewrite app_nil_r in *.
    destruct (first_delim (buffered s)) as [Hn|(l & d & rest & Hb & Hl & Hd)].
    + rewrite (offer_no_delim_eof _ Hn), (logical_lines_no_delim _ Hn).
      destruct (buffered s) as [|c data]; [done|].
      eexists. split; [done|]. split; [done|]. split; [by left|]. cbn. lia.
    + rewrite Hb, (logical_lines_at_delim _ _ _ Hl Hd), (offer_at_delim _ _ _ _ Hl Hd).
      eexists. split; [done|]. split; [done|]. split.
      * left. cbn. by rewrite app_nil_r.
      * cbn [buffered reads concat length].
        pose proof (length_drop_pair d rest). rewrite length_app. cbn [length]. lia.
  - apply (scan_reading_lines _ _ Hshort).
Qed.

(** The tokens are the logical lines, with empty tokens more where reads
    cut a pair. *)
Lemma scan_all_lines fuel : forall s,
  running s -> short_lines (stream s) = true -> (remaining s < fuel)%nat ->
  exists ts, scan_all fuel s = Some ts /\
             keep_nonempty ts = keep_nonempty (logical_lines (stream s)).
Proof.
  induction fuel as [|fuel IH]; intros s Hr Hshort Hfuel; [lia|].
  cbn [scan_all]. pose proof (Scan_lines s Hr Hshort) as HS.
  destruct (logical_lines (stream s)) as [|l ls] eqn:Hls.
  - destruct (Scan s) as [[t|] s']; [done|]. by exists [].
  - destruct HS as (s' & -> & Hr' & Hls' & Hrem).
    assert (Htail : forallb (fun l => len l <? maxTokenSize) ls = true)
      by (by eapply short_lines_tail).
    destruct (IH s' Hr') as (ts & -> & Hts); [|lia|].
    { unfold short_lines. destruct Hls' as [->| ->]; [done|].
      cbn [forallb]. by rewrite Htail. }
    exists (l :: ts). split; [done|].
    unfold keep_nonempty in *. cbn [List.filter]. rewrite Hts.
    by destruct Hls' as [->| ->].
Qed.

(** ** The decoder as a fold over the logical lines *)

Lemma handle_line_empty id m : handle_line EmptyString id m = m.
Proof. reflexivity. Qed.

Lemma handle_tokens_nonempty ts : forall id m,
  handle_tokens ts id m = handle_tokens (keep_nonempty ts) id m.
Proof.
  induction ts as [|t ts IH]; intros id m; [done|].
  unfold handle_tokens, keep_nonempty in *. cbn [fold_left List.filter].
  destruct t as [|c t]; cbn [nonempty fold_left]; [|apply IH].
  cbn [string_of_list_ascii]. rewrite handle_line_empty. apply IH.
Qed.

Lemma decode_lines chunks id m :
  short_lines (concat chunks) = true ->
  parseRcloneOutput chunks id m
  = Some (handle_tokens (logical_lines (concat chunks)) id m).
Proof.
  intros Hshort. unfold parseRcloneOutput. rewrite scan_loop_fold.
  destruct (scan_all_lines (S (remaining (NewScanner chunks))) (NewScanner chunks))
    as (ts & -> & Hts); [done|done|lia|].
  cbn [fmap option_fmap option_map]. f_equal.
  change (handle_tokens ts id m = handle_tokens (logical_lines (concat chunks)) id m).
  rewrite (handle_tokens_nonempty ts), Hts.
  symmetry. apply handle_tokens_nonempty.
Qed.

(** X2: When every line of the stream is shorter than the 1 MiB buffer, the
    decoder returns, and the store it leaves is the one obtained by handling
    the logical lines of the stream in order; so two ways of reading the
    same bytes, pairs cut or not, leave the same store. *)
Theorem parseRcloneOutput_by_lines chunks chunks' id m :
  short_lines (concat chunks) = true ->
  concat chunks' = concat chunks ->
  parseRcloneOutput chunks id m
  = Some (handle_tokens (logical_lines (concat chunks)) id m) /\
  parseRcloneOutput chunks' id m = parseRcloneOutput chunks id m.
Proof.
  intros Hshort Hsame.
  rewrite (decode_lines chunks id m Hshort).
  rewrite (decode_lines chunks' id m) by (by rewrite Hsame).
  by rewrite Hsame.
Qed.

Lemma parseRcloneOutput_by_lines_witness :
  let a := ascii_of_nat 97 in
  parseRcloneOutput [[a; CR]; [LF; a]] "t1" started_t1
  = Some (handle_tokens (logical_lines [a; CR; LF; a]) "t1" started_t1) /\
  parseRcloneOutput [[a; CR; LF; a]] "t1" started_t1
  = parseRcloneOutput [[a; CR]; [LF; a]] "t1" started_t1.
Proof.
  intros a.
  exact (parseRcloneOutput_by_lines [[a; CR]; [LF; a]] [[a; CR; LF; a]] "t1" started_t1
           ltac:(vm_compute; reflexivity) ltac:(reflexivity)).
Defined.

(** ** What the decoder may change in the store *)

Lemma handle_line_progress_of line id m :
  handle_line line id m =
  match progress_of line with
  | Some (p, c, t) => UpdateProgress m id p c t
  | None => m
  end.
Proof.
  unfold handle_line, progress_of.
  destruct (String.eqb line EmptyString); [done|].
  destruct (6 <=? length (FindStringSubmatch statsRegex line))%nat; [|done].
  by destruct (ParseFloat (nth 5 (FindStringSubmatch statsRegex line) EmptyString)).
Qed.

Lemma progress_only_refl id m : progress_only id m m.
Proof.
  split; [done|]. split; [done|].
  destruct (Get m id) as [t|] eqn:E; [|done].
  exists t. by repeat split.
Qed.

Lemma progress_only_trans id m1 m2 m3 :
  progress_only id m1 m2 -> progress_only id m2 m3 -> progress_only id m1 m3.
Proof.
  intros (Ho1 & Hf1 & Hi1) (Ho2 & Hf2 & Hi2). split; [congruence|]. split.
  - intros id' Hne. rewrite (Hf2 _ Hne). by apply Hf1.
  - destruct (Get m1 id) as [t1|].
    + destruct Hi1 as (t2 & Hg2 & H12). rewrite Hg2 in Hi2.
      destruct Hi2 as (t3 & Hg3 & H23). exists t3. split; [done|].
      unfold same_but_progress in *.
      destruct H12 as (? & ? & ? & ? & ? & ? & ?), H23 as (? & ? & ? & ? & ? & ? & ?).
      repeat split; congruence.
    + by rewrite Hi1 in Hi2.
Qed.

Lemma progress_only_UpdateProgress id m p c t :
  progress_only id m (UpdateProgress m id p c t).
Proof.
  destruct (Get m id) as [r|] eqn:E.
  - split; [|split].
    + unfold Get in E. unfold UpdateProgress. by rewrite E.
    + intros id' Hne. by apply Get_UpdateProgress_ne.
    + rewrite E. unfold Get in *. unfold UpdateProgress. rewrite E.
      cbn [transfers]. rewrite lookup_insert_eq. eexists. split; [done|].
      by repeat split.
  - unfold Get in E. unfold UpdateProgress. rewrite E. apply progress_only_refl.
Qed.

Lemma progress_only_handle_tokens ts : forall id m,
  progress_only id m (handle_tokens ts id m).
Proof.
  induction ts as [|t ts IH]; intros id m; [apply progress_only_refl|].
  unfold handle_tokens in *. cbn [fold_left].
  eapply progress_only_trans; [|apply IH].
  rewrite handle_line_progress_of.
  destruct (progress_of (string_of_list_ascii t)) as [[[p c] tot]|];
    [apply progress_only_UpdateProgress|apply progress_only_refl].
Qed.

Lemma handle_tokens_unknown ts : forall id m,
  Get m id = None -> handle_tokens ts id m = m.
Proof.
  induction ts as [|t ts IH]; intros id m Hnone; [done|].
  unfold handle_tokens in *. cbn [fold_left].
  rewrite handle_line_progress_of.
  destruct (progress_of (string_of_list_ascii t)) as [[[p c] tot]|]; [|by apply IH].
  unfold UpdateProgress. unfold Get in Hnone. rewrite Hnone. by apply IH.
Qed.

(** X3: Whatever bytes the subprocess writes and however they are read, the
    decoder returns and has changed nothing but the three progress fields of
    the record of its transfer: the order list, every other record, and the
    status, times, error and paths of that record are as before; if the
    store has no record of the transfer it is left as it is. *)
Theorem parseRcloneOutput_changes_progress_only chunks id m :
  exists m', parseRcloneOutput chunks id m = Some m' /\
             progress_only id m m' /\
             (Get m id = None -> m' = m).
Proof.
  unfold parseRcloneOutput. rewrite scan_loop_fold.
  destruct (scan_all_total (S (remaining (NewScanner chunks))) (NewScanner chunks)
              ltac:(lia)) as [ts ->].
  eexists. split; [done|]. split.
  - apply (progress_only_handle_tokens ts).
  - apply (handle_tokens_unknown ts).
Qed.

(** ** The last progress line wins *)

Lemma UpdateProgress_absorbs m id p c t p' c' t' :
  UpdateProgress (UpdateProgress m id p c t) id p' c' t'
  = UpdateProgress m id p' c' t'.
Proof.
  unfold UpdateProgress. destruct (transfers m !! id) as [r|] eqn:E.
  - cbn [transfers order]. rewrite lookup_insert_eq. cbn.
    by rewrite insert_insert_eq.
  - by rewrite E.
Qed.

Lemma handle_tokens_then_update ts : forall id m p c t,
  UpdateProgress (handle_tokens ts id m) id p c t = UpdateProgress m id p c t.
Proof.
  induction ts as [|tok ts IH]; intros id m p c t; [done|].
  unfold handle_tokens in *. cbn [fold_left]. rewrite IH.
  rewrite handle_line_progress_of.
  destruct (progress_of (string_of_list_ascii tok)) as [[[p0 c0] t0]|]; [|done].
  apply UpdateProgress_absorbs.
Qed.

(** X4: When the last logical line of the stream is a progress line, the
    store after decoding is the store before it with that line's tuple
    written by UpdateProgress: nothing of the earlier lines is left. *)
Theorem last_progress_line_wins chunks ls l id m p c t :
  short_lines (concat chunks) = true ->
  logical_lines (concat chunks) = ls ++ [l] ->
  progress_of (string_of_list_ascii l) = Some (p, c, t) ->
  parseRcloneOutput chunks id m = Some (UpdateProgress m id p c t).
Proof.
  intros Hshort Hlines Hl.
  rewrite (decode_lines _ _ _ Hshort), Hlines. f_equal.
  unfold handle_tokens. rewrite fold_left_app. cbn [fold_left].
  rewrite handle_line_progress_of, Hl.
  apply (handle_tokens_then_update ls).
Qed.

Lemma last_progress_line_wins_witness :
  parseRcloneOutput
    [list_ascii_of_string "Transferred:   1 MiB / 10 MiB, 10%, 1 MiB/s, ETA 9s" ++ [CR];
     list_ascii_of_string "INFO  : copied" ++ [LF]
       ++ list_ascii_of_string "Transferred:   5.5 MiB / 10 MiB, 55%, 1 MiB/s";
     [CR; LF]
       ++ list_ascii_of_string "Transferred:   9 MiB / 10 MiB, 90%, 1 MiB/s, ETA 1s"]
    "t1" started_t1
  = Some (UpdateProgress started_t1 "t1" (of_int 90) 9437184 10485760).
Proof.
  apply (last_progress_line_wins _
           [list_ascii_of_string "Transferred:   1 MiB / 10 MiB, 10%, 1 MiB/s, ETA 9s";
            list_ascii_of_string "INFO  : copied";
            list_ascii_of_string "Transferred:   5.5 MiB / 10 MiB, 55%, 1 MiB/s"]
           (list_ascii_of_string "Transferred:   9 MiB / 10 MiB, 90%, 1 MiB/s, ETA 1s")
           "t1" started_t1 (of_int 90) 9437184 10485760).
  - vm_compute. reflexivity.
  - vm_compute. reflexivity.
  - vm_compute. reflexivity.
Defined.

(** ** No update without the word *)

Lemma run_literal k : forall re s pos c r,
  run (literal k ++ re) s pos c = Some r -> String.prefix k s = true.
Proof.
  induction k as [|a k IH]; intros re s pos c r; cbn [literal app run String.prefix].
  - by destruct s.
  - destruct s as [|b s]; [done|]. unfold lit at 1. cbn [run].
    destruct (Ascii.eqb a b) eqn:E; [|done].
    apply Ascii.eqb_eq in E as ->. intros H%IH.
    simpl. destruct (ascii_dec b b); [done|congruence].
Qed.

Lemma find_from_literal k re s : forall pos r,
  find_from (literal k ++ re) s pos = Some r -> Contains s k = true.
Proof.
  induction s as [|b s IH]; intros pos r; cbn [find_from Contains].
  - destruct (run _ _ _ _) eqn:E; [|done]. intros _.
    apply run_literal in E. by rewrite E.
  - destruct (run _ _ _ _) eqn:E.
    + intros _. apply run_literal in E. by rewrite E.
    + intros H%IH. rewrite H. apply orb_true_r.
Qed.

(** X5: A line changes the store only if it holds the text "Transferred:":
    every other line is dropped. *)
Theorem no_update_without_Transferred line id m :
  Contains line "Transferred:" = false ->
  progress_of line = None /\ handle_line line id m = m.
Proof.
  intros Hno.
  assert (Hp : progress_of line = None).
  { unfold progress_of. destruct (String.eqb line EmptyString); [done|].
    unfold FindStringSubmatch.
    destruct (find_from statsRegex line 0) as [c|] eqn:E; [|done].
    apply (find_from_literal "Transferred:") in E. congruence. }
  split; [done|]. by rewrite handle_line_progress_of, Hp.
Qed.

Lemma no_update_without_Transferred_witness :
  handle_line "2024/01/01 INFO  : file.bin: Copied (new), 50%" "t1" started_t1
  = started_t1.
Proof.
  exact (proj2 (no_update_without_Transferred
                  "2024/01/01 INFO  : file.bin: Copied (new), 50%" "t1" started_t1
                  ltac:(vm_compute; reflexivity))).
Defined.

End DecoderAnyStream.

(* ===================================================================== *)
(** * Occurrences of a text in a text *)
(* ===================================================================== *)

Section ContainsFacts.
Import Strings Validation Queries.

Lemma prefix_empty s : String.prefix EmptyString s = true.
Proof. by destruct s. Qed.

Lemma prefix_app_l k : forall q s,
  q <> EmptyString ->
  String.prefix q k && (String.length q <? String.length k)%nat = false ->
  String.prefix k (q ++ s) = String.prefix k q.
Proof.
  induction k as [|a k IH]; intros q s Hq H.
  { by rewrite !prefix_empty. }
  destruct q as [|b q]; [done|].
  change (String b q ++ s)%string with (String b (q ++ s)%string).
  cbn [String.prefix] in *.
  destruct (ascii_dec a b) as [->|Hab]; [|done].
  destruct (ascii_dec b b) as [_|]; [|done].
  destruct q as [|b' q].
  - rewrite prefix_empty in H. destruct k as [|a' k]; [|done].
    by rewrite !prefix_empty.
  - apply IH; [done|exact H].
Qed.

Lemma Contains_empty s : Contains s EmptyString = true.
Proof. by destruct s. Qed.

Lemma Contains_app p : forall k s,
  no_cross p k = true ->
  Contains (p ++ s) k = Contains p k || Contains s k.
Proof.
  induction p as [|c p IH]; intros k s H.
  - simpl. destruct k; [by rewrite Contains_empty|done].
  - cbn [no_cross] in H. apply andb_true_iff in H as [H1 H2].
    apply negb_true_iff in H1.
    change (String c p ++ s)%string with (String c (p ++ s)%string).
    cbn [Contains]. rewrite (IH _ _ H2).
    change (String c (p ++ s)%string) with (String c p ++ s)%string.
    rewrite (prefix_app_l k (String c p) s ltac:(done) H1).
    by rewrite orb_assoc.
Qed.

Lemma map_bytes_app f a b :
  map_bytes f (a ++ b) = (map_bytes f a ++ map_bytes f b)%string.
Proof. induction a as [|c a IH]; [done|]. simpl. by rewrite IH. Qed.

(** ** Occurrences across a byte the keyword does not have *)

Lemma prefix_sep c k : forall q s,
  without c k = true ->
  String.prefix k (q ++ String c s) = String.prefix k q.
Proof.
  induction k as [|a k IH]; intros q s Hk.
  { by rewrite !prefix_empty. }
  cbn [without all_bytes] in Hk. apply andb_true_iff in Hk as [Ha Hk].
  destruct q as [|b q].
  - change (EmptyString ++ String c s)%string with (String c s).
    cbn [String.prefix]. destruct (ascii_dec a c) as [->|_]; [|done].
    by rewrite Ascii.eqb_refl in Ha.
  - change (String b q ++ String c s)%string with (String b (q ++ String c s)%string).
    cbn [String.prefix]. destruct (ascii_dec a b); [|done]. by apply IH.
Qed.

Lemma Contains_sep c k p : forall s,
  without c k = true ->
  Contains (p ++ String c s) k = Contains p k || Contains s k.
Proof.
  induction p as [|b p IH]; intros s Hk.
  - pose proof (prefix_sep c k EmptyString s Hk) as Hp.
    change (EmptyString ++ String c s)%string with (String c s) in *.
    cbn [Contains]. by rewrite Hp, orb_false_r.
  - change (String b p ++ String c s)%string with (String b (p ++ String c s)%string).
    cbn [Contains]. rewrite (IH _ Hk).
    change (String b (p ++ String c s)%string) with (String b p ++ String c s)%string.
    by rewrite (prefix_sep c k (String b p) s Hk), orb_assoc.
Qed.

Lemma Contains_nil k : k <> EmptyString -> Contains EmptyString k = false.
Proof. by destruct k. Qed.

(** A keyword with no byte of a class does not reach into text made of
    that class. *)
Lemma without_class (P : ascii -> bool) k c :
  all_bytes (fun a => negb (P a)) k = true ->
  P c = true -> without c k = true.
Proof.
  intros Hk Hc. unfold without. induction k as [|a k IH]; [done|].
  cbn [all_bytes] in *. apply andb_true_iff in Hk as [Ha Hk].
  rewrite (IH Hk), andb_true_r.
  destruct (Ascii.eqb_spec a c) as [->|_]; [|done]. by rewrite Hc in Ha.
Qed.

Lemma Contains_class (P : ascii -> bool) k num : forall p s,
  free_of P k = true ->
  made_of P num = true ->
  Contains (p ++ num ++ s) k = Contains p k || Contains s k.
Proof.
  intros p s Hk Hnum. unfold free_of, made_of in *.
  apply andb_true_iff in Hk as [Hk Hnk]. apply andb_true_iff in Hnum as [Hne Hnum].
  assert (Hk' : k <> EmptyString) by (by destruct k). clear Hk.
  assert (Hne' : num <> EmptyString) by (by destruct num). clear Hne.
  revert p s Hnum Hne'.
  induction num as [|c num IH]; intros p s Hnum Hne; [done|].
  cbn [all_bytes] in Hnum. apply andb_true_iff in Hnum as [Hc Hnum].
  change (String c num ++ s)%string with (String c (num ++ s)%string).
  rewrite (Contains_sep c k p _ (without_class P k c Hnk Hc)).
  destruct num as [|c' num].
  - done.
  - pose proof (IH EmptyString s Hnum ltac:(done)) as H.
    change (EmptyString ++ String c' num ++ s)%string
      with (String c' num ++ s)%string in H.
    by rewrite H, (Contains_nil k Hk').
Qed.




Lemma all_bytes_weaken (P Q : ascii -> bool) s :
  (forall c, P c = true -> Q c = true) ->
  all_bytes P s = true -> all_bytes Q s = true.
Proof.
  intros HPQ. induction s as [|c s IH]; [done|]. cbn [all_bytes].
  intros H. apply andb_true_iff in H as [Hc Hs]. by rewrite (HPQ c Hc), IH.
Qed.

Lemma ToLower_numeric s : all_bytes numeric_byte s = true -> ToLower s = s.
Proof.
  induction s as [|c s IH]; [done|]. cbn [all_bytes]. intros H.
  apply andb_true_iff in H as [Hc Hs]. unfold ToLower in *. cbn [map_bytes].
  rewrite (IH Hs). f_equal. unfold numeric_byte in Hc.
  unfold lower_byte.
  destruct (is_upper c) eqn:Hu; [|done].
  exfalso. unfold is_upper, is_digit, byte_in in *.
  apply andb_true_iff in Hu as [H1 H2].
  apply Nat.leb_le in H1. apply Nat.leb_le in H2.
  apply orb_true_iff in Hc as [Hc|Hc]; [apply orb_true_iff in Hc as [Hc|Hc]|].
  - apply andb_true_iff in Hc as [H3 H4]. apply Nat.leb_le in H4. lia.
  - apply Ascii.eqb_eq in Hc. subst c. vm_compute in H1. lia.
  - apply Ascii.eqb_eq in Hc. subst c. vm_compute in H1. lia.
Qed.

Lemma digit_is_numeric c : is_digit c = true -> numeric_byte c = true.
Proof. unfold numeric_byte. by intros ->. Qed.




End ContainsFacts.

(* ===================================================================== *)
(** * More on the store: ids, listings, counts, durations *)
(* ===================================================================== *)

Section StoreMore.
Import Float64 Errors Store Timing.
Local Open Scope list_scope.

Lemma not_Add_keeps_dom m o :
  is_Add o = false ->
  dom (transfers (apply_op m o)) = dom (transfers m) /\
  order (apply_op m o) = order m.
Proof.
  destruct o as [i s d|i now|i p c tot|i now|i now e]; [done|..]; intros _;
    cbn [apply_op]; unfold Start, UpdateProgress, Complete, Fail;
    (destruct (transfers m !! i) as [r|] eqn:E; [|done]);
    cbn [transfers order]; (split; [|done]);
    apply dom_insert_lookup_L; by rewrite E.
Qed.

(** X6: Start, UpdateProgress, Complete and Fail never make a record and
    never drop one: the ids of the store and the order list are as before,
    and on an id the store does not know the call changes nothing. *)
Theorem only_Add_creates m o :
  is_Add o = false ->
  dom (transfers (apply_op m o)) = dom (transfers m) /\
  order (apply_op m o) = order m /\
  (Get m (target o) = None -> apply_op m o = m).
Proof.
  intros Hna. destruct (not_Add_keeps_dom m o Hna) as [Hd Ho].
  split; [done|]. split; [done|].
  destruct o as [i s d|i now|i p c tot|i now|i now e]; [done|..];
    cbn [apply_op target]; unfold Get, Start, UpdateProgress, Complete, Fail;
    by intros ->.
Qed.

Lemma only_Add_creates_witness :
  apply_op completed_a (OpFail "b" 3 (Some boom)) = completed_a /\
  dom (transfers (apply_op completed_a (OpStart "a" 3))) = dom (transfers completed_a).
Proof.
  split.
  - exact (proj2 (proj2 (only_Add_creates completed_a (OpFail "b" 3 (Some boom)) eq_refl))
             ltac:(vm_compute; reflexivity)).
  - exact (proj1 (only_Add_creates completed_a (OpStart "a" 3) eq_refl)).
Defined.

(** ** Listings and counts of the stores a program can build *)







(** ** Durations *)

Lemma Get_Complete_eq m id t e :
  Get m id = Some t ->
  exists t', Get (Complete m id e) id = Some t' /\
             StartTime t' = StartTime t /\ EndTime t' = Some e.
Proof.
  unfold Get, Complete. intros ->. cbn [transfers].
  rewrite lookup_insert_eq. eauto.
Qed.

Lemma Get_Fail_eq m id t e err :
  Get m id = Some t ->
  exists t', Get (Fail m id e err) id = Some t' /\
             StartTime t' = StartTime t /\ EndTime t' = Some e.
Proof.
  unfold Get, Fail. intros ->. cbn [transfers].
  rewrite lookup_insert_eq. eauto.
Qed.

Lemma Get_Start_eq m id t s :
  Get m id = Some t ->
  exists t', Get (Start m id s) id = Some t' /\
             StartTime t' = Some s /\ EndTime t' = EndTime t.
Proof.
  unfold Get, Start. intros ->. cbn [transfers].
  rewrite lookup_insert_eq. eauto.
Qed.

(** X8: Once Complete or Fail has been called on a record at clock reading
    [e], its Duration no longer follows the clock: it is the time from its
    start to [e], and zero for a record that was never started, whatever the
    clock reads when Duration is called. *)
Theorem Duration_of_finished m id t e err :
  Get m id = Some t ->
  exists tc tf,
    Get (Complete m id e) id = Some tc /\
    Get (Fail m id e err) id = Some tf /\
    forall now,
      Duration tc now = Duration tf now /\
      Duration tc now = match StartTime t with
                        | None => 0
                        | Some s => Sub e s
                        end.
Proof.
  intros Ht.
  destruct (Get_Complete_eq m id t e Ht) as (tc & Hc & Hcs & Hce).
  destruct (Get_Fail_eq m id t e err Ht) as (tf & Hf & Hfs & Hfe).
  exists tc, tf. split; [done|]. split; [done|]. intros now.
  unfold Duration. rewrite Hcs, Hce, Hfs, Hfe.
  by destruct (StartTime t).
Qed.

Lemma Duration_of_finished_witness :
  exists tc tf,
    Get (Complete started_t1 "t1" 9) "t1" = Some tc /\
    Get (Fail started_t1 "t1" 9 (Some boom)) "t1" = Some tf /\
    forall now,
      Duration tc now = Duration tf now /\
      Duration tc now = Sub 9 1.
Proof.
  assert (Ht : exists t, Get started_t1 "t1" = Some t /\ StartTime t = Some 1)
    by (eexists; split; vm_compute; reflexivity).
  destruct Ht as (t & Ht & Hs).
  destruct (Duration_of_finished started_t1 "t1" t 9 (Some boom) Ht)
    as (tc & tf & Hc & Hf & Hd).
  exists tc, tf. split; [exact Hc|]. split; [exact Hf|].
  intros now. rewrite Hs in Hd. exact (Hd now).
Defined.

(** X9: Start does not clear the end time. A finished record that is started
    again at a clock reading [s] not before its end [e] is in progress with
    a Duration that stands still and is not positive: the time from [s] back
    to [e]. *)
Theorem Duration_after_restart m id t e s :
  Get m id = Some t ->
  EndTime t = Some e ->
  e <= s ->
  exists t',
    Get (Start m id s) id = Some t' /\
    Status_ t' = StatusInProgress /\
    forall now, Duration t' now = Sub e s /\ Duration t' now <= 0.
Proof.
  intros Ht He Hes. unfold Get, Start in *. rewrite Ht. cbn [transfers].
  rewrite lookup_insert_eq. eexists. split; [done|]. split; [done|].
  intros now. unfold Duration. cbn. rewrite He. split; [done|].
  unfold Sub, minDuration, maxDuration.
  repeat match goal with |- context [if ?b then _ else _] => destruct b eqn:? end; lia.
Qed.

Lemma Duration_after_restart_witness :
  exists t',
    Get (Start completed_a "a" 5) "a" = Some t' /\
    Status_ t' = StatusInProgress /\
    forall now, Duration t' now = Sub 1 5 /\ Duration t' now <= 0.
Proof.
  assert (Ht : exists t, Get completed_a "a" = Some t /\ EndTime t = Some 1)
    by (eexists; split; vm_compute; reflexivity).
  destruct Ht as (t & Ht & He).
  exact (Duration_after_restart completed_a "a" t 1 5 Ht He ltac:(lia)).
Defined.

End StoreMore.

(* ===================================================================== *)
(** * FormattedBytes: the unit it picks *)
(* ===================================================================== *)

Section FormatFacts.
Import Float64 Errors Format.



Variable Sprintf_1f : float64 -> string.


End FormatFacts.


(* ===================================================================== *)
(** * The classifier and its queries *)
(* ===================================================================== *)

Section QueryFacts.
Import Strings Errors Classify Queries.




(** ** Classifying twice *)

Lemma tags_do_not_cross :
  forallb (fun t => forallb (no_cross (ToLower (tag t))) all_keywords) all_types = true.
Proof. vm_compute. reflexivity. Qed.

Lemma Contains_tag t k s :
  In k all_keywords ->
  Contains (ToLower (tag t ++ s)) k
  = Contains (ToLower (tag t)) k || Contains (ToLower s) k.
Proof.
  intros Hk. unfold ToLower. rewrite map_bytes_app. apply Contains_app.
  pose proof tags_do_not_cross as H.
  rewrite forallb_forall in H.
  assert (Ht : In t all_types) by (destruct t; cbn; tauto).
  specialize (H t Ht). rewrite forallb_forall in H. by apply H.
Qed.

Local Ltac tag_values :=
  repeat match goal with
         | |- context [Contains (ToLower (tag ?t)) ?k] =>
             let b := eval vm_compute in (Contains (ToLower (tag t)) k) in
             replace (Contains (ToLower (tag t)) k) with b
               by (vm_compute; reflexivity)
         end.

(** X12: Classifying a classified error again changes nothing but the
    wrapping: the tag that the first classification puts before the text
    brings in no keyword of an earlier rule, so the second one finds the
    same type and the same two flags. *)
Theorem ClassifyError_twice e c :
  ClassifyError (Some e) = Some c ->
  ClassifyError (Some (to_error c))
  = Some {| Type_ := Type_ c; Err := to_error c;
            Retryable := Retryable c; Temporary := Temporary c |}.
Proof.
  unfold ClassifyError at 1.
  destruct (As_ValidationError e) eqn:Hv.
  { intros [= <-]. unfold ClassifyError, to_error. cbn. by rewrite Hv. }
  set (text := ToLower (err_Error e)).
  repeat match goal with
         | |- context [if ?b then _ else _] => destruct b eqn:?
         end;
    intros [= <-]; unfold ClassifyError, to_error;
    cbn [Type_ Err Retryable Temporary As_ValidationError err_Error];
    rewrite Hv;
    match goal with
    | |- context [ToLower ("[" ++ ErrorType_string ?t ++ "] " ++ ?s)%string] =>
        change ("[" ++ ErrorType_string t ++ "] " ++ s)%string with (tag t ++ s)%string
    end;
    rewrite !Contains_tag by (vm_compute; tauto);
    fold text; tag_values; cbn [orb];
    repeat match goal with H : _ = _ :> bool |- _ => rewrite H; clear H end;
    reflexivity.
Qed.

Lemma ClassifyError_twice_witness :
  ClassifyError (Some (Classified ErrorTypeTimeout (Plain "i/o timeout") true true))
  = Some {| Type_ := ErrorTypeTimeout;
            Err := Classified ErrorTypeTimeout (Plain "i/o timeout") true true;
            Retryable := true; Temporary := true |}.
Proof.
  exact (ClassifyError_twice (Plain "i/o timeout") _ eq_refl).
Defined.

End QueryFacts.

(* ===================================================================== *)
(** * More on the retry loop: waits, success, cancellation *)
(* ===================================================================== *)

Section RetryMore.
Import Float64 Errors Retry Backoff.
Local Open Scope list_scope.

Context {W : Type}.
Variable Execute : W -> option error * W.
Variable ctx_done : W -> bool.
Variable ctx_err : W -> option error.
Variable wait : Duration -> W -> bool * W.

(** Two observers of the state: the number of calls of [Execute], and
    the delays of the waits so far, each kept by the one and left alone
    by the other. *)
Variable calls : W -> nat.
Variable waits : W -> list Duration.
Hypothesis Execute_counts : forall w, calls (snd (Execute w)) = S (calls w).
Hypothesis wait_keeps : forall d w, calls (snd (wait d w)) = calls w.
Hypothesis Execute_keeps : forall w, waits (snd (Execute w)) = waits w.
Hypothesis wait_logs : forall d w, waits (snd (wait d w)) = waits w ++ [d].

Hypothesis never_cancelled : forall w, ctx_done w = false.
Hypothesis timer_fires : forall d w, fst (wait d w) = false.

Local Abbreviation run := (attempts Execute ctx_done ctx_err wait).

Lemma attempts_waits cfg :
  (forall w, fst (Execute w) <> None) ->
  forall left attempt delay lastErr w,
  attempt + Z.of_nat left = MaxAttempts cfg ->
  waits (snd (run (S left) attempt cfg delay lastErr w))
  = waits w ++ schedule cfg left delay.
Proof.
  intros always_fails.
  induction left as [|left IH]; intros attempt delay lastErr w Hsum.
  - cbn [attempts schedule]. rewrite never_cancelled.
    pose proof (always_fails w) as Hf. pose proof (Execute_keeps w) as Hk.
    destruct (Execute w) as [[e|] w'] eqn:HE; [|done]. cbn [fst snd] in *.
    replace (attempt =? MaxAttempts cfg) with true by (symmetry; apply Z.eqb_eq; lia).
    cbn [snd]. by rewrite app_nil_r.
  - remember (S left) as n eqn:Hn. cbn [attempts]. rewrite never_cancelled.
    pose proof (always_fails w) as Hf. pose proof (Execute_keeps w) as Hk.
    destruct (Execute w) as [[e|] w'] eqn:HE; [|done]. cbn [fst snd] in *.
    replace (attempt =? MaxAttempts cfg) with false by (symmetry; apply Z.eqb_neq; lia).
    pose proof (timer_fires delay w') as Ht. pose proof (wait_logs delay w') as Hl.
    destruct (wait delay w') as [cancelled w''] eqn:Hw. cbn [fst snd] in *. subst cancelled.
    subst n. rewrite (IH (attempt + 1) _ _ _ ltac:(lia)).
    rewrite Hl, Hk. cbn [schedule]. by rewrite <- app_assoc.
Qed.

(** X13: When every attempt fails and nothing is cancelled, the loop waits
    between the attempts and not after the last: with N the attempts allowed
    after the guards, there are N - 1 waits, the first of InitialDelay and
    each next one of the delay that [next_delay] makes of the one before. *)
Theorem ExecuteWithRetry_waits cfg w :
  (forall w, fst (Execute w) <> None) ->
  let cfg' := validate cfg in
  waits (snd (ExecuteWithRetry Execute ctx_done ctx_err wait cfg w))
  = waits w ++ schedule cfg' (Z.to_nat (MaxAttempts cfg') - 1) (InitialDelay cfg').
Proof.
  intros always_fails cfg'. subst cfg'. unfold ExecuteWithRetry.
  pose proof (validate_MaxAttempts_pos cfg) as Hpos.
  destruct (Z.to_nat (MaxAttempts (validate cfg))) as [|left] eqn:Hleft; [lia|].
  rewrite (attempts_waits (validate cfg) always_fails left 1 _ _ _ ltac:(lia)).
  by replace (S left - 1)%nat with left by lia.
Qed.

Lemma attempts_until_success cfg k :
  (forall w, (calls w < k)%nat -> fst (Execute w) <> None) ->
  (forall w, calls w = k -> fst (Execute w) = None) ->
  forall left attempt delay lastErr w,
  (calls w <= k)%nat ->
  attempt + Z.of_nat left = MaxAttempts cfg ->
  (k - calls w <= left)%nat ->
  let r := run (S left) attempt cfg delay lastErr w in
  fst r = None /\
  calls (snd r) = S k /\
  waits (snd r) = waits w ++ schedule cfg (k - calls w) delay.
Proof.
  intros fails_before succeeds_at.
  induction left as [|left IH]; intros attempt delay lastErr w Hc Hsum Hk r; subst r.
  - assert (Hck : calls w = k) by lia.
    cbn [attempts]. rewrite never_cancelled.
    pose proof (succeeds_at w Hck) as Hs. pose proof (Execute_counts w) as Hn.
    pose proof (Execute_keeps w) as Hl.
    destruct (Execute w) as [[e|] w'] eqn:HE; [done|]. cbn [fst snd] in *.
    split; [done|]. split; [lia|].
    replace (k - calls w)%nat with 0%nat by lia. cbn [schedule]. by rewrite app_nil_r.
  - remember (S left) as n eqn:Hn'. cbn [attempts]. rewrite never_cancelled.
    pose proof (Execute_counts w) as Hn. pose proof (Execute_keeps w) as Hl.
    destruct (Nat.eq_dec (calls w) k) as [Hck|Hck].
    + pose proof (succeeds_at w Hck) as Hs.
      destruct (Execute w) as [[e|] w'] eqn:HE; [done|]. cbn [fst snd] in *.
      split; [done|]. split; [lia|].
      replace (k - calls w)%nat with 0%nat by lia. cbn [schedule]. by rewrite app_nil_r.
    + pose proof (fails_before w ltac:(lia)) as Hf.
      destruct (Execute w) as [[e|] w'] eqn:HE; [|done]. cbn [fst snd] in *.
      replace (attempt =? MaxAttempts cfg) with false by (symmetry; apply Z.eqb_neq; lia).
      pose proof (timer_fires delay w') as Ht. pose proof (wait_logs delay w') as Hw.
      pose proof (wait_keeps delay w') as Hwk.
      destruct (wait delay w') as [cancelled w''] eqn:Hwt. cbn [fst snd] in *.
      subst cancelled n.
      destruct (IH (attempt + 1) (next_delay delay cfg) (Some e) w''
                  ltac:(lia) ltac:(lia) ltac:(lia)) as (H1 & H2 & H3).
      split; [done|]. split; [done|]. rewrite H3, Hw, Hl, Hwk, Hn.
      replace (k - calls w)%nat with (S (k - S (calls w)))%nat by lia.
      cbn [schedule]. by rewrite <- app_assoc.
Qed.

(** X14: The loop stops at the first attempt that succeeds: when the first k
    attempts fail and the next one succeeds, with k + 1 within the attempts
    allowed, ExecuteWithRetry returns nil after exactly k + 1 attempts and k
    waits; no attempt is made after the success. *)
Theorem ExecuteWithRetry_stops_at_success cfg k w :
  (forall w, (calls w < k)%nat -> fst (Execute w) <> None) ->
  (forall w, calls w = k -> fst (Execute w) = None) ->
  calls w = 0%nat ->
  Z.of_nat k < MaxAttempts (validate cfg) ->
  let r := ExecuteWithRetry Execute ctx_done ctx_err wait cfg w in
  fst r = None /\
  calls (snd r) = S k /\
  waits (snd r) = waits w ++ schedule (validate cfg) k (InitialDelay (validate cfg)).
Proof.
  intros fails_before succeeds_at Hw0 Hk r. subst r. unfold ExecuteWithRetry.
  destruct (Z.to_nat (MaxAttempts (validate cfg))) as [|left] eqn:Hleft; [lia|].
  destruct (attempts_until_success (validate cfg) k fails_before succeeds_at
              left 1 (InitialDelay (validate cfg)) None w
              ltac:(lia) ltac:(lia) ltac:(lia)) as (H1 & H2 & H3).
  split; [done|]. split; [done|]. rewrite H3.
  by replace (k - calls w)%nat with k by lia.
Qed.

End RetryMore.

Section RetryCancel.
Import Float64 Errors Retry.

Context {W : Type}.
Variable Execute : W -> option error * W.
Variable ctx_done : W -> bool.
Variable ctx_err : W -> option error.
Variable wait : Duration -> W -> bool * W.

(** X15: With a context that is done before the first attempt,
    ExecuteWithRetry returns the context's error as it is, not wrapped, and
    leaves the state alone: the attempt is not run and nothing is waited
    for, whatever the configuration. When the context is done only in the
    first wait, the error reads "context cancelled after 1 attempts" and
    wraps the error of the one attempt made. *)
Theorem ExecuteWithRetry_cancelled cfg w :
  (ctx_done w = true ->
   ExecuteWithRetry Execute ctx_done ctx_err wait cfg w = (ctx_err w, w)) /\
  (forall e w1 w2,
   ctx_done w = false ->
   Execute w = (Some e, w1) ->
   1 < MaxAttempts cfg ->
   wait (InitialDelay (validate cfg)) w1 = (true, w2) ->
   ExecuteWithRetry Execute ctx_done ctx_err wait cfg w
   = (Some (Wrap ("context cancelled after 1 attempts: " ++ err_Error e) e), w2)).
Proof.
  unfold ExecuteWithRetry.
  pose proof (validate_MaxAttempts_pos cfg) as Hpos.
  destruct (Z.to_nat (MaxAttempts (validate cfg))) as [|left] eqn:Hleft; [lia|].
  split.
  - intros Hd. cbn [attempts]. by rewrite Hd.
  - intros e w1 w2 Hd He HN Hw. cbn [attempts]. rewrite Hd, He.
    destruct (validate_fields cfg) as (HM & _).
    replace (MaxAttempts cfg <=? 0) with false in HM by (symmetry; apply Z.leb_gt; lia).
    replace (1 =? MaxAttempts (validate cfg)) with false
      by (symmetry; apply Z.eqb_neq; lia).
    rewrite Hw. reflexivity.
Qed.

End RetryCancel.

Section RetryExamples.
Import Float64 Errors Retry Backoff.

Lemma ExecuteWithRetry_waits_witness :
  snd (ExecuteWithRetry (W := list Duration)
         (fun w => (Some boom, w)) (fun _ => false) (fun _ => None)
         (fun d w => (false, w ++ [d])%list) DefaultRetryConfig [])
  = [2 * Second; 4 * Second].
Proof.
  exact (ExecuteWithRetry_waits (W := list Duration)
           (fun w => (Some boom, w)) (fun _ => false) (fun _ => None)
           (fun d w => (false, w ++ [d])%list) (fun w => w)
           (fun w => eq_refl) (fun d w => eq_refl)
           (fun w => eq_refl) (fun d w => eq_refl)
           DefaultRetryConfig [] (fun w => ltac:(discriminate))).
Defined.

Lemma ExecuteWithRetry_stops_at_success_witness :
  let Execute := fun w : nat * list Duration =>
    (if (fst w <? 1)%nat then Some boom else None, (S (fst w), snd w)) in
  let r := ExecuteWithRetry Execute (fun _ => false) (fun _ => None)
             (fun d w => (false, (fst w, snd w ++ [d])%list))
             DefaultRetryConfig (0%nat, []) in
  fst r = None /\ fst (snd r) = 2%nat /\ snd (snd r) = [2 * Second].
Proof.
  exact (ExecuteWithRetry_stops_at_success (W := nat * list Duration)
           (fun w => (if (fst w <? 1)%nat then Some boom else None, (S (fst w), snd w)))
           (fun _ => false) (fun _ => None)
           (fun d w => (false, (fst w, snd w ++ [d])%list))
           fst snd
           (fun w => eq_refl) (fun d w => eq_refl)
           (fun w => eq_refl) (fun d w => eq_refl)
           (fun w => eq_refl) (fun d w => eq_refl)
           DefaultRetryConfig 1%nat (0%nat, [])
           ltac:(intros [c l] H; cbn in *; replace c with 0%nat by lia; discriminate)
           ltac:(intros [c l] H; cbn in *; subst c; reflexivity)
           eq_refl ltac:(vm_compute; reflexivity)).
Defined.

Lemma ExecuteWithRetry_cancelled_witness :
  ExecuteWithRetry (W := nat) (fun w => (Some boom, S w)) (fun _ => true)
                   (fun _ => Some (Plain "context canceled"))
                   (fun _ w => (false, w)) DefaultRetryConfig 0%nat
  = (Some (Plain "context canceled"), 0%nat).
Proof.
  exact (proj1 (ExecuteWithRetry_cancelled (W := nat)
                  (fun w => (Some boom, S w)) (fun _ => true)
                  (fun _ => Some (Plain "context canceled"))
                  (fun _ w => (false, w)) DefaultRetryConfig 0%nat) eq_refl).
Defined.

End RetryExamples.

(* ===================================================================== *)
(** * formatInt, ToFlags and the builder *)
(* ===================================================================== *)

Section OptionsFacts.
Import Strings Errors Driver Options.
Local Open Scope list_scope.

Lemma digit_cases k : 0 <= k < 10 ->
  k = 0 \/ k = 1 \/ k = 2 \/ k = 3 \/ k = 4 \/ k = 5 \/ k = 6 \/ k = 7 \/ k = 8 \/ k = 9.
Proof. lia. Qed.

Local Ltac by_digit k H :=
  destruct (digit_cases k H) as [->|[->|[->|[->|[->|[->|[->|[->|[->| ->]]]]]]]]].

Lemma string_of_uint_digit k rest : 0 <= k < 10 ->
  NilEmpty.string_of_uint (digit k rest)
  = String (byte (k + 48)) (NilEmpty.string_of_uint rest).
Proof. intros H. by_digit k H; reflexivity. Qed.

Lemma of_lu_digit k rest : 0 <= k < 10 ->
  Z.of_N (DecimalPos.Unsigned.of_lu (digit k rest))
  = k + 10 * Z.of_N (DecimalPos.Unsigned.of_lu rest).
Proof.
  intros H. by_digit k H; cbn [digit DecimalPos.Unsigned.of_lu]; lia.
Qed.

Lemma nzhead_digit k rest : 0 < k < 10 ->
  Decimal.nzhead (digit k rest) = digit k rest.
Proof.
  intros H. assert (H' : 0 <= k < 10) by lia. by_digit k H'; try lia; reflexivity.
Qed.

Lemma revapp_digit k l acc : 0 <= k < 10 ->
  Decimal.revapp (digit k l) acc = Decimal.revapp l (digit k acc).
Proof. intros H. by_digit k H; reflexivity. Qed.

Lemma pow10_step fuel i :
  0 < i < 10 ^ Z.of_nat (S fuel) -> 0 <= i / 10 < 10 ^ Z.of_nat fuel.
Proof.
  intros [H1 H2]. rewrite Nat2Z.inj_succ, Z.pow_succ_r in H2 by lia.
  split; [apply Z.div_pos; lia|]. apply Z.div_lt_upper_bound; lia.
Qed.

Lemma formatInt_loop_little fuel : forall i acc,
  0 <= i < 10 ^ Z.of_nat fuel ->
  formatInt_loop fuel i (list_ascii_of_string (NilEmpty.string_of_uint acc))
  = Some (list_ascii_of_string
            (NilEmpty.string_of_uint (Decimal.revapp (little fuel i) acc))).
Proof.
  induction fuel as [|fuel IH]; intros i acc Hi.
  - cbn [formatInt_loop little]. change (10 ^ Z.of_nat 0) with 1 in Hi.
    destruct (Z.ltb_spec 0 i); [lia|done].
  - cbn [formatInt_loop little]. destruct (Z.ltb_spec 0 i) as [Hpos|]; [|done].
    rewrite Z.quot_div_nonneg, Z.rem_mod_nonneg by lia.
    pose proof (Z.mod_pos_bound i 10 ltac:(lia)) as Hm.
    rewrite revapp_digit by lia.
    rewrite <- (IH (i / 10) (digit (i mod 10) acc)) by (apply pow10_step; lia).
    by rewrite string_of_uint_digit by lia.
Qed.

Lemma of_lu_little fuel : forall i,
  0 <= i < 10 ^ Z.of_nat fuel ->
  Z.of_N (DecimalPos.Unsigned.of_lu (little fuel i)) = i.
Proof.
  induction fuel as [|fuel IH]; intros i Hi.
  - cbn [little]. change (10 ^ Z.of_nat 0) with 1 in Hi.
    destruct (Z.ltb_spec 0 i); [lia|]. cbn. lia.
  - cbn [little]. destruct (Z.ltb_spec 0 i) as [Hpos|]; [|cbn; lia].
    pose proof (Z.mod_pos_bound i 10 ltac:(lia)) as Hm.
    rewrite of_lu_digit by lia. rewrite IH by (apply pow10_step; lia).
    pose proof (Z.div_mod i 10 ltac:(lia)). lia.
Qed.

Lemma nzhead_little fuel : forall i acc,
  0 < i < 10 ^ Z.of_nat fuel ->
  Decimal.nzhead (Decimal.revapp (little fuel i) acc)
  = Decimal.revapp (little fuel i) acc /\
  Decimal.revapp (little fuel i) acc <> Decimal.Nil.
Proof.
  induction fuel as [|fuel IH]; intros i acc Hi.
  - change (10 ^ Z.of_nat 0) with 1 in Hi. lia.
  - cbn [little]. destruct (Z.ltb_spec 0 i) as [Hpos|]; [|lia].
    pose proof (Z.mod_pos_bound i 10 ltac:(lia)) as Hm.
    rewrite revapp_digit by lia.
    destruct (Z.eq_dec (i / 10) 0) as [Hz|Hnz].
    + rewrite Hz. assert (Hk : 0 < i mod 10 < 10).
      { pose proof (Z.div_mod i 10 ltac:(lia)). lia. }
      destruct fuel; cbn [little Z.ltb Z.compare Decimal.revapp];
        (split; [by apply nzhead_digit|]);
        assert (H' : 0 <= i mod 10 < 10) by lia;
        by_digit (i mod 10) H'; discriminate.
    + apply IH. pose proof (pow10_step fuel i ltac:(lia)). lia.
Qed.

Lemma to_int_little fuel i :
  0 < i < 10 ^ Z.of_nat fuel ->
  Z.to_int i = Decimal.Pos (Decimal.rev (little fuel i)).
Proof.
  intros Hi.
  assert (Hv : Z.of_int (Decimal.Pos (Decimal.rev (little fuel i))) = i).
  { cbn [Z.of_int]. unfold Z.of_uint.
    rewrite DecimalPos.Unsigned.of_lu_rev. apply of_lu_little. lia. }
  rewrite <- Hv at 1. rewrite DecimalZ.to_of. cbn [Decimal.norm].
  unfold Decimal.unorm, Decimal.rev.
  destruct (nzhead_little fuel i Decimal.Nil Hi) as [-> Hne].
  by destruct (Decimal.revapp (little fuel i) Decimal.Nil).
Qed.

Lemma formatInt_small i : 0 <= i < 10 -> formatInt i = Some (itoa i).
Proof. intros H. by_digit i H; vm_compute; reflexivity. Qed.

Lemma formatInt_itoa i : 0 <= i < 2 ^ 63 -> formatInt i = Some (itoa i).
Proof.
  intros Hi. destruct (Z_lt_ge_dec i 10) as [Hs|Hl].
  { apply formatInt_small. lia. }
  unfold formatInt. destruct (Z.ltb_spec i 10); [lia|].
  assert (Hb : 0 < i < 10 ^ Z.of_nat 64).
  { split; [lia|]. change (10 ^ Z.of_nat 64) with
      10000000000000000000000000000000000000000000000000000000000000000. lia. }
  change (@nil ascii)
    with (list_ascii_of_string (NilEmpty.string_of_uint Decimal.Nil)).
  rewrite formatInt_loop_little by lia. cbn [option_map].
  rewrite string_of_list_ascii_of_string.
  unfold itoa. rewrite (to_int_little 64 i Hb). reflexivity.
Qed.

(** X16: For every int that is not negative, formatInt returns its decimal
    numeral, the text that the %d verb prints: in both of its branches, and
    with a loop that ends. *)
Theorem formatInt_decimal i :
  0 <= i -> is_int i = true -> formatInt i = Some (itoa i).
Proof.
  intros H0 Hi. unfold is_int in Hi. apply andb_true_iff in Hi as [_ Hi].
  apply Z.ltb_lt in Hi. apply formatInt_itoa. lia.
Qed.

Lemma formatInt_decimal_witness :
  formatInt 7 = Some "7" /\ formatInt 1500 = Some "1500".
Proof.
  split.
  - exact (formatInt_decimal 7 ltac:(lia) eq_refl).
  - exact (formatInt_decimal 1500 ltac:(lia) eq_refl).
Defined.

(** ** ToFlags *)

Lemma fold_left_pairs name (l : list string) : forall acc,
  fold_left (fun flags pattern => flags ++ [name; pattern]) l acc
  = acc ++ pairs name l.
Proof.
  induction l as [|p l IH]; intros acc; cbn [fold_left pairs flat_map].
  - by rewrite app_nil_r.
  - rewrite IH. unfold pairs. by rewrite <- app_assoc.
Qed.

Lemma formatInt_flag z : is_int z = true -> (0 <? z) = true ->
  formatInt z = Some (itoa z).
Proof.
  intros Hi Hz. apply Z.ltb_lt in Hz. unfold is_int in Hi.
  apply andb_true_iff in Hi as [_ Hi]. apply Z.ltb_lt in Hi.
  apply formatInt_itoa. lia.
Qed.

Lemma ToFlags_common f :
  is_int (Transfers f) && is_int (Checkers f) && is_int (Bandwidth f) = true ->
  ToFlags f = Some (common_flags f).
Proof.
  intros H. apply andb_true_iff in H as [H Hb]. apply andb_true_iff in H as [Ht Hc].
  unfold ToFlags, common_flags.
  destruct (0 <? Transfers f) eqn:E1;
    [rewrite (formatInt_flag _ Ht E1)|]; cbn [option_map];
  (destruct (0 <? Checkers f) eqn:E2;
    [rewrite (formatInt_flag _ Hc E2)|]; cbn [option_map]);
  (destruct (0 <? Bandwidth f) eqn:E3;
    [rewrite (formatInt_flag _ Hb E3)|]; cbn [option_map]);
  rewrite !fold_left_pairs;
  destruct (IgnoreChecksum f), (NoTraverse f), (Progress f), (Verbose f),
    (nonempty (MinAge f)), (nonempty (MaxAge f));
  cbn [app]; rewrite <- ?app_assoc; cbn [app]; rewrite ?app_nil_r; reflexivity.
Qed.

(** ** The builder *)

Variable Duration_String : Z -> string.

Lemma chain_from cs : forall t,
  forallb ints_in_range cs = true ->
  fold_left (apply_call Duration_String) cs (Some t)
  = Some {| Command := last_command cs (Command t);
            Source := Source t; Destination := Destination t;
            Flags := Flags t ++ flat_map flags_of cs;
            StatsInterval := last_interval Duration_String cs (StatsInterval t);
            DryRun := DryRun t || asks_dry_run cs |}.
Proof.
  induction cs as [|c cs IH]; intros t Hr.
  - cbn. rewrite app_nil_r, orb_false_r. by destruct t.
  - cbn [forallb] in Hr. apply andb_true_iff in Hr as [Hc Hr].
    cbn [fold_left apply_call].
    destruct c as [cmd|flags|common|interval|];
      cbn [ints_in_range] in Hc;
      unfold WithCommonFlags; rewrite ?(ToFlags_common _ Hc); cbn [option_map];
      rewrite (IH _ Hr);
      cbn [Command Source Destination Flags StatsInterval DryRun
           WithCommand WithFlags WithStatsInterval WithDryRun
           last_command last_interval asks_dry_run existsb flat_map flags_of];
      rewrite <- ?app_assoc, ?orb_true_r; cbn [app orb]; reflexivity.
Qed.

(** X17: Whatever calls are chained on a builder and in whatever order, what
    Execute passes to rclone is: the command of the last WithCommand (copy
    if none), -v, --stats with the interval of the last WithStatsInterval
    (500ms if none), --dry-run if WithDryRun was called at all, then the
    flags of the WithFlags and WithCommonFlags calls in the order of the
    calls, then source and destination. A Verbose in the common flags so
    puts a second -v on the line. *)
Theorem builder_args source destination cs :
  forallb ints_in_range cs = true ->
  exists opts,
    chain Duration_String source destination cs = Some opts /\
    Execute_args opts
    = [last_command cs RcloneCopy; "-v"; "--stats";
       if String.eqb (last_interval Duration_String cs "500ms") EmptyString
       then "500ms" else last_interval Duration_String cs "500ms"]%string
      ++ (if asks_dry_run cs then ["--dry-run"%string] else [])
      ++ flat_map flags_of cs
      ++ [source; destination].
Proof.
  intros Hr. unfold chain. rewrite (chain_from cs _ Hr). cbn [option_map].
  eexists. split; [reflexivity|].
  unfold Build, Execute_args, NewTransferOptions.
  cbn [Command Source Destination Flags StatsInterval DryRun orb app].
  destruct (asks_dry_run cs); cbn [app]; reflexivity.
Qed.

End OptionsFacts.

Section OptionsExamples.
Import Strings Errors Driver Options.

Lemma builder_args_witness :
  exists opts,
    chain (fun _ => "1s") "src" "remote:dst"
      [CallDryRun;
       CallCommonFlags {| Transfers := 12; Checkers := 0; Bandwidth := 0;
                          IgnoreChecksum := false; NoTraverse := false;
                          Progress := false; Verbose := true;
                          Exclude := ["*.tmp"]; Include := [];
                          MinAge := EmptyString; MaxAge := EmptyString |};
       CallCommand RcloneMove;
       CallFlags ["--fast-list"]] = Some opts /\
    Execute_args opts
    = ["move"; "-v"; "--stats"; "500ms"; "--dry-run"; "--transfers"; "12";
       "-v"; "--exclude"; "*.tmp"; "--fast-list"; "src"; "remote:dst"].
Proof.
  exact (builder_args (fun _ => "1s") "src" "remote:dst"
           [CallDryRun;
            CallCommonFlags {| Transfers := 12; Checkers := 0; Bandwidth := 0;
                               IgnoreChecksum := false; NoTraverse := false;
                               Progress := false; Verbose := true;
                               Exclude := ["*.tmp"]; Include := [];
                               MinAge := EmptyString; MaxAge := EmptyString |};
            CallCommand RcloneMove;
            CallFlags ["--fast-list"]] eq_refl).
Defined.

End OptionsExamples.

(* ===================================================================== *)
(** * Splitting and joining remote paths *)
(* ===================================================================== *)

Section PathFacts.
Import Strings Paths.

Lemma Contains_colon s :
  Contains s ":" = match cut s colon with Some _ => true | None => false end.
Proof.
  induction s as [|c s IH]; [done|].
  cbn [Contains cut String.prefix]. rewrite IH. unfold colon.
  destruct (Ascii.eqb_spec c ":") as [->|Hne].
  - by destruct s.
  - destruct (ascii_dec ":" c) as [He|_]; [by subst c|].
    cbn [orb]. by destruct (cut s ":") as [[? ?]|].
Qed.

Lemma cut_parts s : forall before after,
  cut s colon = Some (before, after) ->
  s = (before ++ ":" ++ after)%string /\ Contains before ":" = false.
Proof.
  induction s as [|c s IH]; intros before after; [done|].
  cbn [cut]. unfold colon in *. destruct (Ascii.eqb_spec c ":") as [->|Hne].
  - intros [= <- <-]. done.
  - destruct (cut s ":") as [[b a]|] eqn:E; [|done]. intros [= <- <-].
    destruct (IH b a eq_refl) as [-> Hb]. split; [done|].
    cbn [Contains String.prefix]. rewrite Hb.
    destruct (ascii_dec ":" c) as [He|_]; [by subst c|]. done.
Qed.

Lemma cut_app before after :
  Contains before ":" = false ->
  cut (before ++ ":" ++ after) colon = Some (before, after).
Proof.
  induction before as [|c b IH]; [done|].
  cbn [Contains String.prefix]. unfold colon in *.
  destruct (ascii_dec ":" c) as [He|Hne].
  - destruct b; done.
  - cbn [orb]. intros Hb.
    change ((String c b ++ ":" ++ after)%string)
      with (String c (b ++ ":" ++ after)%string).
    cbn [cut]. destruct (Ascii.eqb_spec c ":") as [->|_]; [done|].
    by rewrite (IH Hb).
Qed.

(** X18: SplitRemotePath cuts at the first colon, so the remote name it
    returns has no colon; a path is split into an empty remote and itself
    exactly when IsRemotePath says it is not remote; and joining the two
    parts gives the path back, except for a path that begins with a colon,
    which loses it. *)
Theorem SplitRemotePath_parts remotePath remote path :
  SplitRemotePath remotePath = (remote, path) ->
  Contains remote ":" = false /\
  (IsRemotePath remotePath = false <-> (remote, path) = (EmptyString, remotePath)) /\
  (IsRemotePath remotePath = true -> remotePath = (remote ++ ":" ++ path)%string) /\
  JoinRemotePath remote path
  = match remotePath with
    | String ":" rest => rest
    | _ => remotePath
    end.
Proof.
  unfold SplitRemotePath, SplitN2, IsRemotePath.
  rewrite (Contains_colon remotePath).
  destruct (cut remotePath colon) as [[b a]|] eqn:E; intros [= <- <-].
  - destruct (cut_parts _ _ _ E) as [Hs Hb].
    split; [done|]. split; [|split; [done|]].
    + split; [done|]. intros [= -> ->].
      apply (f_equal String.length) in Hs.
      change (String.length remotePath = S (String.length remotePath)) in Hs. lia.
    + unfold JoinRemotePath. destruct b as [|c b].
      * cbn in Hs. subst remotePath. done.
      * cbn [String.eqb]. subst remotePath.
        change ((String c b ++ ":" ++ a)%string) with (String c (b ++ ":" ++ a)%string).
        cbn [Contains String.prefix] in Hb.
        destruct (ascii_dec ":" c) as [He|Hne]; [by destruct b|].
        destruct c as [[] [] [] [] [] [] [] []]; try reflexivity.
        by contradict Hne.
  - split; [done|]. split; [done|]. split; [done|].
    unfold JoinRemotePath. cbn [String.eqb].
    destruct remotePath as [|c s]; [done|].
    cbn [cut] in E. unfold colon in E.
    destruct (Ascii.eqb_spec c ":") as [->|Hne]; [done|].
    destruct c as [[] [] [] [] [] [] [] []]; try reflexivity.
    by contradict Hne.
Qed.

Lemma SplitRemotePath_parts_witness :
  Contains "myremote" ":" = false /\
  (IsRemotePath "myremote:path/to:file" = false
   <-> ("myremote", "path/to:file") = (EmptyString, "myremote:path/to:file")) /\
  (IsRemotePath "myremote:path/to:file" = true ->
   "myremote:path/to:file" = ("myremote" ++ ":" ++ "path/to:file")%string) /\
  JoinRemotePath "myremote" "path/to:file" = "myremote:path/to:file".
Proof.
  exact (SplitRemotePath_parts "myremote:path/to:file" "myremote" "path/to:file" eq_refl).
Defined.

(** X19: Splitting a joined pair gives the pair back when the remote name is
    not empty and has no colon; with an empty remote name the result is the
    split of the path alone. *)
Theorem SplitRemotePath_JoinRemotePath remote path :
  Contains remote ":" = false ->
  SplitRemotePath (JoinRemotePath remote path)
  = if String.eqb remote EmptyString then SplitRemotePath path else (remote, path).
Proof.
  intros Hr. unfold JoinRemotePath.
  destruct (String.eqb remote EmptyString) eqn:E; [done|].
  unfold SplitRemotePath, SplitN2. by rewrite (cut_app _ _ Hr).
Qed.

Lemma SplitRemotePath_JoinRemotePath_witness :
  SplitRemotePath (JoinRemotePath "myremote" "path/to:file")
  = ("myremote", "path/to:file").
Proof.
  exact (SplitRemotePath_JoinRemotePath "myremote" "path/to:file" eq_refl).
Defined.

End PathFacts.

(* ===================================================================== *)
(** * Validation errors and the classifier *)
(* ===================================================================== *)

Section ValidationFacts.
Import Float64 Strings Errors Classify Queries Validation.

Variable Stat : string -> bool + error.
Variable IsNotExist : error -> bool.
Variable Dir : string -> string.
Variable run_lsf : string -> Z -> option error * bool.

Lemma validation_error_class e :
  As_ValidationError e = true ->
  As_ClassifiedError e = None ->
  ClassifyError (Some e)
  = Some {| Type_ := ErrorTypeInvalidInput; Err := e;
            Retryable := false; Temporary := false |} /\
  GetErrorType (Some e) = Some ErrorTypeInvalidInput /\
  IsRetryable (Some e) = Some false /\
  IsTemporary (Some e) = Some false.
Proof.
  intros Hv Hc. unfold GetErrorType, IsRetryable, IsTemporary, ClassifyError.
  by rewrite Hc, Hv.
Qed.

Lemma validators_return_validation e path remoteName timeout :
  ValidateSourcePath Stat IsNotExist path = Some e \/
  ValidateDestinationPath Stat IsNotExist Dir path = Some e \/
  ValidateRemote run_lsf remoteName timeout = Some e ->
  exists field message, e = Validation field message.
Proof.
  unfold ValidateSourcePath, ValidateDestinationPath, ValidateRemote, ValidationError.
  intros [H|[H|H]];
    repeat match type of H with
           | context [if ?b then _ else _] => destruct b
           | context [match ?x with _ => _ end] => destruct x
           end;
    try discriminate; injection H as <-; eauto.
Qed.

(** X20: Every error that ValidateSourcePath, ValidateDestinationPath or
    ValidateRemote returns is a validation error, so the classifier puts it
    under invalid input, not retryable and not temporary, whatever its text
    says: a remote that timed out or refused the connection is not retried. *)
Theorem validators_classify e path remoteName timeout :
  ValidateSourcePath Stat IsNotExist path = Some e \/
  ValidateDestinationPath Stat IsNotExist Dir path = Some e \/
  ValidateRemote run_lsf remoteName timeout = Some e ->
  ClassifyError (Some e)
  = Some {| Type_ := ErrorTypeInvalidInput; Err := e;
            Retryable := false; Temporary := false |} /\
  GetErrorType (Some e) = Some ErrorTypeInvalidInput /\
  IsRetryable (Some e) = Some false /\
  IsTemporary (Some e) = Some false.
Proof.
  intros H.
  destruct (validators_return_validation _ _ _ _ H) as (field & message & ->).
  by apply validation_error_class.
Qed.

Variable Abs : string -> string + error.
Variable Statfs : string -> (Z * Z) + error.
Variable Sprintf_1f : float64 -> string.

(** X21: A path with a colon is taken for a remote path and never looked up:
    the two path validators and the disk check accept it whatever the file
    system holds and whatever space is asked for, also when nothing of the
    kind exists. *)
Theorem remote_paths_pass path requiredBytes :
  Contains path ":" = true ->
  ValidateSourcePath Stat IsNotExist path = None /\
  ValidateDestinationPath Stat IsNotExist Dir path = None /\
  CheckDiskSpace Stat IsNotExist Dir Abs Statfs Sprintf_1f path requiredBytes
  = Some None.
Proof.
  intros Hc. unfold ValidateSourcePath, ValidateDestinationPath, CheckDiskSpace.
  rewrite Hc. destruct path as [|c path]; [discriminate Hc|].
  cbn [String.eqb]. auto.
Qed.

End ValidationFacts.

Section ValidationExamples.
Import Float64 Strings Errors Classify Queries Validation.

Lemma validators_classify_witness :
  let e := Validation "remote" "timeout validating remote: backup" in
  ClassifyError (Some e)
  = Some {| Type_ := ErrorTypeInvalidInput; Err := e;
            Retryable := false; Temporary := false |} /\
  GetErrorType (Some e) = Some ErrorTypeInvalidInput /\
  IsRetryable (Some e) = Some false /\
  IsTemporary (Some e) = Some false.
Proof.
  exact (validators_classify
           (fun _ => inl true) (fun _ => false) (fun p => p)
           (fun _ _ => (Some (Plain "signal: killed"), true))
           (Validation "remote" "timeout validating remote: backup")
           "x" "backup:" 0 (or_intror (or_intror eq_refl))).
Defined.

Lemma remote_paths_pass_witness :
  ValidateSourcePath (fun _ => inr (Plain "stat: no such file")) (fun _ => true)
                     "gdrive:missing/file" = None /\
  ValidateDestinationPath (fun _ => inr (Plain "stat: no such file")) (fun _ => true)
                          (fun p => p) "gdrive:missing/file" = None /\
  CheckDiskSpace (fun _ => inr (Plain "stat: no such file")) (fun _ => true)
                 (fun p => p) (fun p => inl p) (fun _ => inl (0, 4096))
                 (fun _ => "1.5") "gdrive:missing/file" 1099511627776
  = Some None.
Proof.
  exact (remote_paths_pass (fun _ => inr (Plain "stat: no such file")) (fun _ => true)
           (fun p => p) (fun p => inl p) (fun _ => inl (0, 4096)) (fun _ => "1.5")
           "gdrive:missing/file" 1099511627776 eq_refl).
Defined.

End ValidationExamples.

(* ===================================================================== *)
(** * The classifier on the library's own messages *)
(* ===================================================================== *)

Section MessageFacts.
Import Float64 Strings Errors Classify Queries Retry Format Validation.

(** ** The classifier sees the text only through the keywords *)

Lemma ClassifyError_ext e1 e2 :
  As_ValidationError e1 = As_ValidationError e2 ->
  (forall k, In k all_keywords ->
     Contains (ToLower (err_Error e1)) k = Contains (ToLower (err_Error e2)) k) ->
  summary (ClassifyError (Some e1)) = summary (ClassifyError (Some e2)).
Proof.
  intros Hv H. unfold ClassifyError. rewrite Hv.
  repeat match goal with
         | |- context [Contains (ToLower (err_Error e1)) ?k] =>
             rewrite (H k) by (cbn; tauto)
         end.
  repeat match goal with
         | |- context [if ?b then _ else _] => destruct b
         end; reflexivity.
Qed.

(** ** Numerals *)

Lemma string_of_uint_digits d :
  all_bytes is_digit (NilEmpty.string_of_uint d) = true.
Proof.
  induction d as [|d IH|d IH|d IH|d IH|d IH|d IH|d IH|d IH|d IH|d IH];
    [done|..]; cbn [NilEmpty.string_of_uint all_bytes]; rewrite IH;
    vm_compute; reflexivity.
Qed.

Lemma string_of_uint_nonempty d :
  d <> Decimal.Nil -> NilEmpty.string_of_uint d <> EmptyString.
Proof. destruct d; done. Qed.

Lemma itoa_digits n : 0 <= n -> made_of is_digit (itoa n) = true.
Proof.
  intros Hn. unfold made_of, itoa. apply andb_true_iff. destruct n as [|p|p]; [done| |lia].
  cbn [Z.to_int NilEmpty.string_of_int]. split; [|apply string_of_uint_digits].
  pose proof (string_of_uint_nonempty _ (DecimalPos.Unsigned.to_uint_nonnil p)).
  by destruct (NilEmpty.string_of_uint (Pos.to_uint p)).
Qed.

Lemma itoa_numeric n : made_of numeric_byte (itoa n) = true.
Proof.
  destruct (Z_le_gt_dec 0 n) as [Hn|Hn].
  - pose proof (itoa_digits n Hn) as H. unfold made_of in *.
    apply andb_true_iff in H as [H1 H2]. rewrite H1. cbn [andb].
    exact (all_bytes_weaken _ _ _ digit_is_numeric H2).
  - destruct n as [|p|p]; [lia|lia|].
    unfold made_of, itoa. cbn [Z.to_int NilEmpty.string_of_int String.eqb negb andb all_bytes].
    change (numeric_byte "-") with true. cbn [andb].
    exact (all_bytes_weaken _ _ _ digit_is_numeric (string_of_uint_digits _)).
Qed.

(** A keyword in a text made of two fixed parts around a number and
    followed by any text: it occurs where it occurs in that text. *)
Lemma Contains_framed (P : ascii -> bool) p1 num p2 t k :
  free_of P k = true ->
  made_of P num = true ->
  no_cross p2 k = true ->
  Contains p1 k = false ->
  Contains p2 k = false ->
  Contains (p1 ++ num ++ p2 ++ t) k = Contains t k.
Proof.
  intros Hk Hnum Hc H1 H2.
  rewrite (Contains_class P k num p1 _ Hk Hnum), H1.
  by rewrite (Contains_app p2 k t Hc), H2.
Qed.

Lemma keywords_split k :
  In k all_keywords -> k = "404" \/ In k word_keywords.
Proof.
  intros H. cbn in H.
  repeat (destruct H as [<-|H]; [first [by left | right; vm_compute; tauto]|]).
  done.
Qed.

(** ** The error of an exhausted retry *)

Lemma exhausted_text N e :
  ToLower (err_Error (Errorf_attempts "failed after" N e))
  = ("failed after " ++ itoa N ++ " attempts: " ++ ToLower (err_Error e))%string.
Proof.
  pose proof (itoa_numeric N) as Hn. unfold made_of in Hn.
  apply andb_true_iff in Hn as [_ Hn].
  change (err_Error (Errorf_attempts "failed after" N e))
    with ("failed after " ++ itoa N ++ " attempts: " ++ err_Error e)%string.
  unfold ToLower. rewrite !map_bytes_app. fold (ToLower (itoa N)).
  by rewrite (ToLower_numeric _ Hn).
Qed.

Lemma exhausted_404 N t :
  Contains (itoa N) "404" = false ->
  Contains ("failed after " ++ itoa N ++ " attempts: " ++ t) "404"
  = Contains t "404".
Proof.
  intros HN.
  change ("failed after " ++ itoa N ++ " attempts: " ++ t)%string
    with ("failed after" ++ String " " (itoa N ++ String " " ("attempts:" ++ String " " t)))%string.
  rewrite !Contains_sep by reflexivity. by rewrite HN.
Qed.

(** X22: The error that ExecuteWithRetry returns when the attempts are used
    up is classified like the error of the last attempt: same type, same
    flags, and the three queries answer the same for both, as long as the
    numeral of the attempt count has no 404 in it (which the classifier
    would read as a keyword). *)
Theorem exhausted_error_keeps_class N e :
  0 <= N ->
  Contains (itoa N) "404" = false ->
  let err := Errorf_attempts "failed after" N e in
  summary (ClassifyError (Some err)) = summary (ClassifyError (Some e)) /\
  GetErrorType (Some err) = GetErrorType (Some e) /\
  IsRetryable (Some err) = IsRetryable (Some e) /\
  IsTemporary (Some err) = IsTemporary (Some e).
Proof.
  intros H0 HN err.
  assert (Hs : summary (ClassifyError (Some err)) = summary (ClassifyError (Some e))).
  { apply ClassifyError_ext; [reflexivity|]. intros k Hk. subst err.
    rewrite exhausted_text.
    destruct (keywords_split k Hk) as [->|Hw].
    - by apply exhausted_404.
    - vm_compute in Hw.
      repeat (destruct Hw as [<-|Hw];
              [apply (Contains_framed is_digit);
               [reflexivity|by apply itoa_digits|vm_compute; reflexivity..]|]).
      done. }
  split; [exact Hs|].
  unfold GetErrorType, IsRetryable, IsTemporary.
  change (As_ClassifiedError err) with (As_ClassifiedError e).
  destruct (As_ClassifiedError e); [done|].
  destruct (ClassifyError (Some err)) as [c1|] eqn:E1;
    destruct (ClassifyError (Some e)) as [c2|] eqn:E2;
    cbn in Hs; try discriminate; [|done].
  injection Hs as H1 H2 H3. cbn [option_map]. by rewrite H1, H2, H3.
Qed.

End MessageFacts.

Section MessageExamples.
Import Float64 Strings Errors Classify Queries Retry Format Validation.

Lemma exhausted_error_keeps_class_witness :
  let err := Errorf_attempts "failed after" 3 (Plain "dial tcp: i/o timeout") in
  summary (ClassifyError (Some err))
  = summary (ClassifyError (Some (Plain "dial tcp: i/o timeout"))) /\
  GetErrorType (Some err) = GetErrorType (Some (Plain "dial tcp: i/o timeout")) /\
  IsRetryable (Some err) = IsRetryable (Some (Plain "dial tcp: i/o timeout")) /\
  IsTemporary (Some err) = IsTemporary (Some (Plain "dial tcp: i/o timeout")).
Proof.
  exact (exhausted_error_keeps_class 3 (Plain "dial tcp: i/o timeout")
           ltac:(lia) eq_refl).
Defined.

End MessageExamples.

(* ===================================================================== *)
(** * The error of the disk check under the classifier *)
(* ===================================================================== *)

Section DiskFacts.
Import Float64 Strings Errors Classify Queries Format Validation.

Variable Stat : string -> bool + error.
Variable IsNotExist : error -> bool.
Variable Dir : string -> string.
Variable Abs : string -> string + error.
Variable Statfs : string -> (Z * Z) + error.
Variable Sprintf_1f : float64 -> string.

(** What is taken of the %.1f verb: the quotient of two int64, the
    divisor positive, is printed in digits with a point and maybe a
    sign. *)
Hypothesis quotient_text : forall bytes div,
  0 < div ->
  made_of numeric_byte (Sprintf_1f (fdiv (of_int bytes) (of_int div))) = true.








End DiskFacts.

Section DiskExamples.
Import Float64 Strings Errors Classify Queries Format Validation.


End DiskExamples.

(* ===================================================================== *)
(** * Listings: the version line and the duplicates *)
(* ===================================================================== *)

Section ListingFacts.
Import Strings Errors Listing.
Local Open Scope list_scope.

Variable Output : list string -> string + error.
Variable TrimSpace : string -> string.

Lemma Split_nonempty s : exists line lines, Split s = line :: lines.
Proof.
  induction s as [|c s (line & lines & IH)]; [by eexists _, _|].
  cbn [Split]. destruct (Ascii.eqb c LF); [by eexists _, _|].
  rewrite IH. by eexists _, _.
Qed.



(** ** Duplicates *)

Lemma existing_lookup (files : list string) : forall (acc : gmap string bool) f,
  default false (fold_left (fun existing file => <[file := true]> existing) files acc !! f)
  = default false (acc !! f) || bool_decide (f ∈ files).
Proof.
  induction files as [|x files IH]; intros acc f; cbn [fold_left].
  - rewrite bool_decide_eq_false_2; [by rewrite orb_false_r|]. apply not_elem_of_nil.
  - rewrite IH. destruct (decide (x = f)) as [->|Hne].
    + rewrite lookup_insert_eq. cbn [default orb].
      rewrite (bool_decide_eq_true_2 (f ∈ f :: files)) by (left).
      by rewrite orb_true_r.
    + rewrite lookup_insert_ne by done.
      destruct (default false (acc !! f)); [done|]. cbn [orb].
      apply bool_decide_ext. rewrite elem_of_cons.
      split; [by right|intros [->|H]; [congruence|done]].
Qed.

Lemma duplicates_lookup (existing : gmap string bool) (filenames : list string) :
  forall (acc : gmap string bool) f,
  fold_left (fun duplicates filename =>
               if default false (existing !! filename)
               then <[filename := true]> duplicates
               else duplicates) filenames acc !! f
  = if bool_decide (f ∈ filenames) && default false (existing !! f)
    then Some true else acc !! f.
Proof.
  induction filenames as [|x filenames IH]; intros acc f; cbn [fold_left].
  - rewrite bool_decide_eq_false_2; [done|]. apply not_elem_of_nil.
  - rewrite IH. destruct (decide (x = f)) as [->|Hne].
    + rewrite (bool_decide_eq_true_2 (f ∈ f :: filenames)) by (left).
      cbn [andb]. destruct (default false (existing !! f)) eqn:E.
      * rewrite lookup_insert_eq. by destruct (bool_decide _ && true).
      * by rewrite andb_false_r.
    + assert (Hb : bool_decide (f ∈ x :: filenames) = bool_decide (f ∈ filenames)).
      { apply bool_decide_ext. rewrite elem_of_cons.
        split; [intros [->|H]; [congruence|done]|by right]. }
      rewrite Hb. destruct (bool_decide (f ∈ filenames) && _); [done|].
      destruct (default false (existing !! x)); [|done].
      by rewrite lookup_insert_ne.
Qed.

(** X25: When the listing of the destination succeeds, the map that
    CheckDuplicates returns holds exactly the file names asked for that the
    listing has, each with the value true; no name is held with the value
    false. With no file name asked for, rclone is not run: the result is the
    empty map whatever the run would give. *)
Theorem CheckDuplicates_intersection destination filenames :
  (filenames = [] ->
   CheckDuplicates Output TrimSpace destination filenames = inl ∅) /\
  (forall existingFiles,
   filenames <> [] ->
   ListFiles Output TrimSpace destination false = inl existingFiles ->
   exists duplicates,
     CheckDuplicates Output TrimSpace destination filenames = inl duplicates /\
     forall f, duplicates !! f
               = if bool_decide (f ∈ filenames) && bool_decide (f ∈ existingFiles)
                 then Some true else None).
Proof.
  split.
  - intros ->. reflexivity.
  - intros existingFiles Hne Hl. unfold CheckDuplicates.
    destruct filenames as [|x filenames]; [done|]. cbn [length Nat.eqb].
    rewrite Hl. eexists. split; [reflexivity|]. intros f.
    rewrite duplicates_lookup, existing_lookup, lookup_empty. cbn [default orb].
    reflexivity.
Qed.

End ListingFacts.

Section ListingExamples.
Import Strings Errors Listing.


Lemma CheckDuplicates_intersection_witness :
  exists duplicates,
    CheckDuplicates (fun _ => inl ("a.txt" ++ String LF ("b.txt" ++ String LF EmptyString))%string) Strings.TrimSpace "remote:dir" ["b.txt"; "c.txt"] = inl duplicates /\
    forall f, duplicates !! f
              = if bool_decide (f ∈ ["b.txt"; "c.txt"])
                   && bool_decide (f ∈ ["a.txt"; "b.txt"])
                then Some true else None.
Proof.
  exact (proj2 (CheckDuplicates_intersection (fun _ => inl ("a.txt" ++ String LF ("b.txt" ++ String LF EmptyString))%string) Strings.TrimSpace "remote:dir" ["b.txt"; "c.txt"])
           ["a.txt"; "b.txt"] ltac:(discriminate) ltac:(vm_compute; reflexivity)).
Defined.

End ListingExamples.

(* ===================================================================== *)
(** * The terminal view: bars, the end of the session, the listing *)
(* ===================================================================== *)

Section UIFacts.
Import Strings Errors Store Format UI.
Local Open Scope list_scope.

Local Abbreviation add_bars m :=
  (fold_left
     (fun bars t =>
        match Status_ t with
        | StatusInProgress =>
            match bars !! ID t with
            | Some _ => bars
            | None => <[ID t := bar_width m]> bars
            end
        | _ => bars
        end)).

Lemma add_bars_lookup m (ts : list Transfer) : forall (bars : gmap string Z) id w,
  add_bars m ts bars !! id = Some w ->
  bars !! id = Some w \/
  (w = bar_width m /\
   exists t, In t ts /\ ID t = id /\ Status_ t = StatusInProgress).
Proof.
  induction ts as [|t ts IH]; intros bars id w; cbn [fold_left]; [by left|].
  intros H. apply IH in H as [H|(-> & t' & Hin & Hid & Hst)].
  - destruct (Status_ t) eqn:Hs; try (by left).
    destruct (bars !! ID t) eqn:Hb; [by left|].
    destruct (decide (ID t = id)) as [<-|Hne].
    + rewrite lookup_insert_eq in H. injection H as <-.
      right. split; [done|]. exists t. split; [by left|done].
    + rewrite lookup_insert_ne in H by done. by left.
  - right. split; [done|]. exists t'. split; [by right|done].
Qed.

Lemma add_bars_keeps m (ts : list Transfer) : forall (bars : gmap string Z) id w,
  bars !! id = Some w -> add_bars m ts bars !! id = Some w.
Proof.
  induction ts as [|t ts IH]; intros bars id w H; cbn [fold_left]; [done|].
  apply IH. destruct (Status_ t); try done.
  destruct (bars !! ID t) eqn:Hb; [done|].
  rewrite lookup_insert_ne; [done|]. intros <-. congruence.
Qed.

Lemma add_bars_covers m (ts : list Transfer) : forall (bars : gmap string Z) t,
  In t ts -> Status_ t = StatusInProgress ->
  is_Some (add_bars m ts bars !! ID t).
Proof.
  induction ts as [|t0 ts IH]; intros bars t Hin Hst; [done|].
  cbn [fold_left]. destruct Hin as [->|Hin]; [|by apply IH].
  rewrite Hst. destruct (bars !! ID t) as [w|] eqn:Hb.
  - exists w. by apply add_bars_keeps.
  - exists (bar_width m). apply add_bars_keeps. by rewrite lookup_insert_eq.
Qed.

Lemma seen_in_progress_more steps step id :
  seen_in_progress steps id -> seen_in_progress (steps ++ [step]) id.
Proof.
  intros (mgr & t & Hin & H). exists mgr, t. split; [|done].
  apply in_or_app. by left.
Qed.

Lemma Update_bars manager m msg id w :
  progress (fst (Update manager m msg)) !! id = Some w ->
  (w = bar_width (fst (Update manager m msg)) /\
   (is_Some (progress m !! id) \/
    (msg = tickMsg /\
     exists t, In t (GetAll manager) /\ ID t = id /\ Status_ t = StatusInProgress)))
  \/ (progress m !! id = Some w /\
      bar_width (fst (Update manager m msg)) = bar_width m).
Proof.
  destruct msg as [key|W H| | |]; cbn [Update].
  - destruct (_ || _); cbn [fst]; by right.
  - cbn [fst progress]. rewrite lookup_fmap.
    destruct (progress m !! id) as [w0|] eqn:E; [|done]. cbn.
    intros [= <-]. left. split; [reflexivity|]. left. by exists w0.
  - destruct (_ && _); cbn [fst progress]; [by right|].
    intros Hl. apply add_bars_lookup in Hl as [Hl|(-> & t & Ht)].
    + by right.
    + left. split; [reflexivity|]. right. split; [done|]. by exists t.
  - by right.
  - by right.
Qed.

(** X26: Through a whole session, whatever the messages and the states of
    the store between them, every progress bar of the model has the width of
    the current window less 20, and a bar is there only for a transfer that
    was seen in progress at some tick. *)
Theorem bars_follow_window steps :
  let m := run steps NewModel in
  bars_fit m /\
  forall id, is_Some (progress m !! id) -> seen_in_progress steps id.
Proof.
  induction steps as [|[manager msg] steps IH] using rev_ind.
  - split.
    + intros id w H. cbn in H. by rewrite lookup_empty in H.
    + intros id [w H]. cbn in H. by rewrite lookup_empty in H.
  - destruct IH as [Hfit Hseen]. unfold run in *. rewrite fold_left_app.
    cbn [fold_left fst snd].
    set (m := fold_left _ steps NewModel) in *. split.
    + intros id w H. apply Update_bars in H as [[-> _]|[H Hw]]; [done|].
      rewrite Hw. exact (Hfit id w H).
    + intros id [w H]. apply Update_bars in H as [[_ [Hs|[-> Ht]]]|[H _]].
      * apply seen_in_progress_more. by apply Hseen.
      * destruct Ht as (t & Hin & Hid & Hst). exists manager, t.
        split; [|done]. apply in_or_app. right. by left.
      * apply seen_in_progress_more. apply Hseen. by exists w.
Qed.

(** ** The end of the session *)

Lemma Update_done manager m msg :
  done m = true -> done (fst (Update manager m msg)) = true.
Proof.
  intros Hd. destruct msg as [key|W H| | |]; cbn [Update]; try done.
  - by destruct (_ || _).
  - by destruct (_ && _).
Qed.

Lemma run_done steps : forall m, done m = true -> done (run steps m) = true.
Proof.
  induction steps as [|step steps IH]; intros m Hd; [done|].
  cbn [run fold_left]. apply IH. by apply Update_done.
Qed.

(** X27: At a tick that finds no transfer pending or in progress, so also
    with an empty store, a model that is not done becomes done and asks for
    the message that ends the program two seconds later. From then on it
    stays done whatever is added to the store, the footer says that all
    transfers are complete, and that message quits whatever the store then
    holds. *)
Theorem idle_session_ends manager m :
  done m = false ->
  pending (Stats manager) = 0%nat ->
  inProgress (Stats manager) = 0%nat ->
  exists m1,
    Update manager m tickMsg = (m1, Some (One doneAfterTwoSeconds)) /\
    progress m1 = progress m /\
    forall steps manager',
      done (run steps m1) = true /\
      Update manager' (run steps m1) doneMsg = (run steps m1, Some (One Quit)).
Proof.
  intros Hd Hp Hi. cbn [Update]. rewrite Hp, Hi, Hd. cbn [Nat.eqb andb negb].
  eexists. split; [reflexivity|]. split; [reflexivity|].
  intros steps manager'. split; [|reflexivity]. by apply run_done.
Qed.

(** ** The order of the listing *)

Variable titleStyle statsStyle completedStyle pendingStyle : string -> string.
Variable renderTransfer : Model -> Transfer -> string.






End UIFacts.

Section StatusLineFacts.
Import Strings Errors Store UI.

Variable Base : string -> string.


Lemma prefix_substring s : forall k, String.prefix (substring 0 k s) s = true.
Proof.
  induction s as [|c s IH]; intros k; [by destruct k|].
  destruct k as [|k]; cbn [substring String.prefix]; [done|].
  destruct (ascii_dec c c); [apply IH|done].
Qed.


End StatusLineFacts.

Section UIExamples.
Import Strings Errors Store UI.

Lemma idle_session_ends_witness :
  exists m1,
    Update NewManager NewModel tickMsg = (m1, Some (One doneAfterTwoSeconds)) /\
    progress m1 = progress NewModel /\
    forall steps manager',
      done (run steps m1) = true /\
      Update manager' (run steps m1) doneMsg = (run steps m1, Some (One Quit)).
Proof.
  exact (idle_session_ends NewManager NewModel eq_refl eq_refl eq_refl).
Defined.

End UIExamples.
